(** * The NGXS store internals: accessors, state graph, paths and ordering

    A shallow embedding of [packages/store/src/internal/internals.ts]:
    the metadata attached to state classes, the two property getters
    ([compliantPropGetter], [fastPropGetter]) and their selection by
    [propGetter], [buildGraph], [findFullParentPath] and [topologicalSort].

    JavaScript exceptions are modelled by the [result] type, objects that
    are shared and mutated (state classes and their metadata records) by
    an explicit heap, and the recursion of the two graph walks by a
    call-stack bound. *)

From Stdlib Require Import ZArith Ascii String List Bool Lia.
From stdpp Require Import base option list strings gmap.

Local Open Scope Z_scope.
Local Open Scope nat_scope.

Local Set Warnings "-register-all".

(** ** Exceptions *)

Inductive JsError : Type :=
| TypeError                (* property read on null/undefined, call of a non-function *)
| RangeError               (* call stack exhausted *)
| Error (message : string) (* [throw new Error(message)] *).

Inductive result (A : Type) : Type :=
| Ret (a : A)
| Throw (e : JsError).

Arguments Ret {A} a.
Arguments Throw {A} e.

#[global] Instance result_ret : MRet result := fun A a => Ret a.

#[global] Instance result_bind : MBind result := fun A B k r =>
  match r with
  | Ret a => k a
  | Throw e => Throw e
  end.

(** [Array.prototype.reduce] with an initial value, for a callback that
    may throw. *)
Fixpoint reduce {A B : Type} (f : B -> A -> result B) (l : list A) (init : B)
  : result B :=
  match l with
  | [] => Ret init
  | x :: l' => acc ← f init x; reduce f l' acc
  end.

(** ** JavaScript values read by the accessors *)

(** Numbers are kept as integers plus [VNaN]: the accessors only test a
    number for truthiness.  An object is the finite map of the properties
    a read [obj[key]] sees; a key outside the map reads as [undefined]. *)
Inductive value : Type :=
| VUndefined
| VNull
| VBool (b : bool)
| VNum (n : Z)
| VNaN
| VStr (s : string)
| VObj (props : gmap string value).

(** [ToBoolean]. *)
Definition truthy (v : value) : bool :=
  match v with
  | VUndefined | VNull | VNaN => false
  | VBool b => b
  | VNum n => negb (Z.eqb n 0)
  | VStr s => negb (String.eqb s "")
  | VObj _ => true
  end.

Section Accessors.

(** Properties of boxed primitives ([(5).toFixed], ["ab".length], ...)
    are left open: every result below holds whatever they are. *)
Variable boxGet : value -> string -> value.

(** [v[key]] *)
Definition getProp (v : value) (key : string) : result value :=
  match v with
  | VUndefined | VNull => Throw TypeError
  | VObj props => Ret (default VUndefined (props !! key))
  | _ => Ret (boxGet v key)
  end.

(** [l && r], with [r] evaluated only when [l] is truthy. *)
Definition js_and (l : value) (r : result value) : result value :=
  if truthy l then r else Ret l.

(** *** The code generated by [fastPropGetter] *)

(** The expressions [new Function] is given by [fastPropGetter] when the
    segments are identifier names: the parameter, member reads and [&&]. *)
Inductive jsexpr : Type :=
| EParam
| EMember (e : jsexpr) (name : string)
| EAnd (l r : jsexpr).

Fixpoint eval (e : jsexpr) (store : value) : result value :=
  match e with
  | EParam => Ret store
  | EMember e' name => v ← eval e' store; getProp v name
  | EAnd l r => v ← eval l store; js_and v (eval r store)
  end.

(** A function value: the arrow function closed over [copyOfPaths] that
    [compliantPropGetter] returns, or a function made by [new Function]. *)
Inductive accessor : Type :=
| Interpreted (copyOfPaths : list string)
| Compiled (body : jsexpr).

(** Calling an accessor on a root state. *)
Definition call (fn : accessor) (obj : value) : result value :=
  match fn with
  | Interpreted copyOfPaths =>
      reduce (fun acc part => js_and acc (getProp acc part)) copyOfPaths obj
  | Compiled body => eval body obj
  end.

(** [paths.slice()]: a copy; lists here are immutable. *)
Definition slice (paths : list string) : list string := paths.

Definition compliantPropGetter (paths : list string) : accessor :=
  let copyOfPaths := slice paths in
  Interpreted copyOfPaths.

(** *** [new Function('store', body)] on the generated source *)

Inductive token : Type :=
| TId (name : string)
| TDot
| TAnd
| TSemi.

Definition is_digit (c : ascii) : bool :=
  let n := nat_of_ascii c in (48 <=? n) && (n <=? 57).

(** The characters of an identifier name: letters, digits, [_] and [$]. *)
Definition is_ident_char (c : ascii) : bool :=
  let n := nat_of_ascii c in
  ((65 <=? n) && (n <=? 90)) || ((97 <=? n) && (n <=? 122))
  || is_digit c || (n =? 95) || (n =? 36).

(** Ends the word read so far.  A word that starts with a digit is a
    numeric literal, which is outside the fragment. *)
Definition flush (cur : string) (rest : option (list token))
  : option (list token) :=
  match cur with
  | "" => rest
  | String c _ => if is_digit c then None else (TId cur ::.) <$> rest
  end.

Fixpoint lex_go (cur : string) (src : string) : option (list token) :=
  match src with
  | "" => flush cur (Some [])
  | String c src' =>
      if is_ident_char c then lex_go (cur +:+ String c "") src'
      else if Ascii.eqb c " " then flush cur (lex_go "" src')
      else if Ascii.eqb c "." then flush cur ((TDot ::.) <$> lex_go "" src')
      else if Ascii.eqb c ";" then flush cur ((TSemi ::.) <$> lex_go "" src')
      else if Ascii.eqb c "&" then
        match src' with
        | String c' src'' =>
            if Ascii.eqb c' "&"
            then flush cur ((TAnd ::.) <$> lex_go "" src'')
            else None
        | "" => None
        end
      else None
  end.

Inductive pstate : Type :=
| PStart  (* an operand starts: the parameter is expected *)
| PName   (* after a name: [.], [&&] or [;] *)
| PDot    (* after a dot: a property name *).

Definition conj (lhs : option jsexpr) (e : jsexpr) : jsexpr :=
  match lhs with
  | None => e
  | Some l => EAnd l e
  end.

(** [operand && operand && ... ;] where an operand is [param.x.y...];
    [&&] associates to the left. *)
Fixpoint parse_and (param : string) (st : pstate) (lhs : option jsexpr)
    (cur : jsexpr) (ts : list token) : option jsexpr :=
  match ts with
  | [] => None
  | t :: ts' =>
      match st, t with
      | PStart, TId x =>
          if String.eqb x param then parse_and param PName lhs EParam ts'
          else None
      | PName, TDot => parse_and param PDot lhs cur ts'
      | PDot, TId x => parse_and param PName lhs (EMember cur x) ts'
      | PName, TAnd => parse_and param PStart (Some (conj lhs cur)) EParam ts'
      | PName, TSemi =>
          match ts' with
          | [] => Some (conj lhs cur)
          | _ :: _ => None
          end
      | _, _ => None
      end
  end.

(** [new Function(param, body)] for a body [return e;] with [e] in the
    fragment above.  [None]: the body is outside the fragment (it may be
    a syntax error or some other program). *)
Definition newFunction (param body : string) : option accessor :=
  match lex_go "" body with
  | Some (TId kw :: ts) =>
      if String.eqb kw "return"
      then Compiled <$> parse_and param PStart None EParam ts
      else None
  | _ => None
  end.

(** The [while (++i < l)] loop of [fastPropGetter], over the segments
    after the first. *)
Fixpoint fastLoop (rest : list string) (seg expr : string) : string :=
  match rest with
  | [] => expr
  | s :: rest' =>
      let seg' := seg +:+ "." +:+ s in
      fastLoop rest' seg' (expr +:+ " && " +:+ seg')
  end.

(** ['store.' + segments[0]] is ["store.undefined"] on an empty array. *)
Definition fastPropGetter (paths : list string) : option accessor :=
  let segments := paths in
  let seg := "store." +:+ nth 0 segments "undefined" in
  let expr := fastLoop (tail segments) seg seg in
  newFunction "store" ("return " +:+ expr +:+ ";").

(** Modelled from the spec: the declaration of [NgxsConfig] (in
    [../symbols]) is not part of the sources; [propGetter] reads
    [config.compatibility.strictContentSecurityPolicy], the
    strict-content-security-policy flag, and guards both objects. *)
Record Compatibility : Type :=
  { strictContentSecurityPolicy : bool }.

Record NgxsConfig : Type :=
  { compatibility : option Compatibility }.

(** [config && config.compatibility &&
     config.compatibility.strictContentSecurityPolicy] *)
Definition strictCsp (config : option NgxsConfig) : bool :=
  match config with
  | None => false
  | Some c =>
      match compatibility c with
      | None => false
      | Some k => strictContentSecurityPolicy k
      end
  end.

Definition propGetter (paths : list string) (config : option NgxsConfig)
  : option accessor :=
  if strictCsp config
  then Some (compliantPropGetter paths)
  else fastPropGetter paths.

(** [lexes a s ts w]: reading [s] with the word [a] pending emits the
    tokens [ts] and leaves the word [w] pending. *)
Definition lexes (a s : string) (ts : list token) (w : string) : Prop :=
  forall k, lex_go a (s +:+ k) = (ts ++.) <$> lex_go w k.

(** *** The accessor as the specification words it *)

(** [v[key]] when [v] is neither [null] nor [undefined]. *)
Definition read (v : value) (key : string) : value :=
  match getProp v key with
  | Ret x => x
  | Throw _ => VUndefined
  end.

(** Walks the segments one at a time and stops at the first value that is
    falsy, which is the value returned. *)
Fixpoint walk (segments : list string) (v : value) : value :=
  match segments with
  | [] => v
  | part :: rest => if truthy v then walk rest (read v part) else v
  end.

(** The same walk with the result the specification gives a stop:
    [undefined]. *)
Fixpoint walkUndefined (segments : list string) (v : value) : value :=
  match segments with
  | [] => v
  | part :: rest =>
      if truthy v then walkUndefined rest (read v part) else VUndefined
  end.

Fixpoint all_ident (s : string) : bool :=
  match s with
  | "" => true
  | String c s' => is_ident_char c && all_ident s'
  end.

(** A segment that is an identifier name, so that [store.segment] reads
    the property of that name. *)
Definition identifierName (s : string) : bool :=
  match s with
  | "" => false
  | String c _ => negb (is_digit c) && all_ident s
  end.

End Accessors.

(** Boxed primitives with no property of their own, for the concrete
    examples (none of which reads a property of a primitive). *)
Definition noBox : value -> string -> value := fun _ _ => VUndefined.

(** [fastPropGetter(paths)(root)], when the source is in the fragment. *)
Definition fastGet (paths : list string) (root : value)
  : option (result value) :=
  fn ← fastPropGetter paths; Some (call noBox fn root).

(** [compliantPropGetter(paths)(root)] *)
Definition compliantGet (paths : list string) (root : value) : result value :=
  call noBox (compliantPropGetter paths) root.

(** [{a: 0}] *)
Definition rootA0 : value := VObj {[ "a" := VNum 0 ]}.

(** [{"a.b": 1, a: {b: 2}}] *)
Definition rootDotted : value :=
  VObj {[ "a.b" := VNum 1; "a" := VObj {[ "b" := VNum 2 ]} ]}.

(** ** State classes and their metadata *)

(** State classes and metadata records are objects with identity: they
    are referred to by address, and live in a heap. *)
Definition cref : Type := nat.
Definition mref : Type := nat.

(** The default [makeRootSelector], a method closed over the record it
    belongs to: [context.getStateGetter(defaultMetadata.name)]. *)
Inductive SelectorFactory : Type :=
| DefaultRootSelector (defaultMetadata : mref).

(** [MetaDataModel].  The handlers in [actions] are not inspected here
    ([ActionHandlerMetaData] is declared elsewhere): they are kept by name. *)
Record MetaDataModel : Type :=
  { name : option string;
    actions : gmap string (list string);
    defaults : value;
    path : option string;
    makeRootSelector : option SelectorFactory;
    children : option (list cref) }.

(** A state class: its own [META_KEY] property when it has one, the class
    it extends (through which [META_KEY] is inherited), and the text
    [String(stateClass)] gives. *)
Record StateClass : Type :=
  { own_meta : option mref;
    proto : option cref;
    source : string }.

Record Heap : Type :=
  { classes : gmap cref StateClass;
    records : gmap mref MetaDataModel }.

(** [target[META_KEY]]: the own property, else the one inherited along
    the prototype chain.  A chain is finite and never longer than the
    heap, so [getStoreMetadata] gives it the heap's size to walk. *)
Fixpoint lookupMeta (depth : nat) (h : Heap) (target : cref) : option mref :=
  match depth with
  | 0 => None
  | S depth' =>
      match classes h !! target with
      | None => None
      | Some c =>
          match own_meta c with
          | Some m => Some m
          | None =>
              match proto c with
              | Some parent => lookupMeta depth' h parent
              | None => None
              end
          end
      end
  end.

(** [None] is [undefined]. *)
Definition getStoreMetadata (target : cref) (h : Heap) : option mref :=
  lookupMeta (S (size (classes h))) h target.

Definition defaultMetadata (self : mref) : MetaDataModel :=
  {| name := None;
     actions := ∅;
     defaults := VObj ∅;
     path := None;
     makeRootSelector := Some (DefaultRootSelector self);
     children := Some [] |}.

(** [Object.defineProperty(target, META_KEY, { value })] *)
Definition defineMeta (target : cref) (c : StateClass) (m : mref) (h : Heap)
  : Heap :=
  {| classes :=
       <[target := {| own_meta := Some m; proto := proto c; source := source c |}]>
         (classes h);
     records := records h |}.

(** Allocation of a new record object. *)
Definition alloc (h : Heap) : mref := fresh (dom (records h)).

Definition ensureStoreMetadata (target : cref) (h : Heap)
  : result (option mref * Heap) :=
  match classes h !! target with
  | None => Throw TypeError
  | Some c =>
      let h' :=
        match own_meta c with
        | None =>
            let m := alloc h in
            let h1 := {| classes := classes h;
                         records := <[m := defaultMetadata m]> (records h) |} in
            defineMeta target c m h1
        | Some _ => h
        end in
      Ret (getStoreMetadata target h', h')
  end.

(** [meta.path = p], the write the callers of [findFullParentPath] do. *)
Definition setPath (m : mref) (p : string) (h : Heap) : Heap :=
  {| classes := classes h;
     records :=
       alter (fun r => {| name := name r; actions := actions r;
                          defaults := defaults r; path := Some p;
                          makeRootSelector := makeRootSelector r;
                          children := children r |}) m (records h) |}.

(** [meta.path] *)
Definition readPath (m : mref) (h : Heap) : option string :=
  r ← records h !! m; path r.

(** A class that carries no metadata yet, alone in the heap. *)
Definition classCart : StateClass :=
  {| own_meta := None; proto := None; source := "class Cart {}" |}.

Definition heapCart : Heap :=
  {| classes := {[ 1 := classCart ]}; records := ∅ |}.

(** ** Plain objects used as dictionaries *)

(** [PlainObjectOf<A>]: the own enumerable properties of a plain object,
    in the order [for...in] and [Object.keys] enumerate them.  The keys of
    an object are distinct. *)
Definition PlainObjectOf (A : Type) : Type := list (string * A).

Definition keys {A : Type} (o : PlainObjectOf A) : list string := o.*1.

(** The own property [o[key]]. *)
Fixpoint obj_get {A : Type} (o : PlainObjectOf A) (key : string) : option A :=
  match o with
  | [] => None
  | (k, v) :: o' => if String.eqb k key then Some v else obj_get o' key
  end.

(** The number a decimal numeral denotes. *)
Fixpoint decimal (s : string) (acc : N) : option N :=
  match s with
  | "" => Some acc
  | String c s' =>
      if is_digit c
      then decimal s' (10 * acc + (N_of_ascii c - 48))%N
      else None
  end.

(** A key that is an array index: the canonical numeral of an integer
    below [2^32 - 1].  Such keys are enumerated first, in numeric order. *)
Definition array_index (key : string) : option N :=
  match key with
  | "" => None
  | String c rest =>
      if Ascii.eqb c "0" && negb (String.eqb rest "") then None
      else
        match decimal key 0%N with
        | Some n => if (n <? 4294967295)%N then Some n else None
        | None => None
        end
  end.

Fixpoint obj_replace {A : Type} (o : PlainObjectOf A) (key : string) (v : A) : PlainObjectOf A :=
  match o with
  | [] => []
  | (k, w) :: o' =>
      if String.eqb k key then (k, v) :: o' else (k, w) :: obj_replace o' key v
  end.

Fixpoint obj_insert_index {A : Type} (o : PlainObjectOf A) (i : N) (key : string) (v : A)
  : PlainObjectOf A :=
  match o with
  | [] => [(key, v)]
  | (k, w) :: o' =>
      match array_index k with
      | Some j =>
          if (j <? i)%N then (k, w) :: obj_insert_index o' i key v
          else (key, v) :: o
      | None => (key, v) :: o
      end
  end.

(** [o[key] = v] on an object whose prototype is [Object.prototype]: an
    own property keeps its place, a new one goes after the others (an
    array index: among the array indices), and [__proto__] is the
    inherited accessor, which makes no own property. *)
Definition obj_set {A : Type} (o : PlainObjectOf A) (key : string) (v : A) : PlainObjectOf A :=
  if String.eqb key "__proto__" then o
  else if bool_decide (key ∈ keys o) then obj_replace o key v
  else
    match array_index key with
    | Some i => obj_insert_index o i key v
    | None => o ++ [(key, v)]
    end.

(** [o.hasOwnProperty(key)]: when [hasOwnProperty] is itself an own key,
    the call is of that property's value, which is no function. *)
Definition hasOwnProperty {A : Type} (o : PlainObjectOf A) (key : string) : result bool :=
  if bool_decide ("hasOwnProperty" ∈ keys o) then Throw TypeError
  else Ret (bool_decide (key ∈ keys o)).

(** The property names every plain object inherits from
    [Object.prototype]; each reads as a truthy value. *)
Definition objectPrototypeKeys : list string :=
  [ "constructor"; "__defineGetter__"; "__defineSetter__"; "hasOwnProperty";
    "__lookupGetter__"; "__lookupSetter__"; "isPrototypeOf";
    "propertyIsEnumerable"; "toString"; "valueOf"; "__proto__";
    "toLocaleString" ].

Fixpoint indexOf_from (l : list string) (x : string) (i : Z) : Z :=
  match l with
  | [] => (-1)%Z
  | y :: l' => if String.eqb y x then i else indexOf_from l' x (i + 1)%Z
  end.

(** [l.indexOf(x)] *)
Definition indexOf (l : list string) (x : string) : Z := indexOf_from l x 0%Z.

(** [Array.prototype.forEach] and [map] for callbacks that may throw. *)
Definition forEach {A S : Type} (l : list A) (f : A -> S -> result S) (s : S)
  : result S :=
  reduce (fun s x => f x s) l s.

Fixpoint mapE {A B : Type} (f : A -> result B) (l : list A) : result (list B) :=
  match l with
  | [] => Ret []
  | x :: l' => y ← f x; ys ← mapE f l'; Ret (y :: ys)
  end.

(** [typeof ngDevMode === 'undefined' || ngDevMode]: the global is
    undefined ([None]) or holds a truthy or falsy value. *)
Definition devChecks (ngDevMode : option bool) : bool :=
  match ngDevMode with
  | None => true
  | Some b => b
  end.

(** ** [buildGraph] *)

Definition StateKeyGraph : Type := PlainObjectOf (list string).

(** [String(stateClass)]; a child that is no class object is [undefined]. *)
Definition classToString (h : Heap) (stateClass : cref) : string :=
  match classes h !! stateClass with
  | Some c => source c
  | None => "undefined"
  end.

Definition childNotFoundMessage (h : Heap) (stateClass : cref) : string :=
  "Child state not found: " +:+ classToString h stateClass
  +:+ ". " +:+ String "013" (String "010" "")
  +:+ "You may have forgotten to add states to module".

(** [stateClass[META_KEY]] as a record. *)
Definition metaOf (h : Heap) (stateClass : cref) : option MetaDataModel :=
  m ← getStoreMetadata stateClass h; records h !! m.

(** A name used as a property key: [null] is the key ["null"]. *)
Definition propertyKey (name : option string) : string := default "null" name.

Definition findName (ngDevMode : option bool) (h : Heap)
    (stateClasses : list cref) (stateClass : cref) : result (option string) :=
  let meta := find (fun g => Nat.eqb g stateClass) stateClasses in
  if devChecks ngDevMode && negb (bool_decide (is_Some meta))
  then Throw (Error (childNotFoundMessage h stateClass))
  else
    match meta with
    | None => Throw TypeError
    | Some g =>
        match metaOf h g with
        | None => Throw TypeError
        | Some md => Ret (name md)
        end
    end.

(** The result is a [StateKeyGraph] by its type; the names in a child
    list are whatever [name] the child's metadata holds, [null] included
    ([name!] asserts, and does not check). *)
Definition buildGraph (ngDevMode : option bool) (h : Heap)
    (stateClasses : list cref) : result (PlainObjectOf (list (option string))) :=
  reduce
    (fun result stateClass =>
       match metaOf h stateClass with
       | None => Throw TypeError
       | Some md =>
           names ← mapE (findName ngDevMode h stateClasses)
                     (default [] (children md));
           Ret (obj_set result (propertyKey (name md)) names)
       end)
    stateClasses [].

(** What [findName] throws for a child missing from the list: the
    descriptive error under the development checks, and otherwise the
    [TypeError] of reading the metadata of [undefined]. *)
Definition missingChildError (ngDevMode : option bool) (h : Heap)
    (child : cref) : JsError :=
  if devChecks ngDevMode then Error (childNotFoundMessage h child)
  else TypeError.

(** [child] is declared by a module of the list and is not in the list. *)
Definition missingChild (h : Heap) (stateClasses : list cref) (child : cref)
  : Prop :=
  (child ∉ stateClasses)
  /\ exists parent md,
      (parent ∈ stateClasses) /\ metaOf h parent = Some md
      /\ (child ∈ default [] (children md)).

(** The states [Cart], [CartSaved] and [CartSavedItems], named [cart],
    [saved] and [items]. *)
Definition stateMeta (n : string) (kids : option (list cref)) : MetaDataModel :=
  {| name := Some n; actions := ∅; defaults := VObj ∅; path := None;
     makeRootSelector := None; children := kids |}.

Definition stateClass (m : mref) (text : string) : StateClass :=
  {| own_meta := Some m; proto := None; source := text |}.

Definition heapStates : Heap :=
  {| classes := {[ 1 := stateClass 1 "class Cart {}";
                   2 := stateClass 2 "class CartSaved {}";
                   3 := stateClass 3 "class CartSavedItems {}" ]};
     records := {[ 1 := stateMeta "cart" (Some [2]);
                   2 := stateMeta "saved" (Some [3]);
                   3 := stateMeta "items" None ]} |}.

(** ** [findFullParentPath] *)

(** A [for (const key in o)] loop whose body may [return]: the body gives
    [Some r] when it returns [r], [None] when the loop goes on. *)
Fixpoint forIn_return {A R : Type} (o : PlainObjectOf A)
    (body : string -> result (option R)) : result (option R) :=
  match o with
  | [] => Ret None
  | (key, _) :: o' =>
      r ← body key;
      match r with
      | Some x => Ret (Some x)
      | None => forIn_return o' body
      end
  end.

(** The inner [visit] of [findFullParentPath]; [None] is [null].  [stack]
    bounds the nesting of calls: beyond it the engine throws. *)
Fixpoint visitParent (stack : nat) (child : StateKeyGraph) (keyToFind : string)
  : result (option string) :=
  match stack with
  | 0 => Throw RangeError
  | S stack' =>
      forIn_return child (fun key =>
        own ← hasOwnProperty child key;
        match obj_get child key with
        | None => if own then Throw TypeError else Ret None
        | Some kids =>
            if own && (0 <=? indexOf kids keyToFind)%Z then
              parent ← visitParent stack' child key;
              Ret (Some (match parent with
                         | Some p => p +:+ "." +:+ key
                         | None => key
                         end))
            else Ret None
        end)
  end.

(** A string is truthy unless empty. *)
Definition nonEmpty (s : string) : bool := negb (String.eqb s "").

(** [newObj] is [{}] when the caller gives none. *)
Definition findFullParentPath (stack : nat) (obj : StateKeyGraph)
    (newObj : PlainObjectOf string) : result (PlainObjectOf string) :=
  reduce
    (fun (newObj : PlainObjectOf string) (key : string) =>
       own ← hasOwnProperty obj key;
       if own : bool then
         parent ← visitParent stack obj key;
         Ret (obj_set newObj key
                (match parent with
                 | Some p => if nonEmpty p then p +:+ "." +:+ key else key
                 | None => key
                 end))
       else Ret newObj)
    (keys obj) newObj.

(** ** [topologicalSort] *)

(** The two locals of [topologicalSort]: the array [sorted] and the own
    keys of the object [visited]. *)
Record SortState : Type :=
  { sorted : list string;
    visited : gset string }.

(** [visited[dep]] is truthy for a marked name, and for every name
    [visited] inherits from [Object.prototype]. *)
Definition isVisited (st : SortState) (dep : string) : bool :=
  bool_decide (dep ∈ visited st) || bool_decide (dep ∈ objectPrototypeKeys).

Definition circularMessage (dep name : string) (ancestors : list string)
  : string :=
  "Circular dependency '" +:+ dep +:+ "' is required by '" +:+ name
  +:+ "': " +:+ String.concat " -> " ancestors.

(** [visited[name] = true] *)
Definition markVisited (name : string) (st : SortState) : SortState :=
  {| sorted := sorted st; visited := {[name]} ∪ visited st |}.

(** [if (sorted.indexOf(name) < 0) sorted.push(name)] *)
Definition pushSorted (name : string) (st : SortState) : SortState :=
  if (indexOf (sorted st) name <? 0)%Z
  then {| sorted := sorted st ++ [name]; visited := visited st |}
  else st.

(** The inner [visit] of [topologicalSort].  [ancestors] is the caller's
    copy ([ancestors.slice(0)], or the default [[]]), so the [push] is
    seen by this call alone.  [stack] bounds the nesting of calls. *)
Fixpoint visit (stack : nat) (ngDevMode : option bool) (graph : StateKeyGraph)
    (name : string) (ancestors : list string) (st : SortState)
  : result SortState :=
  match stack with
  | 0 => Throw RangeError
  | S stack' =>
      let ancestors := ancestors ++ [name] in
      let st := markVisited name st in
      match obj_get graph name with
      | None => Throw TypeError
      | Some deps =>
          st ← forEach deps (fun dep st =>
                 if devChecks ngDevMode && (0 <=? indexOf ancestors dep)%Z
                 then Throw (Error (circularMessage dep name ancestors))
                 else if isVisited st dep then Ret st
                 else visit stack' ngDevMode graph dep ancestors st) st;
          Ret (pushSorted name st)
      end
  end.

Definition topologicalSort (stack : nat) (ngDevMode : option bool)
    (graph : StateKeyGraph) : result (list string) :=
  st ← forEach (keys graph)
         (fun k st => visit stack ngDevMode graph k [] st)
         {| sorted := []; visited := ∅ |};
  Ret (reverse (sorted st)).

(** ** Vocabulary of the statements about graphs *)

(** [parent] lists [child] among its children. *)
Definition edge (graph : StateKeyGraph) (parent child : string) : Prop :=
  exists kids, obj_get graph parent = Some kids /\ (child ∈ kids).

(** A module that depends on itself through one or more edges. *)
Definition cyclic (graph : StateKeyGraph) : Prop :=
  exists x, tc (edge graph) x x.

Definition acyclic (graph : StateKeyGraph) : Prop :=
  forall x, ~ tc (edge graph) x x.

(** The invariant of an adjacency map: every child is a key. *)
Definition closed (graph : StateKeyGraph) : Prop :=
  forall parent child, edge graph parent child -> child ∈ keys graph.

(** No key hides the inherited method [hasOwnProperty], and none is
    [__proto__], which an assignment does not create. *)
Definition plainKeys (graph : StateKeyGraph) : Prop :=
  ("hasOwnProperty" ∉ keys graph) /\ ("__proto__" ∉ keys graph).

(** No name in a child list is a property name that plain objects
    inherit. *)
Definition plainChildren (graph : StateKeyGraph) : Prop :=
  forall parent child, edge graph parent child -> child ∉ objectPrototypeKeys.

(** A numbering of the modules in which every parent comes before its
    children: a certificate that the map has no cycle. *)
Definition ranked (rk : string -> nat) (graph : StateKeyGraph) : bool :=
  forallb (fun e : string * list string =>
             forallb (fun c => rk e.1 <? rk c) e.2) graph.

(** The first key, in enumeration order, whose child list contains
    [node]. *)
Definition firstParent (graph : StateKeyGraph) (node : string)
  : option string :=
  fst <$> find (fun e : string * list string => bool_decide (node ∈ e.2)) graph.

(** [`${parent}.${key}`] below a parent, [key] at a root. *)
Definition joined (parent : option string) (key : string) : string :=
  match parent with
  | Some p => p +:+ "." +:+ key
  | None => key
  end.

(** The graph [{cart: ['saved'], saved: ['items'], items: []}]. *)
Definition cartGraph : StateKeyGraph :=
  [("cart", ["saved"]); ("saved", ["items"]); ("items", [])].

(** A node with two parents; a module that is its own parent; two
    modules that depend on each other. *)
Definition sharedGraph : StateKeyGraph :=
  [("a", ["c"]); ("b", ["c"]); ("c", [])].

Definition selfGraph : StateKeyGraph := [("a", ["a"])].

Definition mutualGraph : StateKeyGraph := [("A", ["B"]); ("B", ["A"])].

(** A root whose name is empty; a child named like an inherited
    property, in a cycle with its parent. *)
Definition emptyRootGraph : StateKeyGraph :=
  [("", ["a"]); ("a", ["b"]); ("b", [])].

Definition constructorGraph : StateKeyGraph :=
  [("a", ["constructor"]); ("constructor", ["a"])].

(** A node [c] with two parents that depend on each other. *)
Definition tangledGraph : StateKeyGraph :=
  [("a", ["c"; "b"]); ("b", ["c"; "a"]); ("c", [])].

(** Numberings of [cartGraph] and [sharedGraph]. *)
Definition cartRank (s : string) : nat :=
  if String.eqb s "cart" then 0 else if String.eqb s "saved" then 1 else 2.

Definition sharedRank (s : string) : nat :=
  if String.eqb s "c" then 1 else 0.

(** ** Vocabulary of the statements about [topologicalSort] *)

(** Consecutive names of [l] are joined by edges. *)
Fixpoint chained (graph : StateKeyGraph) (l : list string) : Prop :=
  match l with
  | a :: l' =>
      match l' with
      | b :: _ => edge graph a b /\ chained graph l'
      | [] => True
      end
  | [] => True
  end.

(** An array filled by [push] in which every name comes after all its
    children, and no name comes twice. *)
Inductive postOrdered (graph : StateKeyGraph) : list string -> Prop :=
| postOrdered_nil : postOrdered graph []
| postOrdered_push (l : list string) (x : string) (kids : list string) :
    postOrdered graph l ->
    obj_get graph x = Some kids ->
    (forall c, c ∈ kids -> c ∈ l) ->
    x ∉ l ->
    postOrdered graph (l ++ [x]).

(** The error thrown on a cycle: its message names [dep], the module
    [name] that requires it and the chain of ancestors, which runs along
    edges down to [name] and holds [dep]. *)
Definition circularError (graph : StateKeyGraph) (e : JsError) : Prop :=
  exists dep name ancestors,
    e = Error ("Circular dependency '" +:+ dep +:+ "' is required by '"
               +:+ name +:+ "': " +:+ String.concat " -> " ancestors)
    /\ edge graph name dep
    /\ (dep ∈ ancestors)
    /\ last ancestors = Some name
    /\ chained graph ancestors.

(** Every marked name is in [sorted] or among the ancestors. *)
Definition settled (st : SortState) (ancestors : list string) : Prop :=
  forall x, x ∈ visited st -> x ∈ sorted st \/ x ∈ ancestors.

(** The keys not yet marked. *)
Definition unvisited (graph : StateKeyGraph) (st : SortState) : nat :=
  length (filter (fun k => k ∉ visited st) (keys graph)).

(** The callback of the [forEach] in [visit]. *)
Definition visitDep (stack : nat) (ngDevMode : option bool)
    (graph : StateKeyGraph) (name : string) (ancestors : list string)
    (dep : string) (st : SortState) : result SortState :=
  if devChecks ngDevMode && (0 <=? indexOf ancestors dep)%Z
  then Throw (Error (circularMessage dep name ancestors))
  else if isVisited st dep then Ret st
  else visit stack ngDevMode graph dep ancestors st.

(** [x] comes before [y] in [l]. *)
Definition precedes (l : list string) (x y : string) : Prop :=
  exists l1 l2 l3, l = l1 ++ x :: l2 ++ y :: l3.

(** What a call of [visit] leaves behind when it returns: [sorted] is
    still post-ordered and has lost nothing, and no mark is lost. *)
Definition advances (graph : StateKeyGraph) (st st' : SortState)
    (ancestors : list string) : Prop :=
  postOrdered graph (sorted st')
  /\ settled st' ancestors
  /\ (forall x, x ∈ sorted st -> x ∈ sorted st')
  /\ visited st ⊆ visited st'.

(** The specification of [visit] with a call stack of depth [n]. *)
Definition visitOk (ngDevMode : option bool) (graph : StateKeyGraph)
    (n : nat) : Prop :=
  forall name ancestors st,
    name ∈ keys graph ->
    postOrdered graph (sorted st) ->
    settled st ancestors ->
    chained graph (ancestors ++ [name]) ->
    unvisited graph (markVisited name st) < n ->
    match visit n ngDevMode graph name ancestors st with
    | Ret st' => advances graph st st' ancestors /\ (name ∈ sorted st')
    | Throw e => circularError graph e
    end.


(** ** Further vocabulary: the generated expression *)

(** The conjunction the loop of [fastPropGetter] spells out: [lhs] is the
    expression so far, [chain] its last operand, and each further segment
    adds the operand [chain.segment]. *)
Fixpoint andChain (lhs chain : jsexpr) (rest : list string) : jsexpr :=
  match rest with
  | [] => lhs
  | s :: rest' => andChain (EAnd lhs (EMember chain s)) (EMember chain s) rest'
  end.

(** [store.a && store.a.b && ...] for the segments [a], [b], ... *)
Definition fastBody (paths : list string) : jsexpr :=
  match paths with
  | [] => EMember EParam "undefined"
  | p0 :: rest => andChain (EMember EParam p0) (EMember EParam p0) rest
  end.

(** ** [nameToState] *)

(** The object that [nameToState] fills: its own properties, and its
    prototype.  [None] is [Object.prototype], the prototype of [{}]; an
    assignment to [__proto__] runs the setter inherited from
    [Object.prototype], which makes the class assigned the prototype of
    the object and creates no property. *)
Record StatesByName : Type :=
  { prototypeOf : option cref;
    ownStates : PlainObjectOf cref }.

(** The properties of every class object that an assignment through it
    cannot shadow: [length], [name] and [prototype] are not writable, and
    [caller] and [arguments] are accessors of [Function.prototype] whose
    setter throws. *)
Definition functionReadOnly : list string :=
  ["length"; "name"; "prototype"; "caller"; "arguments"].

Section NameToState.

(** What else a class holds or inherits read-only: the metadata
    properties, which [Object.defineProperty] creates without [writable]
    under keys declared outside this file, and read-only static members.
    Static members are otherwise taken to be writable data properties. *)
Variable frozen : cref -> string -> bool.

Definition readOnlyThrough (c : cref) (key : string) : bool :=
  bool_decide (key ∈ functionReadOnly) || frozen c key.

(** [result[key] = stateClass], in the strict code of a module.  An own
    property is written; a property the object lacks is created, unless
    the prototype is a class through which the property is read-only:
    then the assignment throws.  Every property inherited from
    [Object.prototype] is writable. *)
Definition assignState (byName : StatesByName) (key : string)
    (stateClass : cref) : result StatesByName :=
  if String.eqb key "__proto__"
  then Ret {| prototypeOf := Some stateClass; ownStates := ownStates byName |}
  else
    if negb (bool_decide (key ∈ keys (ownStates byName)))
       && match prototypeOf byName with
          | Some c => readOnlyThrough c key
          | None => false
          end
    then Throw TypeError
    else Ret {| prototypeOf := prototypeOf byName;
                ownStates := obj_set (ownStates byName) key stateClass |}.

Definition nameToState (h : Heap) (states : list cref)
  : result StatesByName :=
  reduce
    (fun result stateClass =>
       match metaOf h stateClass with
       | None => Throw TypeError
       | Some meta => assignState result (propertyKey (name meta)) stateClass
       end)
    states {| prototypeOf := None; ownStates := [] |}.

End NameToState.

(** No class has other read-only properties. *)
Definition noneFrozen (c : cref) (key : string) : bool := false.

(** ** Vocabulary of the statements about [buildGraph] and [nameToState] *)

(** [stateClass[META_KEY].name], and the property key it makes. *)
Definition nameOf (h : Heap) (stateClass : cref) : option string :=
  md ← metaOf h stateClass; name md.

Definition keyOf (h : Heap) (stateClass : cref) : string :=
  propertyKey (nameOf h stateClass).

(** The names of the children a class declares. *)
Definition childNames (h : Heap) (stateClass : cref) : list (option string) :=
  match metaOf h stateClass with
  | Some md => nameOf h <$> default [] (children md)
  | None => []
  end.

(** Every module of the list carries metadata. *)
Definition allRegistered (h : Heap) (stateClasses : list cref) : Prop :=
  forall c, c ∈ stateClasses -> is_Some (metaOf h c).

(** Every child declared by a module of the list is in the list. *)
Definition allListed (h : Heap) (stateClasses : list cref) : Prop :=
  forall parent md child,
    parent ∈ stateClasses -> metaOf h parent = Some md ->
    child ∈ default [] (children md) -> child ∈ stateClasses.

(** The assignments [result[key x] = val x], for [x] along [l]. *)
Definition assignAll {A B : Type} (key : A -> string) (val : A -> B)
    (l : list A) (acc : PlainObjectOf B) : PlainObjectOf B :=
  fold_left (fun r x => obj_set r (key x) (val x)) l acc.

(** [x] is the last element of [l] with the key [k]. *)
Definition lastWith {A : Type} (key : A -> string) (l : list A) (k : string)
    (x : A) : Prop :=
  exists l1 l2, l = l1 ++ x :: l2 /\ key x = k /\ forall y, y ∈ l2 -> key y <> k.

(** The graph of [buildGraph] read as a [StateKeyGraph], which is the
    type the source gives it: no name in it is [null]. *)
Definition namedGraph (graph : PlainObjectOf (list (option string)))
    (g : StateKeyGraph) : Prop :=
  graph = (fun e : string * list string => (e.1, Some <$> e.2)) <$> g.

(** Two states named [cart], the first with the child [items]; the graph
    of [heapStates] as [buildGraph] returns it. *)
Definition heapTwins : Heap :=
  {| classes := {[ 1 := stateClass 1 "class Cart {}";
                   2 := stateClass 2 "class OtherCart {}";
                   3 := stateClass 3 "class Items {}" ]};
     records := {[ 1 := stateMeta "cart" (Some [3]);
                   2 := stateMeta "cart" None;
                   3 := stateMeta "items" None ]} |}.

(** A state named [__proto__] and a state named [name]. *)
Definition heapProto : Heap :=
  {| classes := {[ 1 := stateClass 1 "class Proto {}";
                   2 := stateClass 2 "class Named {}" ]};
     records := {[ 1 := stateMeta "__proto__" None;
                   2 := stateMeta "name" None ]} |}.

Definition cartBuilt : PlainObjectOf (list (option string)) :=
  [("cart", [Some "saved"]); ("saved", [Some "items"]); ("items", [])].

(** ** Selector functions and their metadata *)

Module Selectors.

(** Selector functions and their metadata records are objects with
    identity, as the state classes are. *)
Definition fref : Type := nat.
Definition sref : Type := nat.

Record SharedSelectorOptions : Type :=
  { injectContainerState : option bool;
    suppressErrors : option bool }.

(** [SelectorMetaDataModel]; [None] is [null]. *)
Record SelectorMetaDataModel : Type :=
  { makeRootSelector : option SelectorFactory;
    originalFn : option fref;
    containerClass : option cref;
    selectorName : option string;
    getSelectorOptions : unit -> SharedSelectorOptions }.

(** A function object: its own [SELECTOR_META_KEY] property when it has
    one, and its prototype, through which the property is inherited. *)
Record FunctionObject : Type :=
  { own_meta : option sref;
    proto : option fref }.

Record Heap : Type :=
  { functions : gmap fref FunctionObject;
    records : gmap sref SelectorMetaDataModel }.

Fixpoint lookupMeta (depth : nat) (h : Heap) (target : fref) : option sref :=
  match depth with
  | 0 => None
  | S depth' =>
      match functions h !! target with
      | None => None
      | Some f =>
          match own_meta f with
          | Some m => Some m
          | None =>
              match proto f with
              | Some parent => lookupMeta depth' h parent
              | None => None
              end
          end
      end
  end.

(** [target[SELECTOR_META_KEY]]; [None] is [undefined]. *)
Definition getSelectorMetadata (target : fref) (h : Heap) : option sref :=
  lookupMeta (S (size (functions h))) h target.

Definition defaultMetadata : SelectorMetaDataModel :=
  {| makeRootSelector := None;
     originalFn := None;
     containerClass := None;
     selectorName := None;
     getSelectorOptions :=
       fun _ => {| injectContainerState := None; suppressErrors := None |} |}.

Definition alloc (h : Heap) : sref := fresh (dom (records h)).

Definition ensureSelectorMetadata (target : fref) (h : Heap)
  : result (option sref * Heap) :=
  match functions h !! target with
  | None => Throw TypeError
  | Some f =>
      let h' :=
        match own_meta f with
        | None =>
            let m := alloc h in
            {| functions :=
                 <[target := {| own_meta := Some m; proto := proto f |}]>
                   (functions h);
               records := <[m := defaultMetadata]> (records h) |}
        | Some _ => h
        end in
      Ret (getSelectorMetadata target h', h')
  end.

End Selectors.

(** A decorated class and a class that extends it; two classes without
    metadata; a selector function without metadata. *)
Definition classSub : StateClass :=
  {| own_meta := None; proto := Some 1; source := "class Sub extends Cart {}" |}.

Definition heapSub : Heap :=
  {| classes := {[ 1 := stateClass 1 "class Cart {}"; 2 := classSub ]};
     records := {[ 1 := stateMeta "cart" None ]} |}.

Definition heapPair : Heap :=
  {| classes := {[ 1 := classCart; 2 := classSub ]}; records := ∅ |}.

Definition selectorFn : Selectors.FunctionObject :=
  {| Selectors.own_meta := None; Selectors.proto := None |}.

Definition heapSelector : Selectors.Heap :=
  {| Selectors.functions := {[ 1 := selectorFn ]}; Selectors.records := ∅ |}.

(** ** Vocabulary of the closed form of [findFullParentPath] *)

(** The keys from a root down to the first parent of [k], each the first
    parent of the next; [n] bounds the length of the chain. *)
Fixpoint parentChain (n : nat) (g : StateKeyGraph) (k : string) : list string :=
  match n with
  | 0 => []
  | S n' =>
      match firstParent g k with
      | None => []
      | Some p => parentChain n' g p ++ [p]
      end
  end.

(** [p] is the first parent of [x]; a key that is its own ancestor along
    first parents. *)
Definition firstParentOf (g : StateKeyGraph) (x p : string) : Prop :=
  firstParent g x = Some p.

Definition parentCycle (g : StateKeyGraph) : Prop :=
  exists x, tc (firstParentOf g) x x.

Definition noParentCycle (g : StateKeyGraph) : Prop :=
  forall x, ~ tc (firstParentOf g) x x.

(** A cycle between [a] and [b] below the root [r], which is the first
    parent of [a]. *)
Definition rootedCycleGraph : StateKeyGraph :=
  [("r", ["a"]); ("a", ["b"]); ("b", ["a"])].

(** A numbering in which every first parent comes before its child: a
    certificate that no key is its own ancestor along first parents. *)
Definition parentRanked (rk : string -> nat) (g : StateKeyGraph) : bool :=
  forallb (fun e : string * list string =>
             forallb (fun c => match firstParent g c with
                               | Some p => rk p <? rk c
                               | None => true
                               end) e.2) g.

Definition rootedCycleRank (s : string) : nat :=
  if String.eqb s "r" then 0 else if String.eqb s "a" then 1 else 2.

(** The names of the chain joined by dots, down to [k] itself; below a
    root whose name is empty, [k] alone. *)
Definition dottedPath (n : nat) (g : StateKeyGraph) (k : string) : string :=
  if decide (parentChain n g k = [""]) then k
  else String.concat "." (parentChain n g k ++ [k]).

(** A numbering of [emptyRootGraph]. *)
Definition emptyRootRank (s : string) : nat :=
  if String.eqb s "" then 0 else if String.eqb s "a" then 1 else 2.

(** ** Vocabulary of the further statements about [topologicalSort] *)

(** The map without the children named like a property that plain
    objects inherit. *)
Definition ownChildren (graph : StateKeyGraph) : StateKeyGraph :=
  (fun e : string * list string =>
     (e.1, filter (fun c => c ∉ objectPrototypeKeys) e.2)) <$> graph.

(** The names on which [visit] is called raise no error of a cycle by
    being inherited property names: the check of the ancestors is off, or
    none of them is such a name. *)
Definition ownNames (ngDevMode : option bool) (names : list string) : Prop :=
  devChecks ngDevMode = false
  \/ Forall (fun x => x ∉ objectPrototypeKeys) names.

(** A child named [toString], which is no key of the map. *)
Definition inheritedChildGraph : StateKeyGraph :=
  [("a", ["toString"; "b"]); ("b", [])].

(** A child [b] that is no key of the map. *)
Definition danglingGraph : StateKeyGraph := [("a", ["b"])].

Definition danglingRank (s : string) : nat :=
  if String.eqb s "a" then 0 else 1.

(** [sorted] holds keys of the map, and none twice. *)
Definition tidy (graph : StateKeyGraph) (st : SortState) : Prop :=
  NoDup (sorted st) /\ forall x, x ∈ sorted st -> x ∈ keys graph.

(** What a call leaves behind when the check of the ancestors is off. *)
Definition proceeds (graph : StateKeyGraph) (st st' : SortState) : Prop :=
  tidy graph st'
  /\ (forall x, x ∈ sorted st -> x ∈ sorted st')
  /\ visited st ⊆ visited st'.

(** The outcome of [visit] on a map whose children need not be keys: as
    on a closed map, or the [TypeError] of [graph[name].forEach] on a
    name that is no key. *)
Definition visitOutcome (graph : StateKeyGraph) (st : SortState)
    (ancestors : list string) (name : string) (r : result SortState) : Prop :=
  match r with
  | Ret st' => advances graph st st' ancestors /\ (name ∈ sorted st')
  | Throw e => circularError graph e \/ e = TypeError
  end.
(** * Facts about the accessors *)

Section AccessorFacts.

Variable boxGet : value -> string -> value.

Lemma getProp_truthy (v : value) (key : string) :
  truthy v = true -> getProp boxGet v key = Ret (read boxGet v key).
Proof.
  unfold read. destruct v; simpl; intros H; try discriminate; reflexivity.
Qed.

Lemma walk_falsy (segments : list string) (v : value) :
  truthy v = false -> walk boxGet segments v = v.
Proof.
  destruct segments as [|part rest]; simpl; intros H; [reflexivity|].
  now rewrite H.
Qed.

Lemma walk_app (prefix rest : list string) (v : value) :
  walk boxGet (prefix ++ rest) v
  = if truthy (walk boxGet prefix v)
    then walk boxGet rest (walk boxGet prefix v)
    else walk boxGet prefix v.
Proof.
  revert v. induction prefix as [|part prefix IH]; intros v; simpl.
  - destruct (truthy v) eqn:E; [reflexivity|]. now apply walk_falsy.
  - destruct (truthy v) eqn:E; [apply IH|]. now rewrite E.
Qed.

(** The [reduce] of the interpreted accessor computes the walk: once the
    accumulator is falsy the remaining steps hand it on unchanged. *)
Lemma js_and_truthy (l : value) (r : result value) :
  truthy l = true -> js_and l r = r.
Proof. unfold js_and. now intros ->. Qed.

Lemma js_and_falsy (l : value) (r : result value) :
  truthy l = false -> js_and l r = Ret l.
Proof. unfold js_and. now intros ->. Qed.

Lemma reduce_walk (paths : list string) (obj : value) :
  call boxGet (Interpreted paths) obj = Ret (walk boxGet paths obj).
Proof.
  revert obj. induction paths as [|part rest IH]; intros obj; simpl.
  - reflexivity.
  - destruct (truthy obj) eqn:E.
    + rewrite (js_and_truthy _ _ E), (getProp_truthy _ _ E). apply IH.
    + rewrite (js_and_falsy _ _ E). simpl in IH |- *. rewrite IH.
      f_equal. now apply walk_falsy.
Qed.

Lemma call_compliant (paths : list string) (obj : value) :
  call boxGet (compliantPropGetter paths) obj = Ret (walk boxGet paths obj).
Proof. apply reduce_walk. Qed.

(** *** Lexing the generated source *)

Lemma append_cons (x : ascii) (a b : string) :
  String x a +:+ b = String x (a +:+ b).
Proof. reflexivity. Qed.

Lemma append_assoc (a b c : string) : (a +:+ b) +:+ c = a +:+ b +:+ c.
Proof.
  induction a as [|x a IH]; [reflexivity|].
  now rewrite !append_cons, IH.
Qed.

Lemma append_nil_r (a : string) : a +:+ "" = a.
Proof.
  induction a as [|x a IH]; [reflexivity|].
  now rewrite append_cons, IH.
Qed.

Lemma lexes_app (a s1 s2 w1 w2 : string) (t1 t2 : list token) :
  lexes a s1 t1 w1 -> lexes w1 s2 t2 w2 -> lexes a (s1 +:+ s2) (t1 ++ t2) w2.
Proof.
  intros H1 H2 k. rewrite append_assoc, H1, H2.
  destruct (lex_go w2 k); simpl; [|reflexivity].
  now rewrite <- app_assoc.
Qed.

Lemma lexes_ident (w a : string) :
  all_ident w = true -> lexes a w [] (a +:+ w).
Proof.
  revert a. induction w as [|c w IH]; intros a Hw k; simpl in Hw.
  - rewrite append_nil_r. change ("" +:+ k) with k.
    now destruct (lex_go a k).
  - apply andb_prop in Hw as [Hc Hw].
    rewrite append_cons. simpl. rewrite Hc.
    rewrite (IH _ Hw k). now rewrite append_assoc.
Qed.

Lemma flush_word (w : string) (r : option (list token)) :
  identifierName w = true -> flush w r = (TId w ::.) <$> r.
Proof.
  destruct w as [|c w]; simpl; [discriminate|].
  intros H. apply andb_prop in H as [H _].
  now destruct (is_digit c).
Qed.

Lemma lexes_dot (w : string) :
  identifierName w = true -> lexes w "." [TId w; TDot] "".
Proof.
  intros Hw k. change ("." +:+ k) with (String "." k).
  simpl. rewrite (flush_word _ _ Hw).
  now destruct (lex_go "" k).
Qed.

Lemma lexes_and (w : string) :
  identifierName w = true -> lexes w " && " [TId w; TAnd] "".
Proof.
  intros Hw k.
  change (" && " +:+ k) with (String " " (String "&" (String "&" (String " " k)))).
  simpl. rewrite (flush_word _ _ Hw).
  now destruct (lex_go "" k).
Qed.

Lemma identifierName_all (w : string) :
  identifierName w = true -> all_ident w = true.
Proof.
  destruct w; simpl; [discriminate|]. intros H.
  now apply andb_prop in H as [_ H].
Qed.

(** A segment appended after a dot. *)
Lemma lexes_member (seg w s : string) (ts : list token) :
  identifierName w = true -> identifierName s = true ->
  lexes "" seg ts w ->
  lexes "" (seg +:+ "." +:+ s) (ts ++ [TId w; TDot]) s.
Proof.
  intros Hw Hs Hseg.
  apply (lexes_app _ _ _ w s); [exact Hseg|].
  change [TId w; TDot] with ([TId w; TDot] ++ []).
  apply (lexes_app _ _ _ "" s); [now apply lexes_dot|].
  apply (lexes_ident s ""). now apply identifierName_all.
Qed.

Lemma lexes_space (w : string) :
  identifierName w = true -> lexes w " " [TId w] "".
Proof.
  intros Hw k. change (" " +:+ k) with (String " " k).
  simpl. rewrite (flush_word _ _ Hw).
  now destruct (lex_go "" k).
Qed.

Lemma lexes_return : lexes "" "return " [TId "return"] "".
Proof.
  change "return " with ("return" +:+ " ").
  change [TId "return"] with ([] ++ [TId "return"]).
  apply (lexes_app _ _ _ "return" ""); [now apply (lexes_ident "return" "")|].
  now apply lexes_space.
Qed.

Lemma lexes_store_dot : lexes "" "store." [TId "store"; TDot] "".
Proof.
  change "store." with ("store" +:+ ".").
  change [TId "store"; TDot] with ([] ++ [TId "store"; TDot]).
  apply (lexes_app _ _ _ "store" ""); [now apply (lexes_ident "store" "")|].
  now apply lexes_dot.
Qed.

(** [new Function] on [return <expr>;] once [expr] is known to lex. *)
Lemma newFunction_return (param expr w : string) (texpr : list token) :
  identifierName w = true ->
  lexes "" expr texpr w ->
  newFunction param ("return " +:+ expr +:+ ";")
  = Compiled <$> parse_and param PStart None EParam (texpr ++ [TId w; TSemi]).
Proof.
  intros Hw Hexpr. unfold newFunction.
  rewrite (lexes_return (expr +:+ ";")), (Hexpr ";").
  change ";" with (String ";" "") at 1. simpl lex_go.
  rewrite (flush_word _ _ Hw). reflexivity.
Qed.

(** The invariant of the loop of [fastPropGetter]: [seg] is the member
    chain [c.w] over the segments read so far, [expr] the conjunction
    [lhs && c.w] of all its prefixes, and the conjunction evaluates to the
    walk over those segments. *)
Lemma fastLoop_compiles (rest : list string) :
  forall (seg expr w : string) (tseg texpr : list token)
         (done : list string) (lhs : option jsexpr) (c : jsexpr),
    Forall (fun s => identifierName s = true) rest ->
    identifierName w = true ->
    lexes "" seg tseg w ->
    lexes "" expr texpr w ->
    (forall l cur ts,
        parse_and "store" PStart l cur (tseg ++ TId w :: ts)
        = parse_and "store" PName l (EMember c w) ts) ->
    (forall ts,
        parse_and "store" PStart None EParam (texpr ++ TId w :: ts)
        = parse_and "store" PName lhs (EMember c w) ts) ->
    (forall root, truthy root = true ->
        eval boxGet (conj lhs (EMember c w)) root
        = Ret (walk boxGet (done ++ [w]) root)
        /\ (truthy (walk boxGet (done ++ [w]) root) = true ->
            eval boxGet (EMember c w) root
            = Ret (walk boxGet (done ++ [w]) root))) ->
    exists body,
      newFunction "store" ("return " +:+ fastLoop rest seg expr +:+ ";")
      = Some (Compiled body)
      /\ forall root, truthy root = true ->
           eval boxGet body root = Ret (walk boxGet (done ++ w :: rest) root).
Proof.
  induction rest as [|s rest IH];
    intros seg expr w tseg texpr done lhs c Hrest Hw Hseg Hexpr Pseg Pexpr Sem.
  - exists (conj lhs (EMember c w)). split.
    + simpl fastLoop. rewrite (newFunction_return _ _ _ _ Hw Hexpr).
      now rewrite Pexpr.
    + intros root Hroot. now apply Sem.
  - apply Forall_cons in Hrest as [Hs Hrest]. simpl fastLoop.
    assert (Hseg' : lexes "" (seg +:+ "." +:+ s) (tseg ++ [TId w; TDot]) s)
      by now apply lexes_member.
    assert (Pseg' : forall l cur ts,
               parse_and "store" PStart l cur
                 ((tseg ++ [TId w; TDot]) ++ TId s :: ts)
               = parse_and "store" PName l (EMember (EMember c w) s) ts).
    { intros l cur ts. rewrite <- app_assoc. simpl. now rewrite Pseg. }
    destruct (IH (seg +:+ "." +:+ s) (expr +:+ " && " +:+ seg +:+ "." +:+ s) s
                (tseg ++ [TId w; TDot])
                (texpr ++ [TId w; TAnd] ++ tseg ++ [TId w; TDot])
                (done ++ [w]) (Some (conj lhs (EMember c w))) (EMember c w))
      as (body & Hbody & Heval); try assumption.
    + apply (lexes_app _ _ _ w s); [exact Hexpr|].
      apply (lexes_app _ _ _ "" s); [now apply lexes_and | exact Hseg'].
    + intros ts. rewrite <- (app_assoc texpr). simpl. rewrite Pexpr. simpl.
      apply (Pseg' _ EParam).
    + intros root Hroot. destruct (Sem root Hroot) as [Hall Hlast].
      rewrite !(walk_app (done ++ [w]) [s]).
      simpl conj. simpl eval. rewrite Hall. simpl.
      destruct (truthy (walk boxGet (done ++ [w]) root)) eqn:E.
      * rewrite (js_and_truthy _ _ E).
        pose proof (Hlast eq_refl) as Hl. simpl in Hl. rewrite Hl. simpl.
        rewrite (getProp_truthy _ _ E). split; [reflexivity|].
        intros _. reflexivity.
      * rewrite (js_and_falsy _ _ E). split; [reflexivity|].
        intros H. rewrite E in H. discriminate.
    + exists body. split; [exact Hbody|].
      intros root Hroot. rewrite (Heval root Hroot).
      now rewrite <- app_assoc.
Qed.

(** On a non-empty path of identifier names the source compiles, and on
    a truthy root the compiled function computes the walk. *)
Lemma fastPropGetter_walk (paths : list string) :
  paths <> [] ->
  Forall (fun s => identifierName s = true) paths ->
  exists body,
    fastPropGetter paths = Some (Compiled body)
    /\ forall root, truthy root = true ->
         eval boxGet body root = Ret (walk boxGet paths root).
Proof.
  destruct paths as [|p0 rest]; [congruence|]. intros _ Hall.
  apply Forall_cons in Hall as [Hp0 Hrest].
  unfold fastPropGetter. simpl nth. simpl tail.
  assert (Hseg : lexes "" ("store." +:+ p0) [TId "store"; TDot] p0).
  { change [TId "store"; TDot] with ([TId "store"; TDot] ++ []).
    apply (lexes_app _ _ _ "" p0); [apply lexes_store_dot|].
    apply (lexes_ident p0 ""). now apply identifierName_all. }
  apply (fastLoop_compiles rest _ _ p0 [TId "store"; TDot] [TId "store"; TDot]
           [] None EParam); try assumption.
  - intros l cur ts. reflexivity.
  - intros ts. reflexivity.
  - intros root Hroot. simpl. rewrite (getProp_truthy _ _ Hroot), Hroot.
    split; [reflexivity|]. intros _. reflexivity.
Qed.

(** C1 (amended): for every non-empty sequence of identifier-name
    segments the compiled strategy yields a function, and on every truthy
    root it and the interpreted accessor return the same result: the value
    at the end of the path, or the first falsy value met on the way (that
    value itself, which is [undefined] only when the property is absent
    or holds [undefined]). *)
Theorem strategies_agree (paths : list string) :
  paths <> [] ->
  Forall (fun s => identifierName s = true) paths ->
  exists fn,
    fastPropGetter paths = Some fn
    /\ forall root, truthy root = true ->
         call boxGet fn root = call boxGet (compliantPropGetter paths) root
         /\ call boxGet fn root = Ret (walk boxGet paths root).
Proof.
  intros Hne Hids.
  destruct (fastPropGetter_walk paths Hne Hids) as (body & Hfast & Heval).
  exists (Compiled body). split; [exact Hfast|].
  intros root Hroot. rewrite call_compliant. simpl.
  split; now apply Heval.
Qed.

(** C5 (amended): the closure returned by [compliantPropGetter] walks the
    segments one at a time against the root and stops at the first value
    that is falsy, returning that value itself: [undefined] when the
    segment is absent, the falsy value held otherwise. *)
Theorem compliant_walks (paths : list string) (root : value) :
  call boxGet (compliantPropGetter paths) root = Ret (walk boxGet paths root)
  /\ (forall prefix rest,
        paths = prefix ++ rest ->
        truthy (walk boxGet prefix root) = false ->
        call boxGet (compliantPropGetter paths) root
        = Ret (walk boxGet prefix root))
  /\ (forall props part rest,
        root = VObj props -> paths = part :: rest -> props !! part = None ->
        call boxGet (compliantPropGetter paths) root = Ret VUndefined).
Proof.
  split; [apply call_compliant|]. split.
  - intros prefix rest -> Hfalsy.
    now rewrite call_compliant, walk_app, Hfalsy.
  - intros props part rest -> -> Habsent.
    rewrite call_compliant. simpl. unfold read. simpl. rewrite Habsent.
    simpl. f_equal. now apply walk_falsy.
Qed.

(** C10: the closure returned by [compliantPropGetter] returns a value,
    and never throws, on every root; a falsy root is returned unchanged,
    and so is every root when there is no segment. *)
Theorem compliant_total (paths : list string) (root : value) :
  (exists v, call boxGet (compliantPropGetter paths) root = Ret v)
  /\ (truthy root = false ->
      call boxGet (compliantPropGetter paths) root = Ret root)
  /\ call boxGet (compliantPropGetter []) root = Ret root.
Proof.
  split; [|split].
  - exists (walk boxGet paths root). apply call_compliant.
  - intros Hfalsy. rewrite call_compliant. f_equal. now apply walk_falsy.
  - reflexivity.
Qed.

End AccessorFacts.

Lemma fastPropGetter_compiled (paths copy : list string) :
  fastPropGetter paths <> Some (Interpreted copy).
Proof.
  unfold fastPropGetter, newFunction.
  destruct (lex_go _ _) as [[|[kw| | |] ts]|]; try discriminate.
  destruct (String.eqb kw "return"); [|discriminate].
  now destruct (parse_and _ _ _ _ _).
Qed.

(** The path [["a"; "b"]] on [{a: 0}] gives [0] under both strategies,
    not [undefined]; and the strategies part ways on an empty path, on a
    [null] root and on a segment that is no identifier name. *)
Lemma strategies_on_examples :
  compliantGet ["a"; "b"] rootA0 = Ret (VNum 0)
  /\ fastGet ["a"; "b"] rootA0 = Some (Ret (VNum 0))
  /\ VNum 0 <> VUndefined
  /\ compliantGet [] rootA0 = Ret rootA0
  /\ fastGet [] rootA0 = Some (Ret VUndefined)
  /\ compliantGet ["a"] VNull = Ret VNull
  /\ fastGet ["a"] VNull = Some (Throw TypeError)
  /\ compliantGet ["a.b"] rootDotted = Ret (VNum 1)
  /\ fastGet ["a.b"] rootDotted = Some (Ret (VNum 2)).
Proof.
  repeat split; try (vm_compute; reflexivity). discriminate.
Qed.

Lemma strategies_agree_witness :
  ["a"; "b"] <> []
  /\ Forall (fun s => identifierName s = true) ["a"; "b"]
  /\ truthy rootA0 = true
  /\ exists fn,
      fastPropGetter ["a"; "b"] = Some fn
      /\ call noBox fn rootA0
         = call noBox (compliantPropGetter ["a"; "b"]) rootA0
      /\ call noBox fn rootA0 = Ret (VNum 0).
Proof.
  assert (Hne : ["a"; "b"] <> []) by discriminate.
  assert (Hids : Forall (fun s => identifierName s = true) ["a"; "b"])
    by (repeat constructor).
  split; [exact Hne|]. split; [exact Hids|]. split; [reflexivity|].
  destruct (strategies_agree noBox ["a"; "b"] Hne Hids) as (fn & Hfn & Hcall).
  exists fn. split; [exact Hfn|].
  destruct (Hcall rootA0 eq_refl) as [Hsame Hwalk].
  split; [exact Hsame|]. rewrite Hwalk. vm_compute. reflexivity.
Defined.

(** On [{a: 0}] the walk over [["a"; "b"]] stops at [0] and returns it,
    where the walk that returns [undefined] at a stop gives [undefined]. *)
Lemma compliant_returns_falsy_value :
  compliantGet ["a"; "b"] rootA0 = Ret (VNum 0)
  /\ walkUndefined noBox ["a"; "b"] rootA0 = VUndefined
  /\ compliantGet ["a"; "b"] rootA0
     <> Ret (walkUndefined noBox ["a"; "b"] rootA0).
Proof.
  repeat split; try (vm_compute; reflexivity).
  vm_compute. discriminate.
Qed.

Lemma compliant_walks_witness :
  call noBox (compliantPropGetter ["a"; "b"]) rootA0 = Ret (VNum 0)
  /\ call noBox (compliantPropGetter ["x"; "y"]) rootA0 = Ret VUndefined.
Proof.
  destruct (compliant_walks noBox ["a"; "b"] rootA0) as (_ & Hstop & _).
  destruct (compliant_walks noBox ["x"; "y"] rootA0) as (_ & _ & Habsent).
  split.
  - apply (Hstop ["a"] ["b"]); reflexivity.
  - apply (Habsent {[ "a" := VNum 0 ]} "x" ["y"]); reflexivity.
Defined.

Lemma compliant_total_witness :
  call noBox (compliantPropGetter ["a"; "b"]) VNull = Ret VNull
  /\ call noBox (compliantPropGetter ["a"; "b"]) (VNum 0) = Ret (VNum 0)
  /\ call noBox (compliantPropGetter ["a"; "b"]) VUndefined = Ret VUndefined.
Proof.
  destruct (compliant_total noBox ["a"; "b"] VNull) as (_ & Hnull & _).
  destruct (compliant_total noBox ["a"; "b"] (VNum 0)) as (_ & Hzero & _).
  destruct (compliant_total noBox ["a"; "b"] VUndefined) as (_ & Hundef & _).
  split; [|split].
  - exact (Hnull eq_refl).
  - exact (Hzero eq_refl).
  - exact (Hundef eq_refl).
Defined.

(** * Facts about the metadata store *)

Lemma lookupMeta_classes (depth : nat) (h h' : Heap) (target : cref) :
  classes h = classes h' -> lookupMeta depth h target = lookupMeta depth h' target.
Proof.
  intros Heq. revert target. induction depth as [|depth IH]; intros target.
  - reflexivity.
  - simpl. rewrite Heq. destruct (classes h' !! target) as [c|]; [|reflexivity].
    destruct (own_meta c); [reflexivity|]. destruct (proto c); [apply IH|reflexivity].
Qed.

Lemma getStoreMetadata_own (target : cref) (c : StateClass) (m : mref) (h : Heap) :
  classes h !! target = Some c -> own_meta c = Some m ->
  getStoreMetadata target h = Some m.
Proof.
  intros Hc Hm. unfold getStoreMetadata. simpl. now rewrite Hc, Hm.
Qed.

Lemma ensureStoreMetadata_own (target : cref) (c : StateClass) (m : mref) (h : Heap) :
  classes h !! target = Some c -> own_meta c = Some m ->
  ensureStoreMetadata target h = Ret (Some m, h).
Proof.
  intros Hc Hm. unfold ensureStoreMetadata. rewrite Hc, Hm.
  now rewrite (getStoreMetadata_own _ _ _ _ Hc Hm).
Qed.

Lemma alloc_fresh (h : Heap) : records h !! alloc h = None.
Proof. apply not_elem_of_dom. unfold alloc. apply is_fresh. Qed.

(** C7: [ensureStoreMetadata] gives the same record on a second call and
    leaves the heap as the first call left it; the first call makes a
    record, with the default fields, only when the class has none of its
    own; and a path written into the record is what later calls read. *)
Theorem ensureStoreMetadata_idempotent (target : cref) (c : StateClass) (h : Heap) :
  classes h !! target = Some c ->
  exists m h1,
    ensureStoreMetadata target h = Ret (Some m, h1)
    /\ ensureStoreMetadata target h1 = Ret (Some m, h1)
    /\ (own_meta c = None ->
        records h !! m = None
        /\ (exists r, records h1 !! m = Some r
                      /\ name r = None /\ actions r = ∅ /\ defaults r = VObj ∅
                      /\ path r = None /\ children r = Some [])
        /\ forall m', m' <> m -> records h1 !! m' = records h !! m')
    /\ (forall m0, own_meta c = Some m0 -> m = m0 /\ h1 = h)
    /\ forall p,
        ensureStoreMetadata target (setPath m p h1)
        = Ret (Some m, setPath m p h1)
        /\ getStoreMetadata target (setPath m p h1) = Some m
        /\ (is_Some (records h1 !! m) ->
            readPath m (setPath m p h1) = Some p).
Proof.
  intros Hc.
  assert (Hwrite : forall m h1 c1,
             classes h1 !! target = Some c1 -> own_meta c1 = Some m ->
             forall p,
               ensureStoreMetadata target (setPath m p h1)
               = Ret (Some m, setPath m p h1)
               /\ getStoreMetadata target (setPath m p h1) = Some m
               /\ (is_Some (records h1 !! m) ->
                   readPath m (setPath m p h1) = Some p)).
  { intros m h1 c1 Hc1 Hm p. split; [|split].
    - now apply (ensureStoreMetadata_own _ c1).
    - now apply (getStoreMetadata_own _ c1).
    - intros [r Hr]. unfold readPath, setPath. simpl.
      rewrite lookup_alter_eq, Hr. reflexivity. }
  destruct (own_meta c) as [m0|] eqn:Hown.
  - exists m0, h. rewrite (ensureStoreMetadata_own _ _ _ _ Hc Hown).
    split; [reflexivity|]. split; [reflexivity|]. split; [discriminate|].
    split; [intros ? [= <-]; now split|].
    now apply (Hwrite m0 h c).
  - set (m := alloc h).
    set (h1 := defineMeta target c m
                 {| classes := classes h;
                    records := <[m := defaultMetadata m]> (records h) |}).
    assert (Hc1 : classes h1 !! target
                  = Some {| own_meta := Some m; proto := proto c;
                            source := source c |})
      by apply lookup_insert_eq.
    exists m, h1.
    assert (Hfirst : ensureStoreMetadata target h = Ret (Some m, h1)).
    { unfold ensureStoreMetadata. rewrite Hc, Hown. fold m. fold h1.
      now rewrite (getStoreMetadata_own _ _ m _ Hc1). }
    split; [exact Hfirst|].
    split; [now apply (ensureStoreMetadata_own _ _ m _ Hc1)|].
    split.
    { intros _. split; [apply alloc_fresh|]. split.
      - exists (defaultMetadata m). split; [apply lookup_insert_eq|].
        now repeat split.
      - intros m' Hm'. simpl. now rewrite lookup_insert_ne. }
    split; [discriminate|].
    now apply (Hwrite m h1 _ Hc1).
Qed.

Lemma ensureStoreMetadata_idempotent_witness :
  exists m h1,
    ensureStoreMetadata 1 heapCart = Ret (Some m, h1)
    /\ ensureStoreMetadata 1 h1 = Ret (Some m, h1)
    /\ readPath m (setPath m "cart" h1) = Some "cart".
Proof.
  destruct (ensureStoreMetadata_idempotent 1 classCart heapCart eq_refl)
    as (m & h1 & Hfirst & Hsecond & Hfresh & _ & Hwrite).
  exists m, h1. split; [exact Hfirst|]. split; [exact Hsecond|].
  destruct (Hfresh eq_refl) as (_ & (r & Hr & _) & _).
  apply (Hwrite "cart"). now exists r.
Defined.

(** * Facts about [buildGraph] *)

Section BuildGraphFacts.

Variable ngDevMode : option bool.
Variable h : Heap.
Variable stateClasses : list cref.

(** Every module of the list carries metadata. *)
Hypothesis registered :
  forall g, g ∈ stateClasses -> is_Some (metaOf h g).

Lemma find_listed (child : cref) :
  child ∈ stateClasses ->
  find (fun g => Nat.eqb g child) stateClasses = Some child.
Proof.
  clear registered. induction stateClasses as [|g l IH]; intros Hin.
  - now apply elem_of_nil in Hin.
  - simpl. destruct (Nat.eqb_spec g child) as [Heq|Hne]; [now rewrite Heq|].
    apply elem_of_cons in Hin as [Heq|Hin]; [congruence|]. now apply IH.
Qed.

Lemma find_unlisted (child : cref) :
  child ∉ stateClasses ->
  find (fun g => Nat.eqb g child) stateClasses = None.
Proof.
  clear registered. induction stateClasses as [|g l IH]; intros Hnot.
  - reflexivity.
  - simpl. apply not_elem_of_cons in Hnot as [Hne Hnot].
    destruct (Nat.eqb_spec g child) as [Heq|_]; [congruence|]. now apply IH.
Qed.

Lemma findName_listed (child : cref) :
  child ∈ stateClasses ->
  exists n, findName ngDevMode h stateClasses child = Ret n.
Proof.
  intros Hin. unfold findName. rewrite (find_listed _ Hin).
  destruct (registered _ Hin) as [md Hmd]. rewrite Hmd.
  rewrite bool_decide_eq_true_2 by eauto.
  rewrite andb_false_r. now exists (name md).
Qed.

Lemma findName_unlisted (child : cref) :
  child ∉ stateClasses ->
  findName ngDevMode h stateClasses child
  = Throw (missingChildError ngDevMode h child).
Proof.
  intros Hnot. unfold findName, missingChildError.
  rewrite (find_unlisted _ Hnot).
  rewrite bool_decide_eq_false_2 by (intros [? ?]; discriminate).
  now destruct (devChecks ngDevMode).
Qed.

(** [children.map(findName)] stops at the first child that is not
    listed. *)
Lemma mapE_findName (kids : list cref) :
  (Forall (fun c => c ∈ stateClasses) kids
   /\ exists names, mapE (findName ngDevMode h stateClasses) kids = Ret names)
  \/ (exists child,
         (child ∈ kids) /\ (child ∉ stateClasses)
         /\ mapE (findName ngDevMode h stateClasses) kids
            = Throw (missingChildError ngDevMode h child)).
Proof.
  induction kids as [|c kids IH].
  - left. split; [constructor|]. now exists [].
  - destruct (decide (c ∈ stateClasses)) as [Hin|Hnot].
    + destruct (findName_listed _ Hin) as [n Hn].
      destruct IH as [[Hall [names Hnames]]|(child & Hc & Hnot & Hthrow)].
      * left. split; [now constructor|].
        exists (n :: names). simpl. now rewrite Hn, Hnames.
      * right. exists child. split; [now apply elem_of_cons; right|].
        split; [exact Hnot|]. simpl. now rewrite Hn, Hthrow.
    + right. exists c. split; [now apply elem_of_cons; left|].
      split; [exact Hnot|]. simpl. now rewrite (findName_unlisted _ Hnot).
Qed.

Lemma buildGraph_loop (l : list cref) :
  forall result,
    (forall g, g ∈ l -> g ∈ stateClasses) ->
    (exists parent md child,
        parent ∈ l /\ metaOf h parent = Some md
        /\ child ∈ default [] (children md) /\ child ∉ stateClasses) ->
    exists child,
      missingChild h stateClasses child
      /\ reduce
           (fun result stateClass =>
              match metaOf h stateClass with
              | None => Throw TypeError
              | Some md =>
                  names ← mapE (findName ngDevMode h stateClasses)
                            (default [] (children md));
                  Ret (obj_set result (propertyKey (name md)) names)
              end) l result
         = Throw (missingChildError ngDevMode h child).
Proof.
  induction l as [|g l IH]; intros result Hsub Hmiss.
  - destruct Hmiss as (parent & _ & _ & Hin & _).
    now apply elem_of_nil in Hin.
  - assert (Hg : g ∈ stateClasses) by (apply Hsub; now left).
    destruct (registered _ Hg) as [md Hmd]. simpl. rewrite Hmd.
    destruct (mapE_findName (default [] (children md)))
      as [[Hall [names Hnames]]|(child & Hc & Hnot & Hthrow)].
    + rewrite Hnames. simpl.
      apply IH.
      * intros g' Hg'. apply Hsub. now right.
      * destruct Hmiss as (parent & md' & child & Hin & Hmd' & Hc & Hnot).
        apply elem_of_cons in Hin as [->|Hin].
        -- rewrite Hmd in Hmd'. injection Hmd' as <-.
           rewrite Forall_forall in Hall. now apply Hall in Hc.
        -- now exists parent, md', child.
    + rewrite Hthrow. exists child. split; [|reflexivity].
      split; [exact Hnot|]. now exists g, md.
Qed.

(** C3 (amended): when every module of the list carries metadata and one
    of them declares a child that is not in the list, [buildGraph] throws
    and returns no graph.  Under the development checks ([ngDevMode]
    undefined or truthy) the error is the descriptive one, whose message
    holds the text of a missing child; with [ngDevMode] falsy it is the
    [TypeError] of reading the metadata of [undefined]. *)
Theorem buildGraph_missing_child (parent child : cref) (md : MetaDataModel) :
  parent ∈ stateClasses ->
  metaOf h parent = Some md ->
  child ∈ default [] (children md) ->
  child ∉ stateClasses ->
  exists missing,
    missingChild h stateClasses missing
    /\ buildGraph ngDevMode h stateClasses
       = Throw (if devChecks ngDevMode
                then Error ("Child state not found: "
                            +:+ classToString h missing +:+ ". "
                            +:+ String "013" (String "010" "")
                            +:+ "You may have forgotten to add states to module")
                else TypeError).
Proof.
  intros Hparent Hmd Hchild Hnot.
  destruct (buildGraph_loop stateClasses [] (fun g Hg => Hg))
    as (missing & Hmissing & Hthrow).
  { now exists parent, md, child. }
  exists missing. split; [exact Hmissing|].
  unfold buildGraph. rewrite Hthrow. reflexivity.
Qed.

End BuildGraphFacts.

(** With [ngDevMode] false, a list whose module declares an unlisted
    child fails with a [TypeError], not with the descriptive error. *)
Lemma buildGraph_production_error :
  buildGraph (Some false) heapStates [1; 2] = Throw TypeError
  /\ buildGraph None heapStates [1; 2]
     = Throw (Error (childNotFoundMessage heapStates 3))
  /\ 3 ∈ default [] (children (stateMeta "saved" (Some [3])))
  /\ metaOf heapStates 2 = Some (stateMeta "saved" (Some [3])).
Proof.
  repeat split; try (vm_compute; reflexivity).
  apply list_elem_of_In. now left.
Qed.

Lemma buildGraph_missing_child_witness :
  exists missing,
    missingChild heapStates [1; 2] missing
    /\ buildGraph None heapStates [1; 2]
       = Throw (Error ("Child state not found: "
                       +:+ classToString heapStates missing +:+ ". "
                       +:+ String "013" (String "010" "")
                       +:+ "You may have forgotten to add states to module")).
Proof.
  apply (buildGraph_missing_child None heapStates [1; 2]) with
    (parent := 2) (child := 3) (md := stateMeta "saved" (Some [3])).
  - intros g Hg. apply list_elem_of_In in Hg.
    destruct Hg as [<-|[<-|[]]]; vm_compute; eauto.
  - apply list_elem_of_In. right. now left.
  - vm_compute. reflexivity.
  - apply list_elem_of_In. now left.
  - intros Hin. apply list_elem_of_In in Hin.
    destruct Hin as [H|[H|[]]]; discriminate.
Defined.

(** * Facts about plain objects *)

Lemma obj_get_elem {A : Type} (o : PlainObjectOf A) (k : string) (v : A) :
  obj_get o k = Some v -> (k, v) ∈ o.
Proof.
  induction o as [|[k' v'] o IH]; simpl; [discriminate|].
  destruct (String.eqb_spec k' k) as [->|Hne].
  - intros [= ->]. now left.
  - intros H. right. now apply IH.
Qed.

Lemma obj_get_key {A : Type} (o : PlainObjectOf A) (k : string) (v : A) :
  obj_get o k = Some v -> k ∈ keys o.
Proof.
  intros H. apply obj_get_elem in H. unfold keys.
  apply list_elem_of_fmap. now exists (k, v).
Qed.

Lemma obj_get_is_Some {A : Type} (o : PlainObjectOf A) (k : string) :
  k ∈ keys o -> is_Some (obj_get o k).
Proof.
  induction o as [|[k' v'] o IH]; simpl; intros Hin.
  - now apply elem_of_nil in Hin.
  - destruct (String.eqb_spec k' k) as [->|Hne]; [eauto|].
    apply elem_of_cons in Hin as [Heq|Hin]; [simpl in Heq; congruence|].
    now apply IH.
Qed.

Lemma obj_get_NoDup {A : Type} (o : PlainObjectOf A) (k : string) (v : A) :
  NoDup (keys o) -> (k, v) ∈ o -> obj_get o k = Some v.
Proof.
  induction o as [|[k' v'] o IH]; simpl; intros Hnd Hin.
  - now apply elem_of_nil in Hin.
  - apply NoDup_cons in Hnd as [Hk' Hnd].
    apply elem_of_cons in Hin as [[= -> ->]|Hin].
    + now rewrite String.eqb_refl.
    + destruct (String.eqb_spec k' k) as [->|Hne]; [|now apply IH].
      exfalso. apply Hk'. apply list_elem_of_fmap. now exists (k, v).
Qed.

Lemma obj_replace_same {A : Type} (o : PlainObjectOf A) (key : string) (v : A) :
  key ∈ keys o -> obj_get (obj_replace o key v) key = Some v.
Proof.
  induction o as [|[k w] o IH]; simpl; intros Hin.
  - now apply elem_of_nil in Hin.
  - destruct (String.eqb_spec k key) as [->|Hne]; simpl.
    + now rewrite String.eqb_refl.
    + apply String.eqb_neq in Hne as Hb. rewrite Hb.
      apply elem_of_cons in Hin as [Heq|Hin]; [simpl in Heq; congruence|].
      now apply IH.
Qed.

Lemma obj_replace_other {A : Type} (o : PlainObjectOf A) (key k' : string) (v : A) :
  k' <> key -> obj_get (obj_replace o key v) k' = obj_get o k'.
Proof.
  intros Hne. induction o as [|[k w] o IH]; simpl; [reflexivity|].
  destruct (String.eqb_spec k key) as [->|Hk]; simpl.
  - apply not_eq_sym, String.eqb_neq in Hne as Hb. now rewrite Hb.
  - now rewrite IH.
Qed.

Lemma obj_insert_index_same {A : Type} (o : PlainObjectOf A) (i : N) (key : string) (v : A) :
  key ∉ keys o -> obj_get (obj_insert_index o i key v) key = Some v.
Proof.
  induction o as [|[k w] o IH]; simpl; intros Hnot.
  - now rewrite String.eqb_refl.
  - apply not_elem_of_cons in Hnot as [Hne Hnot]. simpl in Hne.
    destruct (array_index k) as [j|]; [destruct (j <? i)%N|]; simpl;
      rewrite ?String.eqb_refl; try reflexivity.
    apply not_eq_sym, String.eqb_neq in Hne as Hb. rewrite Hb. now apply IH.
Qed.

Lemma obj_insert_index_other {A : Type} (o : PlainObjectOf A) (i : N) (key k' : string) (v : A) :
  k' <> key -> obj_get (obj_insert_index o i key v) k' = obj_get o k'.
Proof.
  intros Hne. apply not_eq_sym, String.eqb_neq in Hne as Hb.
  induction o as [|[k w] o IH]; simpl; [now rewrite Hb|].
  destruct (array_index k) as [j|]; [destruct (j <? i)%N|]; simpl;
    rewrite ?Hb; try reflexivity.
  now rewrite IH.
Qed.

Lemma obj_append_same {A : Type} (o : PlainObjectOf A) (key : string) (v : A) :
  key ∉ keys o -> obj_get (o ++ [(key, v)]) key = Some v.
Proof.
  induction o as [|[k w] o IH]; simpl; intros Hnot.
  - now rewrite String.eqb_refl.
  - apply not_elem_of_cons in Hnot as [Hne Hnot]. simpl in Hne.
    apply not_eq_sym, String.eqb_neq in Hne as Hb. rewrite Hb. now apply IH.
Qed.

Lemma obj_append_other {A : Type} (o : PlainObjectOf A) (key k' : string) (v : A) :
  k' <> key -> obj_get (o ++ [(key, v)]) k' = obj_get o k'.
Proof.
  intros Hne. apply not_eq_sym, String.eqb_neq in Hne as Hb.
  induction o as [|[k w] o IH]; simpl; [now rewrite Hb|].
  now rewrite IH.
Qed.

(** Reading back what [o[key] = v] wrote. *)
Lemma obj_set_same {A : Type} (o : PlainObjectOf A) (key : string) (v : A) :
  key <> "__proto__" -> obj_get (obj_set o key v) key = Some v.
Proof.
  intros Hne. unfold obj_set. apply String.eqb_neq in Hne as ->.
  case_bool_decide as Hin.
  - now apply obj_replace_same.
  - destruct (array_index key).
    + now apply obj_insert_index_same.
    + now apply obj_append_same.
Qed.

Lemma obj_set_other {A : Type} (o : PlainObjectOf A) (key k' : string) (v : A) :
  k' <> key -> obj_get (obj_set o key v) k' = obj_get o k'.
Proof.
  intros Hne. unfold obj_set. destruct (String.eqb key "__proto__"); [reflexivity|].
  case_bool_decide as Hin.
  - now apply obj_replace_other.
  - destruct (array_index key).
    + now apply obj_insert_index_other.
    + now apply obj_append_other.
Qed.

Lemma indexOf_from_spec (l : list string) (x : string) (i : Z) :
  (0 <= i)%Z ->
  (x ∈ l -> (i <= indexOf_from l x i)%Z)
  /\ (x ∉ l -> indexOf_from l x i = (-1)%Z).
Proof.
  revert i. induction l as [|y l IH]; intros i Hi; simpl.
  - split; [intros H; now apply elem_of_nil in H|reflexivity].
  - destruct (String.eqb_spec y x) as [->|Hne].
    + split; [lia|]. intros H. exfalso. apply H. now left.
    + destruct (IH (i + 1)%Z ltac:(lia)) as [Hin Hnot]. split.
      * intros H. apply elem_of_cons in H as [->|H]; [congruence|].
        specialize (Hin H). lia.
      * intros H. apply not_elem_of_cons in H as [_ H]. now apply Hnot.
Qed.

(** [l.indexOf(x) >= 0] tests membership. *)
Lemma indexOf_nonneg (l : list string) (x : string) :
  (0 <=? indexOf l x)%Z = bool_decide (x ∈ l).
Proof.
  unfold indexOf. destruct (indexOf_from_spec l x 0 ltac:(lia)) as [Hin Hnot].
  case_bool_decide as H.
  - apply Z.leb_le. now apply Hin.
  - rewrite (Hnot H). reflexivity.
Qed.

Lemma indexOf_negative (l : list string) (x : string) :
  (indexOf l x <? 0)%Z = bool_decide (x ∉ l).
Proof.
  unfold indexOf. destruct (indexOf_from_spec l x 0 ltac:(lia)) as [Hin Hnot].
  case_bool_decide as H.
  - rewrite (Hnot H). reflexivity.
  - apply Z.ltb_ge. apply Hin. now destruct (decide (x ∈ l)).
Qed.

(** * Facts about [findFullParentPath] *)

Section PathFacts.

Variable g : StateKeyGraph.
Hypothesis distinct : NoDup (keys g).
Hypothesis plain : plainKeys g.

Lemma hasOwnProperty_plain (key : string) :
  hasOwnProperty g key = Ret (bool_decide (key ∈ keys g)).
Proof.
  unfold hasOwnProperty. rewrite bool_decide_eq_false_2; [reflexivity|].
  apply plain.
Qed.

Lemma firstParent_edge (k p : string) :
  firstParent g k = Some p -> p ∈ keys g /\ edge g p k.
Proof.
  unfold firstParent. destruct (find _ g) as [[p' kids]|] eqn:Hfind; [|discriminate].
  intros [= <-]. apply find_some in Hfind as [Hin Hk].
  apply list_elem_of_In in Hin. apply bool_decide_eq_true in Hk. simpl in Hk.
  split.
  - apply list_elem_of_fmap. now exists (p', kids).
  - exists kids. split; [now apply obj_get_NoDup|exact Hk].
Qed.

Lemma forIn_scan (n : nat) (k : string) (l : StateKeyGraph) :
  (forall e, e ∈ l -> e ∈ g) ->
  forIn_return l (fun key =>
    own ← hasOwnProperty g key;
    match obj_get g key with
    | None => if own then Throw TypeError else Ret None
    | Some kids =>
        if own && (0 <=? indexOf kids k)%Z then
          parent ← visitParent n g key;
          Ret (Some (match parent with
                     | Some p => p +:+ "." +:+ key
                     | None => key
                     end))
        else Ret None
    end)
  = match find (fun e : string * list string => bool_decide (k ∈ e.2)) l with
    | None => Ret None
    | Some e => parent ← visitParent n g e.1; Ret (Some (joined parent e.1))
    end.
Proof.
  induction l as [|[key kids] l IH]; intros Hsub; [reflexivity|].
  simpl forIn_return. simpl find.
  assert (Hin : (key, kids) ∈ g) by (apply Hsub; now left).
  assert (Hkey : key ∈ keys g)
    by (apply list_elem_of_fmap; now exists (key, kids)).
  rewrite hasOwnProperty_plain, (bool_decide_eq_true_2 _ Hkey).
  simpl. rewrite (obj_get_NoDup _ _ _ distinct Hin). simpl.
  rewrite indexOf_nonneg.
  destruct (bool_decide (k ∈ kids)); simpl.
  - now destruct (visitParent n g key).
  - apply IH. intros e He. apply Hsub. now right.
Qed.

(** One call of the inner [visit]: the loop stops at the first key whose
    child list holds [k] and recurses on that key. *)
Lemma visitParent_step (n : nat) (k : string) :
  visitParent (S n) g k
  = match firstParent g k with
    | None => Ret None
    | Some p => parent ← visitParent n g p; Ret (Some (joined parent p))
    end.
Proof.
  simpl. rewrite forIn_scan by auto. unfold firstParent.
  now destruct (find _ g).
Qed.

Lemma visitParent_mono (n : nat) (k : string) (r : option string) :
  visitParent n g k = Ret r -> visitParent (S n) g k = Ret r.
Proof.
  revert k r. induction n as [|n IH]; intros k r; [discriminate|].
  rewrite !visitParent_step. destruct (firstParent g k) as [p|]; [|done].
  destruct (visitParent n g p) as [rp|e] eqn:Hp; [|discriminate].
  now rewrite (IH _ _ Hp).
Qed.

Lemma visitParent_mono_le (n m : nat) (k : string) (r : option string) :
  n <= m -> visitParent n g k = Ret r -> visitParent m g k = Ret r.
Proof.
  induction 1 as [|m Hle IH]; [done|]. intros H. now apply visitParent_mono, IH.
Qed.

(** Without a cycle the walk towards the root meets no key twice, so it
    ends within as many calls as there are keys. *)
Lemma visitParent_returns (n : nat) :
  acyclic g ->
  forall (k : string) (seen : list string),
    NoDup seen ->
    (forall x, x ∈ seen -> x ∈ keys g) ->
    (forall x, x ∈ seen -> rtc (edge g) k x) ->
    length (keys g) < n + length seen ->
    exists r, visitParent n g k = Ret r.
Proof.
  intros Hacyc. induction n as [|n IH]; intros k seen Hnd Hkeys Hreach Hlen.
  - exfalso. apply NoDup_submseteq in Hkeys; [|exact Hnd].
    apply submseteq_length in Hkeys. simpl in Hlen. lia.
  - rewrite visitParent_step.
    destruct (firstParent g k) as [p|] eqn:Hp; [|now exists None].
    apply firstParent_edge in Hp as [Hpkey Hedge].
    assert (Hfresh : p ∉ seen).
    { intros Hin. apply (Hacyc p).
      eapply tc_rtc_r; [|apply (Hreach _ Hin)]. now apply tc_once. }
    destruct (IH p (p :: seen)) as [rp Hrp].
    + now constructor.
    + intros x Hx. apply elem_of_cons in Hx as [->|Hx]; auto.
    + intros x Hx. apply elem_of_cons in Hx as [->|Hx]; [reflexivity|].
      eapply rtc_l; [exact Hedge|now apply Hreach].
    + simpl. lia.
    + rewrite Hrp. now eexists.
Qed.

Lemma visitParent_total (stack : nat) (k : string) :
  acyclic g -> length g < stack -> exists r, visitParent stack g k = Ret r.
Proof.
  intros Hacyc Hlen. apply (visitParent_returns stack Hacyc k []).
  - constructor.
  - intros x Hx. now apply elem_of_nil in Hx.
  - intros x Hx. now apply elem_of_nil in Hx.
  - simpl. unfold keys. rewrite length_fmap. lia.
Qed.

Lemma joined_nonEmpty (r : option string) (p : string) :
  p <> "" -> nonEmpty (joined r p) = true.
Proof.
  intros Hp. unfold nonEmpty, joined. apply negb_true_iff, String.eqb_neq.
  destruct r as [[|c s]|]; [discriminate|discriminate|exact Hp].
Qed.

Lemma firstParent_joined (stack : nat) (k p : string) (r : option string) :
  firstParent g k = Some p ->
  visitParent stack g k = Ret r ->
  exists rp, visitParent stack g p = Ret rp /\ r = Some (joined rp p).
Proof.
  destruct stack as [|n]; [discriminate|]. intros Hp.
  rewrite visitParent_step, Hp.
  destruct (visitParent n g p) as [rp|e] eqn:Hrp; [|discriminate].
  intros [= <-]. exists rp. split; [now apply visitParent_mono|reflexivity].
Qed.

Lemma firstParent_none (stack : nat) (k : string) (r : option string) :
  firstParent g k = None -> visitParent stack g k = Ret r -> r = None.
Proof.
  destruct stack as [|n]; [discriminate|]. intros Hp.
  rewrite visitParent_step, Hp. now intros [= <-].
Qed.

(** The outer loop writes, for each key, the path made of what the inner
    [visit] returned. *)
Lemma findFullParentPath_loop (stack : nat) (l : list string) :
  (forall k, k ∈ keys g -> exists r, visitParent stack g k = Ret r) ->
  (forall k, k ∈ l -> k ∈ keys g) ->
  forall newObj : PlainObjectOf string,
  exists paths,
    reduce
      (fun (newObj : PlainObjectOf string) (key : string) =>
         own ← hasOwnProperty g key;
         if own : bool then
           parent ← visitParent stack g key;
           Ret (obj_set newObj key
                  (match parent with
                   | Some p => if nonEmpty p then p +:+ "." +:+ key else key
                   | None => key
                   end))
         else Ret newObj)
      l newObj = Ret paths
    /\ (forall k, k ∈ l ->
         exists r, visitParent stack g k = Ret r
                   /\ obj_get paths k
                      = Some (match r with
                              | Some p => if nonEmpty p then p +:+ "." +:+ k else k
                              | None => k
                              end))
    /\ (forall k, k ∉ l -> obj_get paths k = obj_get newObj k).
Proof.
  intros Htot. induction l as [|key l IH]; intros Hsub newObj.
  - exists newObj. split; [reflexivity|]. split; [|reflexivity].
    intros k Hk. now apply elem_of_nil in Hk.
  - assert (Hkey : key ∈ keys g) by (apply Hsub; now left).
    destruct (Htot _ Hkey) as [r Hr]. simpl reduce.
    rewrite hasOwnProperty_plain, (bool_decide_eq_true_2 _ Hkey). simpl.
    rewrite Hr. simpl.
    set (v := match r with
              | Some p => if nonEmpty p then p +:+ "." +:+ key else key
              | None => key
              end).
    destruct (IH (fun k Hk => Hsub k (list_elem_of_further _ _ _ Hk))
                 (obj_set newObj key v)) as (paths & Hred & Hin & Hout).
    exists paths. split; [exact Hred|]. split.
    + intros k Hk. destruct (decide (k ∈ l)) as [Hl|Hl]; [now apply Hin|].
      apply elem_of_cons in Hk as [->|Hk]; [|contradiction].
      exists r. split; [exact Hr|]. rewrite (Hout _ Hl).
      apply obj_set_same. intros ->. now apply (proj2 plain).
    + intros k Hk. apply not_elem_of_cons in Hk as [Hne Hk].
      rewrite (Hout _ Hk). now apply obj_set_other.
Qed.

(** What [findFullParentPath] returns on a map without a cycle. *)
Lemma findFullParentPath_spec (stack : nat) :
  acyclic g -> "" ∉ keys g -> length g < stack ->
  exists paths,
    findFullParentPath stack g [] = Ret paths
    /\ (forall k, k ∈ keys paths <-> k ∈ keys g)
    /\ forall k, k ∈ keys g ->
         match firstParent g k with
         | None => obj_get paths k = Some k
         | Some p =>
             exists pp, obj_get paths p = Some pp
                        /\ obj_get paths k = Some (pp +:+ "." +:+ k)
         end.
Proof.
  intros Hacyc Hempty Hlen.
  destruct (findFullParentPath_loop stack (keys g)
              (fun k _ => visitParent_total stack k Hacyc Hlen)
              (fun k Hk => Hk) []) as (paths & Hred & Hin & Hout).
  exists paths. split; [exact Hred|]. split.
  - intros k. split.
    + intros Hk. destruct (decide (k ∈ keys g)) as [|Hnot]; [done|].
      apply obj_get_is_Some in Hk as [v Hv].
      rewrite (Hout _ Hnot) in Hv. discriminate.
    + intros Hk. destruct (Hin _ Hk) as (r & _ & Hget).
      now apply obj_get_key in Hget.
  - intros k Hk. destruct (Hin _ Hk) as (r & Hr & Hget).
    destruct (firstParent g k) as [p|] eqn:Hp.
    + destruct (firstParent_joined _ _ _ _ Hp Hr) as (rp & Hrp & ->).
      destruct (firstParent_edge _ _ Hp) as [Hpkey _].
      assert (Hpne : p <> "") by (intros ->; contradiction).
      rewrite (joined_nonEmpty _ _ Hpne) in Hget.
      exists (joined rp p). split; [|exact Hget].
      destruct (Hin _ Hpkey) as (rp' & Hrp' & Hgetp).
      rewrite Hrp in Hrp'. injection Hrp' as <-. rewrite Hgetp. f_equal.
      destruct rp as [s|]; [|reflexivity].
      destruct (firstParent g p) as [q|] eqn:Hq.
      * destruct (firstParent_joined _ _ _ _ Hq Hrp) as (rq & _ & [= ->]).
        destruct (firstParent_edge _ _ Hq) as [Hqkey _].
        assert (Hqne : q <> "") by (intros ->; contradiction).
        now rewrite (joined_nonEmpty _ _ Hqne).
      * now apply (firstParent_none _ _ _ Hq) in Hrp.
    + apply (firstParent_none _ _ _ Hp) in Hr as ->. exact Hget.
Qed.

End PathFacts.

Lemma ranked_edge (rk : string -> nat) (g : StateKeyGraph) (p c : string) :
  ranked rk g = true -> edge g p c -> rk p < rk c.
Proof.
  intros Hrk (kids & Hget & Hc). apply obj_get_elem in Hget.
  unfold ranked in Hrk. rewrite forallb_forall in Hrk.
  apply list_elem_of_In in Hget. specialize (Hrk _ Hget). simpl in Hrk.
  rewrite forallb_forall in Hrk. apply list_elem_of_In in Hc.
  specialize (Hrk _ Hc). now apply Nat.ltb_lt in Hrk.
Qed.

(** A map that can be numbered has no cycle. *)
Lemma ranked_acyclic (rk : string -> nat) (g : StateKeyGraph) :
  ranked rk g = true -> acyclic g.
Proof.
  intros Hrk x Hx.
  assert (Hlt : forall a b, tc (edge g) a b -> rk a < rk b).
  { induction 1 as [a b Hab|a b c Hab _ IH].
    - now apply (ranked_edge rk g).
    - apply (ranked_edge rk g) in Hab; [lia|exact Hrk]. }
  specialize (Hlt _ _ Hx). lia.
Qed.

Lemma firstParent_split (before after : StateKeyGraph) (p node : string)
    (kids : list string) :
  node ∈ kids ->
  Forall (fun e : string * list string => node ∉ e.2) before ->
  firstParent (before ++ (p, kids) :: after) node = Some p.
Proof.
  intros Hin Hbefore. unfold firstParent.
  induction Hbefore as [|e before He _ IH]; simpl.
  - now rewrite (bool_decide_eq_true_2 _ Hin).
  - now rewrite (bool_decide_eq_false_2 _ He).
Qed.

Lemma plainKeys_check (g : StateKeyGraph) :
  bool_decide ("hasOwnProperty" ∈ keys g) = false ->
  bool_decide ("__proto__" ∈ keys g) = false ->
  plainKeys g.
Proof.
  intros H1 H2. split; [now apply bool_decide_eq_false in H1|].
  now apply bool_decide_eq_false in H2.
Qed.

Lemma cartGraph_plain : plainKeys cartGraph.
Proof. now apply plainKeys_check. Qed.

Lemma cartGraph_distinct : NoDup (keys cartGraph).
Proof. apply (bool_decide_unpack _). by vm_compute. Qed.

(** C6 (amended): on an adjacency map with no cycle, whose keys are
    non-empty and neither [hasOwnProperty] nor [__proto__],
    [findFullParentPath] (given a call stack deeper than the number of
    keys) maps exactly the keys of the map, a key that is in no child
    list to its own name, and every other key to the path of its first
    parent, a dot, then its own name; and on the graph
    [{cart: [saved], saved: [items], items: []}] it returns
    [{cart: "cart", saved: "cart.saved", items: "cart.saved.items"}]. *)
Theorem findFullParentPath_paths :
  (forall (g : StateKeyGraph) (stack : nat),
      NoDup (keys g) -> plainKeys g -> acyclic g -> "" ∉ keys g ->
      length g < stack ->
      exists paths,
        findFullParentPath stack g [] = Ret paths
        /\ (forall k, k ∈ keys paths <-> k ∈ keys g)
        /\ forall k, k ∈ keys g ->
             match firstParent g k with
             | None => obj_get paths k = Some k
             | Some p =>
                 exists pp, obj_get paths p = Some pp
                            /\ obj_get paths k = Some (pp +:+ "." +:+ k)
             end)
  /\ (forall stack, 3 < stack ->
        findFullParentPath stack cartGraph []
        = Ret [("cart", "cart"); ("saved", "cart.saved");
               ("items", "cart.saved.items")]).
Proof.
  split.
  - intros g stack Hnd Hplain Hacyc Hempty Hlen.
    now apply findFullParentPath_spec.
  - intros stack Hstack.
    assert (Hv : forall k r, visitParent 4 cartGraph k = Ret r ->
                             visitParent stack cartGraph k = Ret r).
    { intros k r. apply visitParent_mono_le;
        [apply cartGraph_distinct | apply cartGraph_plain | lia]. }
    unfold findFullParentPath. simpl.
    rewrite (Hv "cart" None eq_refl). simpl.
    rewrite (Hv "saved" (Some "cart") eq_refl). simpl.
    rewrite (Hv "items" (Some "cart.saved") eq_refl). reflexivity.
Qed.

(** C9 (amended): on an adjacency map with no cycle (keys non-empty and
    neither [hasOwnProperty] nor [__proto__]), a node listed by several
    parents gets the path that goes through the first key, in enumeration
    order, whose child list contains it. *)
Theorem findFullParentPath_first_parent (g before after : StateKeyGraph)
    (stack : nat) (p node : string) (kids : list string) :
  NoDup (keys g) -> plainKeys g -> acyclic g -> "" ∉ keys g ->
  length g < stack ->
  g = before ++ (p, kids) :: after ->
  node ∈ kids ->
  Forall (fun e : string * list string => node ∉ e.2) before ->
  node ∈ keys g ->
  exists paths pp,
    findFullParentPath stack g [] = Ret paths
    /\ obj_get paths p = Some pp
    /\ obj_get paths node = Some (pp +:+ "." +:+ node).
Proof.
  intros Hnd Hplain Hacyc Hempty Hlen Hsplit Hin Hbefore Hnode.
  destruct (findFullParentPath_spec g Hnd Hplain stack Hacyc Hempty Hlen)
    as (paths & Hret & _ & Hpaths).
  specialize (Hpaths _ Hnode). subst g.
  rewrite (firstParent_split _ _ _ _ _ Hin Hbefore) in Hpaths.
  destruct Hpaths as (pp & Hp & Hk). now exists paths, pp.
Qed.

Lemma selfGraph_plain : plainKeys selfGraph.
Proof. now apply plainKeys_check. Qed.

Lemma selfGraph_distinct : NoDup (keys selfGraph).
Proof. apply (bool_decide_unpack _). by vm_compute. Qed.

Lemma tangledGraph_plain : plainKeys tangledGraph.
Proof. now apply plainKeys_check. Qed.

Lemma tangledGraph_distinct : NoDup (keys tangledGraph).
Proof. apply (bool_decide_unpack _). by vm_compute. Qed.

Lemma sharedGraph_plain : plainKeys sharedGraph.
Proof. now apply plainKeys_check. Qed.

Lemma sharedGraph_distinct : NoDup (keys sharedGraph).
Proof. apply (bool_decide_unpack _). by vm_compute. Qed.

Lemma not_in_keys (g : StateKeyGraph) (k : string) :
  bool_decide (k ∈ keys g) = false -> k ∉ keys g.
Proof. apply bool_decide_eq_false. Qed.

(** The outer loop stops at the first key on which the inner [visit]
    throws. *)
Lemma findFullParentPath_throws (stack : nat) (k : string)
    (kids : list string) (rest : StateKeyGraph) (e : JsError) :
  plainKeys ((k, kids) :: rest) ->
  visitParent stack ((k, kids) :: rest) k = Throw e ->
  findFullParentPath stack ((k, kids) :: rest) [] = Throw e.
Proof.
  intros Hplain Hthrow. unfold findFullParentPath.
  change (keys ((k, kids) :: rest)) with (k :: keys rest).
  change (reduce ?f (k :: ?l) ?i) with (acc ← f i k; reduce f l acc).
  cbv beta. rewrite (hasOwnProperty_plain _ Hplain).
  rewrite bool_decide_eq_true_2 by now left.
  simpl. now rewrite Hthrow.
Qed.

Lemma selfGraph_overflow (n : nat) :
  visitParent n selfGraph "a" = Throw RangeError.
Proof.
  induction n as [|n IH]; [reflexivity|].
  rewrite (visitParent_step _ selfGraph_distinct selfGraph_plain).
  change (firstParent selfGraph "a") with (Some "a"). cbv beta iota.
  now rewrite IH.
Qed.

Lemma tangledGraph_overflow (n : nat) :
  visitParent n tangledGraph "a" = Throw RangeError
  /\ visitParent n tangledGraph "b" = Throw RangeError.
Proof.
  induction n as [|n [IHa IHb]]; [now split|].
  rewrite !(visitParent_step _ tangledGraph_distinct tangledGraph_plain).
  change (firstParent tangledGraph "a") with (Some "b").
  change (firstParent tangledGraph "b") with (Some "a"). cbv beta iota.
  now rewrite IHa, IHb.
Qed.

(** On [{a: ['a']}] the inner [visit] calls itself without end: whatever
    the depth of the call stack, [findFullParentPath] returns no map. *)
Lemma findFullParentPath_cycle_overflows :
  ~ exists stack paths, findFullParentPath stack selfGraph [] = Ret paths.
Proof.
  intros (stack & paths & H).
  unfold selfGraph in H.
  rewrite (findFullParentPath_throws stack _ _ _ RangeError) in H;
    [discriminate | apply selfGraph_plain | apply selfGraph_overflow].
Qed.

Lemma findFullParentPath_paths_witness :
  exists paths,
    findFullParentPath 4 cartGraph [] = Ret paths
    /\ obj_get paths "cart" = Some "cart"
    /\ obj_get paths "saved" = Some "cart.saved"
    /\ obj_get paths "items" = Some "cart.saved.items".
Proof.
  destruct findFullParentPath_paths as [Hgen _].
  destruct (Hgen cartGraph 4) as (paths & Hret & _ & Hpaths).
  - exact cartGraph_distinct.
  - exact cartGraph_plain.
  - now apply (ranked_acyclic cartRank).
  - now apply not_in_keys.
  - simpl. lia.
  - exists paths. split; [exact Hret|].
    assert (Hkey : forall k, In k (keys cartGraph) -> k ∈ keys cartGraph)
      by (intros k; apply list_elem_of_In).
    pose proof (Hpaths "cart" (Hkey "cart" ltac:(simpl; tauto))) as Hcart.
    pose proof (Hpaths "saved" (Hkey "saved" ltac:(simpl; tauto))) as Hsaved.
    pose proof (Hpaths "items" (Hkey "items" ltac:(simpl; tauto))) as Hitems.
    change (firstParent cartGraph "cart") with (@None string) in Hcart.
    change (firstParent cartGraph "saved") with (Some "cart") in Hsaved.
    change (firstParent cartGraph "items") with (Some "saved") in Hitems.
    destruct Hsaved as (pc & Hpc & Hsaved). rewrite Hcart in Hpc.
    injection Hpc as <-.
    destruct Hitems as (ps & Hps & Hitems). rewrite Hsaved in Hps.
    injection Hps as <-.
    split; [exact Hcart|]. split; [exact Hsaved|exact Hitems].
Defined.

(** In [{a: ['c', 'b'], b: ['c', 'a'], c: []}] the node [c] is listed by
    [a] and by [b], which list each other: [findFullParentPath] returns
    no map, whatever the depth of the call stack. *)
Lemma findFullParentPath_shared_in_cycle :
  edge tangledGraph "a" "c"
  /\ edge tangledGraph "b" "c"
  /\ ~ exists stack paths, findFullParentPath stack tangledGraph [] = Ret paths.
Proof.
  split; [|split].
  - exists ["c"; "b"]. split; [reflexivity|]. now left.
  - exists ["c"; "a"]. split; [reflexivity|]. now left.
  - intros (stack & paths & H).
    unfold tangledGraph in H.
    rewrite (findFullParentPath_throws stack _ _ _ RangeError) in H;
      [discriminate | apply tangledGraph_plain | apply tangledGraph_overflow].
Qed.

Lemma findFullParentPath_first_parent_witness :
  exists paths pp,
    findFullParentPath 4 sharedGraph [] = Ret paths
    /\ obj_get paths "a" = Some pp
    /\ obj_get paths "c" = Some (pp +:+ "." +:+ "c").
Proof.
  apply (findFullParentPath_first_parent sharedGraph []
           [("b", ["c"]); ("c", [])] 4 "a" "c" ["c"]).
  - exact sharedGraph_distinct.
  - exact sharedGraph_plain.
  - now apply (ranked_acyclic sharedRank).
  - now apply not_in_keys.
  - simpl. lia.
  - reflexivity.
  - now left.
  - constructor.
  - apply list_elem_of_In. simpl. tauto.
Defined.

(** Below a root whose name is empty, the outer loop, which tests
    [parent] for truthiness, drops the dot that the inner [visit], which
    tests it against [null], keeps. *)
Example findFullParentPath_empty_root :
  findFullParentPath 4 emptyRootGraph []
  = Ret [("", ""); ("a", "a"); ("b", ".a.b")].
Proof. vm_compute. reflexivity. Qed.

(** * Facts about [topologicalSort] *)

Lemma chained_snoc (g : StateKeyGraph) (l : list string) (a b : string) :
  chained g l -> last l = Some a -> edge g a b -> chained g (l ++ [b]).
Proof.
  induction l as [|x l IH]; intros Hch Hlast Hedge; [discriminate|].
  destruct l as [|y l].
  - injection Hlast as ->. simpl. split; [exact Hedge|exact I].
  - destruct Hch as [Hxy Hch]. split; [exact Hxy|].
    now apply IH.
Qed.

Lemma chained_reaches (g : StateKeyGraph) (l : list string) (x a : string) :
  chained g l -> last l = Some a -> x ∈ l -> rtc (edge g) x a.
Proof.
  revert x. induction l as [|y l IH]; intros x Hch Hlast Hx; [discriminate|].
  destruct l as [|z l].
  - injection Hlast as ->. apply list_elem_of_singleton in Hx as ->.
    reflexivity.
  - destruct Hch as [Hyz Hch].
    assert (Hz : rtc (edge g) z a).
    { apply IH; [exact Hch|exact Hlast|now left]. }
    apply elem_of_cons in Hx as [->|Hx].
    + now apply rtc_l with z.
    + now apply IH.
Qed.

(** The error of [visit] is thrown on a cycle only. *)
Lemma circularError_cyclic (g : StateKeyGraph) (e : JsError) :
  circularError g e -> cyclic g.
Proof.
  intros (dep & name & ancestors & _ & Hedge & Hin & Hlast & Hch).
  exists dep. eapply tc_rtc_l; [|apply tc_once, Hedge].
  now apply (chained_reaches g ancestors).
Qed.

(** In a post-ordered array whatever a member reaches is a member, so no
    member is on a cycle. *)
Lemma postOrdered_reach (g : StateKeyGraph) (l : list string) :
  postOrdered g l ->
  forall x y, x ∈ l -> tc (edge g) x y -> y ∈ l.
Proof.
  induction 1 as [|l x0 kids Hpo IH Hget Hkids Hfresh].
  - intros x y Hx. now apply elem_of_nil in Hx.
  - assert (Hl : forall x y, x ∈ l -> tc (edge g) x y -> y ∈ l ++ [x0]).
    { intros x y Hx Hxy. apply elem_of_app. left. now apply (IH x). }
    intros x y Hx Hxy. apply elem_of_app in Hx as [Hx|Hx]; [now apply (Hl x)|].
    apply list_elem_of_singleton in Hx as ->.
    assert (Hstep : forall c, edge g x0 c -> c ∈ l).
    { intros c (kids' & Hget' & Hc). rewrite Hget in Hget'.
      injection Hget' as <-. now apply Hkids. }
    inversion Hxy as [? ? Hedge|? c ? Hedge Hrest]; subst.
    + apply elem_of_app. left. now apply Hstep.
    + apply (Hl c); [now apply Hstep|exact Hrest].
Qed.

Lemma postOrdered_acyclic_on (g : StateKeyGraph) (l : list string) :
  postOrdered g l -> forall x, x ∈ l -> ~ tc (edge g) x x.
Proof.
  induction 1 as [|l x0 kids Hpo IH Hget Hkids Hfresh].
  - intros x Hx. now apply elem_of_nil in Hx.
  - intros x Hx Hcyc. apply elem_of_app in Hx as [Hx|Hx]; [now apply (IH x)|].
    apply list_elem_of_singleton in Hx as ->.
    apply Hfresh.
    inversion Hcyc as [? ? Hedge|? c ? Hedge Hrest]; subst.
    + destruct Hedge as (kids' & Hget' & Hc). rewrite Hget in Hget'.
      injection Hget' as <-. now apply Hkids.
    + apply (postOrdered_reach g l Hpo c); [|exact Hrest].
      destruct Hedge as (kids' & Hget' & Hc). rewrite Hget in Hget'.
      injection Hget' as <-. now apply Hkids.
Qed.

Lemma postOrdered_keys (g : StateKeyGraph) (l : list string) :
  postOrdered g l -> forall x, x ∈ l -> x ∈ keys g.
Proof.
  induction 1 as [|l x0 kids Hpo IH Hget Hkids Hfresh]; intros x Hx.
  - now apply elem_of_nil in Hx.
  - apply elem_of_app in Hx as [Hx|Hx]; [now apply IH|].
    apply list_elem_of_singleton in Hx as ->. now apply obj_get_key in Hget.
Qed.

Lemma postOrdered_NoDup (g : StateKeyGraph) (l : list string) :
  postOrdered g l -> NoDup l.
Proof.
  induction 1 as [|l x0 kids Hpo IH Hget Hkids Hfresh]; [constructor|].
  apply NoDup_app. split; [exact IH|]. split.
  - intros x Hx Hx0. apply list_elem_of_singleton in Hx0 as ->. contradiction.
  - apply NoDup_singleton.
Qed.

(** Marking can only lower the number of unmarked keys, and marking an
    unmarked key lowers it. *)
Lemma unmarked_le (l : list string) (V V' : gset string) :
  V ⊆ V' ->
  length (filter (fun k => k ∉ V') l) <= length (filter (fun k => k ∉ V) l).
Proof.
  intros Hsub. induction l as [|k l IH]; [reflexivity|].
  rewrite !filter_cons.
  destruct (decide (k ∉ V')) as [H'|H'];
    destruct (decide (k ∉ V)) as [H|H]; simpl; try lia.
  exfalso. apply H. intros Hk. apply H'. now apply Hsub.
Qed.

Lemma unmarked_lt (l : list string) (V : gset string) (k : string) :
  k ∈ l -> k ∉ V ->
  length (filter (fun x => x ∉ {[k]} ∪ V) l)
  < length (filter (fun x => x ∉ V) l).
Proof.
  intros Hkey Hk.
  induction l as [|x l IH]; [by apply elem_of_nil in Hkey|].
  rewrite !filter_cons.
  pose proof (unmarked_le l V ({[k]} ∪ V) (union_subseteq_r _ _)) as Hle.
  apply elem_of_cons in Hkey as [Heq|Hin].
  - subst x. rewrite decide_False.
    + rewrite decide_True by exact Hk. simpl. lia.
    + intros H. apply H, elem_of_union. left. now apply elem_of_singleton.
  - specialize (IH Hin).
    destruct (decide (x ∉ {[k]} ∪ V)) as [H'|H'];
      destruct (decide (x ∉ V)) as [H|H]; simpl; try lia.
    exfalso. apply H. intros Hx. apply H', elem_of_union. now right.
Qed.

Lemma unvisited_mono (g : StateKeyGraph) (st st' : SortState) :
  visited st ⊆ visited st' -> unvisited g st' <= unvisited g st.
Proof. apply unmarked_le. Qed.

Lemma unvisited_mark (g : StateKeyGraph) (st : SortState) (k : string) :
  k ∈ keys g -> k ∉ visited st ->
  unvisited g (markVisited k st) < unvisited g st.
Proof. apply unmarked_lt. Qed.

Section SortFacts.

Variable ngDevMode : option bool.
Variable g : StateKeyGraph.

Hypothesis closedness : closed g.
Hypothesis plain : plainChildren g.

(** Either the check of the ancestors is on, or there is no cycle for it
    to find. *)
Hypothesis mode : devChecks ngDevMode = true \/ acyclic g.


Lemma advances_refl (st : SortState) (ancestors : list string) :
  postOrdered g (sorted st) -> settled st ancestors ->
  advances g st st ancestors.
Proof. intros Hpo Hset. repeat split; auto. Qed.

Lemma advances_trans (st1 st2 st3 : SortState) (ancestors : list string) :
  advances g st1 st2 ancestors -> advances g st2 st3 ancestors ->
  advances g st1 st3 ancestors.
Proof.
  intros (_ & _ & Hs12 & Hv12) (Hpo & Hset & Hs23 & Hv23).
  repeat split; auto. now trans (visited st2).
Qed.

Lemma last_snoc_name (l : list string) (x : string) : last (l ++ [x]) = Some x.
Proof. apply last_snoc. Qed.

(** The [forEach] over the children of [name]. *)
Lemma forEach_deps (n : nat) (name : string) (ancestors kids : list string) :
  visitOk ngDevMode g n ->
  obj_get g name = Some kids ->
  last ancestors = Some name ->
  chained g ancestors ->
  forall (deps : list string) (st : SortState),
    (forall d, d ∈ deps -> d ∈ kids) ->
    postOrdered g (sorted st) ->
    settled st ancestors ->
    unvisited g st <= n ->
    match forEach deps (visitDep n ngDevMode g name ancestors) st with
    | Ret st' =>
        advances g st st' ancestors /\ forall d, d ∈ deps -> d ∈ sorted st'
    | Throw e => circularError g e
    end.
Proof.
  intros IH Hget Hlast Hch.
  induction deps as [|dep deps IHdeps]; intros st Hsub Hpo Hset Hfuel.
  - simpl. split; [now apply advances_refl|].
    intros d Hd. now apply elem_of_nil in Hd.
  - assert (Hedge : edge g name dep).
    { exists kids. split; [exact Hget|]. apply Hsub. now left. }
    assert (Hnext : forall st1,
               advances g st st1 ancestors -> dep ∈ sorted st1 ->
               match forEach deps (visitDep n ngDevMode g name ancestors) st1 with
               | Ret st' =>
                   advances g st st' ancestors
                   /\ forall d, d ∈ dep :: deps -> d ∈ sorted st'
               | Throw e => circularError g e
               end).
    { intros st1 Hadv Hdep.
      pose proof Hadv as (Hpo1 & Hset1 & Hs1 & Hv1).
      specialize (IHdeps st1 (fun d Hd => Hsub d (list_elem_of_further _ _ _ Hd))
                    Hpo1 Hset1).
      destruct (forEach deps _ st1) as [st'|e].
      - destruct IHdeps as [Hadv' Hall].
        { pose proof (unvisited_mono g st st1 Hv1). lia. }
        split; [now apply (advances_trans st st1 st')|].
        intros d Hd. apply elem_of_cons in Hd as [->|Hd]; [|now apply Hall].
        now apply Hadv'.
      - apply IHdeps. pose proof (unvisited_mono g st st1 Hv1). lia. }
    assert (Hdep : match visitDep n ngDevMode g name ancestors dep st with
                   | Ret st1 => advances g st st1 ancestors /\ dep ∈ sorted st1
                   | Throw e => circularError g e
                   end).
    { unfold visitDep. rewrite indexOf_nonneg.
      destruct (devChecks ngDevMode && bool_decide (dep ∈ ancestors)) eqn:Echeck.
      { apply andb_prop in Echeck as [_ Hin].
        apply bool_decide_eq_true in Hin.
        now exists dep, name, ancestors. }
      assert (Hnotanc : dep ∉ ancestors).
      { intros Hin. destruct mode as [Hdev|Hacyc].
        - now rewrite Hdev, (bool_decide_eq_true_2 _ Hin) in Echeck.
        - apply (Hacyc dep). eapply tc_rtc_l; [|apply tc_once, Hedge].
          now apply (chained_reaches g ancestors). }
      destruct (isVisited st dep) eqn:Evis.
      - split; [now apply advances_refl|].
        unfold isVisited in Evis. apply orb_prop in Evis as [Hv|Hproto].
        + apply bool_decide_eq_true in Hv.
          destruct (Hset _ Hv) as [Hs|Ha]; [exact Hs|contradiction].
        + apply bool_decide_eq_true in Hproto.
          now apply (plain _ _ Hedge) in Hproto.
      - unfold isVisited in Evis. apply orb_false_elim in Evis as [Hv _].
        apply bool_decide_eq_false in Hv.
        assert (Hkey : dep ∈ keys g) by now apply (closedness name).
        pose proof (unvisited_mark g st dep Hkey Hv) as Hlt.
        apply (IH dep ancestors st Hkey Hpo Hset
                 (chained_snoc _ _ _ _ Hch Hlast Hedge)). lia. }
    change (forEach (dep :: deps) (visitDep n ngDevMode g name ancestors) st)
      with (st1 ← visitDep n ngDevMode g name ancestors dep st;
            forEach deps (visitDep n ngDevMode g name ancestors) st1).
    destruct (visitDep n ngDevMode g name ancestors dep st) as [st1|e].
    + simpl. now apply Hnext.
    + exact Hdep.
Qed.

Lemma visit_unfold (n : nat) (name : string) (ancestors : list string)
    (st : SortState) :
  visit (S n) ngDevMode g name ancestors st
  = match obj_get g name with
    | None => Throw TypeError
    | Some deps =>
        st' ← forEach deps (visitDep n ngDevMode g name (ancestors ++ [name]))
                (markVisited name st);
        Ret (pushSorted name st')
    end.
Proof. reflexivity. Qed.

(** [visit] meets its specification when the call stack is deeper than
    the number of unmarked keys. *)
Lemma visit_ok (n : nat) : visitOk ngDevMode g n.
Proof.
  induction n as [|n IH]; intros name ancestors st Hkey Hpo Hset Hch Hfuel;
    [lia|].
  rewrite visit_unfold.
  destruct (obj_get_is_Some _ _ Hkey) as [kids Hget]. rewrite Hget.
  pose proof (forEach_deps n name (ancestors ++ [name]) kids IH Hget
                (last_snoc_name _ _) Hch kids (markVisited name st)
                (fun d Hd => Hd)) as Hloop.
  destruct (forEach kids _ (markVisited name st)) as [st1|e].
  - destruct Hloop as [(Hpo1 & Hset1 & Hs1 & Hv1) Hall].
    + exact Hpo.
    + intros x Hx. simpl in Hx. apply elem_of_union in Hx as [Hx|Hx].
      * apply elem_of_singleton in Hx as ->. right.
        apply elem_of_app. right. now left.
      * destruct (Hset _ Hx) as [Hs|Ha]; [now left|].
        right. apply elem_of_app. now left.
    + lia.
    + simpl. unfold pushSorted. rewrite indexOf_negative.
      case_bool_decide as Hin.
      * simpl. split; [|apply elem_of_app; right; now left].
        split; [now apply (postOrdered_push g _ _ kids)|].
        split; [|split].
        -- intros x Hx. simpl in Hx. simpl.
           destruct (Hset1 _ Hx) as [Hs|Ha].
           ++ left. apply elem_of_app. now left.
           ++ apply elem_of_app in Ha as [Ha|Ha]; [now right|].
              apply list_elem_of_singleton in Ha as ->.
              left. apply elem_of_app. right. now left.
        -- intros x Hx. simpl. apply elem_of_app. left. now apply Hs1.
        -- simpl in Hv1 |- *.
           trans ({[name]} ∪ visited st); [apply union_subseteq_r|exact Hv1].
      * assert (Hname : name ∈ sorted st1)
          by (destruct (decide (name ∈ sorted st1)); [done|contradiction]).
        split; [|exact Hname].
        split; [exact Hpo1|]. split; [|split].
        -- intros x Hx. destruct (Hset1 _ Hx) as [Hs|Ha]; [now left|].
           apply elem_of_app in Ha as [Ha|Ha]; [now right|].
           apply list_elem_of_singleton in Ha as ->. now left.
        -- exact Hs1.
        -- simpl in Hv1.
           trans ({[name]} ∪ visited st); [apply union_subseteq_r|exact Hv1].
  - simpl. apply Hloop; [exact Hpo| |lia].
    intros x Hx. simpl in Hx. apply elem_of_union in Hx as [Hx|Hx].
    + apply elem_of_singleton in Hx as ->. right.
      apply elem_of_app. right. now left.
    + destruct (Hset _ Hx) as [Hs|Ha]; [now left|].
      right. apply elem_of_app. now left.
Qed.

(** The [forEach] over the keys of the graph. *)
Lemma forEach_keys (stack : nat) :
  length g < stack ->
  forall (l : list string) (st : SortState),
    (forall k, k ∈ l -> k ∈ keys g) ->
    postOrdered g (sorted st) ->
    settled st [] ->
    match forEach l (fun k st => visit stack ngDevMode g k [] st) st with
    | Ret st' =>
        postOrdered g (sorted st')
        /\ settled st' []
        /\ (forall x, x ∈ sorted st -> x ∈ sorted st')
        /\ (forall k, k ∈ l -> k ∈ sorted st')
    | Throw e => circularError g e
    end.
Proof.
  intros Hstack. induction l as [|k l IH]; intros st Hsub Hpo Hset.
  - simpl. repeat split; auto. intros k Hk. now apply elem_of_nil in Hk.
  - change (forEach (k :: l) ?f st) with (st1 ← f k st; forEach l f st1).
    cbv beta.
    assert (Hkey : k ∈ keys g) by (apply Hsub; now left).
    pose proof (visit_ok stack k [] st Hkey Hpo Hset I) as Hvisit.
    destruct (visit stack ngDevMode g k [] st) as [st1|e].
    + destruct Hvisit as [(Hpo1 & Hset1 & Hs1 & Hv1) Hk1].
      { unfold unvisited.
        pose proof (length_filter (fun x => x ∉ visited (markVisited k st))
                      (keys g)) as Hle.
        unfold keys in Hle |- *. rewrite length_fmap in Hle. lia. }
      simpl.
      specialize (IH st1 (fun x Hx => Hsub x (list_elem_of_further _ _ _ Hx))
                    Hpo1 Hset1).
      destruct (forEach l _ st1) as [st'|e]; [|exact IH].
      destruct IH as (Hpo' & Hset' & Hs' & Hall).
      repeat split; auto.
      intros x Hx. apply elem_of_cons in Hx as [->|Hx]; auto.
    + apply Hvisit. unfold unvisited.
      pose proof (length_filter (fun x => x ∉ visited (markVisited k st))
                    (keys g)) as Hle.
      unfold keys in Hle |- *. rewrite length_fmap in Hle. lia.
Qed.

(** What [topologicalSort] does on a closed graph: it returns the keys,
    in the reverse of a post-order, or throws the error of a cycle. *)
Lemma topologicalSort_outcome (stack : nat) :
  length g < stack ->
  match topologicalSort stack ngDevMode g with
  | Ret order =>
      postOrdered g (reverse order) /\ (forall k, k ∈ order <-> k ∈ keys g)
  | Throw e => circularError g e
  end.
Proof.
  intros Hstack. unfold topologicalSort.
  pose proof (forEach_keys stack Hstack (keys g)
                {| sorted := []; visited := ∅ |} (fun k Hk => Hk)
                (postOrdered_nil g)) as Hloop.
  destruct (forEach (keys g) _ _) as [st|e].
  - destruct Hloop as (Hpo & _ & _ & Hall).
    { intros x Hx. simpl in Hx. now apply elem_of_empty in Hx. }
    simpl. rewrite reverse_involutive. split; [exact Hpo|].
    intros k. rewrite elem_of_reverse. split; [|apply Hall].
    now apply postOrdered_keys.
  - simpl. apply Hloop. intros x Hx. simpl in Hx.
    now apply elem_of_empty in Hx.
Qed.

End SortFacts.

Lemma edge_key (g : StateKeyGraph) (p c : string) : edge g p c -> p ∈ keys g.
Proof. intros (kids & Hget & _). now apply obj_get_key in Hget. Qed.

Lemma tc_edge_key (g : StateKeyGraph) (x y : string) :
  tc (edge g) x y -> x ∈ keys g.
Proof. destruct 1 as [? ? H|? ? ? H _]; now apply edge_key in H. Qed.

Lemma closed_check (g : StateKeyGraph) :
  forallb (fun e : string * list string =>
             forallb (fun c => bool_decide (c ∈ keys g)) e.2) g = true ->
  closed g.
Proof.
  intros Hall p c (kids & Hget & Hc). apply obj_get_elem in Hget.
  rewrite forallb_forall in Hall. apply list_elem_of_In in Hget.
  specialize (Hall _ Hget). simpl in Hall. rewrite forallb_forall in Hall.
  apply list_elem_of_In in Hc. specialize (Hall _ Hc).
  now apply bool_decide_eq_true in Hall.
Qed.

Lemma plainChildren_check (g : StateKeyGraph) :
  forallb (fun e : string * list string =>
             forallb (fun c => negb (bool_decide (c ∈ objectPrototypeKeys))) e.2)
    g = true ->
  plainChildren g.
Proof.
  intros Hall p c (kids & Hget & Hc). apply obj_get_elem in Hget.
  rewrite forallb_forall in Hall. apply list_elem_of_In in Hget.
  specialize (Hall _ Hget). simpl in Hall. rewrite forallb_forall in Hall.
  apply list_elem_of_In in Hc. specialize (Hall _ Hc).
  apply negb_true_iff in Hall. now apply bool_decide_eq_false in Hall.
Qed.

Lemma mutualGraph_cyclic : cyclic mutualGraph.
Proof.
  exists "A". apply tc_l with "B"; [|apply tc_once].
  - exists ["B"]. split; [reflexivity|now left].
  - exists ["A"]. split; [reflexivity|now left].
Qed.

(** C2 (amended): under the development checks ([ngDevMode] undefined or
    truthy), on every adjacency map that contains a cycle, whose children
    are all keys and none of them a property name inherited from
    [Object.prototype], [topologicalSort] (given a call stack deeper than
    the number of keys) throws and returns no order; the message of the
    error names the dependency that closes a cycle, the module that
    requires it and the chain of ancestors, which runs along edges down
    to that module and holds the dependency. *)
Theorem topologicalSort_detects_cycle (ngDevMode : option bool)
    (g : StateKeyGraph) (stack : nat) :
  devChecks ngDevMode = true ->
  closed g -> plainChildren g -> cyclic g -> length g < stack ->
  exists dep name ancestors,
    topologicalSort stack ngDevMode g
    = Throw (Error ("Circular dependency '" +:+ dep +:+ "' is required by '"
                    +:+ name +:+ "': " +:+ String.concat " -> " ancestors))
    /\ edge g name dep
    /\ dep ∈ ancestors
    /\ last ancestors = Some name
    /\ chained g ancestors.
Proof.
  intros Hdev Hclosed Hplain [x Hx] Hstack.
  pose proof (topologicalSort_outcome ngDevMode g Hclosed Hplain
                (or_introl Hdev) stack Hstack) as Hout.
  destruct (topologicalSort stack ngDevMode g) as [order|e].
  - exfalso. destruct Hout as [Hpo Hall].
    apply (postOrdered_acyclic_on g _ Hpo x); [|exact Hx].
    apply elem_of_reverse, Hall. now apply (tc_edge_key g x x).
  - destruct Hout as (dep & name & ancestors & -> & Hrest).
    now exists dep, name, ancestors.
Qed.

(** With [ngDevMode] false the ancestors are not checked: on the two
    modules that depend on each other an order is returned. *)
Lemma topologicalSort_production_cycle :
  cyclic mutualGraph
  /\ topologicalSort 3 (Some false) mutualGraph = Ret ["A"; "B"].
Proof.
  split; [exact mutualGraph_cyclic|]. vm_compute. reflexivity.
Qed.

Lemma topologicalSort_detects_cycle_witness :
  exists dep name ancestors,
    topologicalSort 3 None mutualGraph
    = Throw (Error ("Circular dependency '" +:+ dep +:+ "' is required by '"
                    +:+ name +:+ "': " +:+ String.concat " -> " ancestors))
    /\ edge mutualGraph name dep
    /\ dep ∈ ancestors
    /\ last ancestors = Some name
    /\ chained mutualGraph ancestors.
Proof.
  apply (topologicalSort_detects_cycle None mutualGraph 3).
  - reflexivity.
  - now apply closed_check.
  - now apply plainChildren_check.
  - exact mutualGraph_cyclic.
  - simpl. lia.
Defined.

(** C4: on the graph [{cart: ['saved'], saved: ['items'], items: []}]
    the order returned is [cart], [saved], [items], each parent before
    its child, where the comment above the function has [items],
    [saved], [cart], each child before its parent. *)
Theorem topologicalSort_cart_order :
  topologicalSort 4 None cartGraph = Ret ["cart"; "saved"; "items"]
  /\ precedes ["cart"; "saved"; "items"] "cart" "saved"
  /\ precedes ["cart"; "saved"; "items"] "saved" "items"
  /\ edge cartGraph "cart" "saved"
  /\ edge cartGraph "saved" "items".
Proof.
  split; [vm_compute; reflexivity|]. split; [|split; [|split]].
  - now exists [], [], ["items"].
  - now exists ["cart"], [], [].
  - exists ["saved"]. split; [reflexivity|now left].
  - exists ["items"]. split; [reflexivity|now left].
Qed.

Lemma precedes_snoc (l : list string) (x y z : string) :
  precedes l x y -> precedes (l ++ [z]) x y.
Proof.
  intros (l1 & l2 & l3 & ->). exists l1, l2, (l3 ++ [z]).
  now simplify_list_eq.
Qed.

(** In a post-ordered array a child comes before its parent. *)
Lemma postOrdered_precedes (g : StateKeyGraph) (l : list string) (p c : string) :
  postOrdered g l -> edge g p c -> p ∈ l -> precedes l c p.
Proof.
  intros Hpo Hedge.
  induction Hpo as [|l x0 kids Hpo IH Hget Hkids Hfresh]; intros Hp.
  - now apply elem_of_nil in Hp.
  - apply elem_of_app in Hp as [Hp|Hp]; [now apply precedes_snoc, IH|].
    apply list_elem_of_singleton in Hp as ->.
    destruct Hedge as (kids' & Hget' & Hc). rewrite Hget in Hget'.
    injection Hget' as <-. apply Hkids in Hc.
    apply list_elem_of_split in Hc as (l1 & l2 & ->).
    exists l1, l2, []. now simplify_list_eq.
Qed.

Lemma precedes_reverse (l : list string) (x y : string) :
  precedes l x y -> precedes (reverse l) y x.
Proof.
  intros (l1 & l2 & l3 & ->). exists (reverse l3), (reverse l2), (reverse l1).
  rewrite reverse_app, reverse_cons, reverse_app, reverse_cons.
  now simplify_list_eq.
Qed.

(** On every closed adjacency map with no cycle (children not named like
    an inherited property), whatever [ngDevMode] is, [topologicalSort]
    returns each key exactly once, and every parent before each of its
    children. *)
Theorem topologicalSort_parents_first (ngDevMode : option bool)
    (g : StateKeyGraph) (stack : nat) :
  closed g -> plainChildren g -> acyclic g -> length g < stack ->
  exists order,
    topologicalSort stack ngDevMode g = Ret order
    /\ NoDup order
    /\ (forall k, k ∈ order <-> k ∈ keys g)
    /\ forall parent child, edge g parent child -> precedes order parent child.
Proof.
  intros Hclosed Hplain Hacyc Hstack.
  pose proof (topologicalSort_outcome ngDevMode g Hclosed Hplain
                (or_intror Hacyc) stack Hstack) as Hout.
  destruct (topologicalSort stack ngDevMode g) as [order|e].
  - destruct Hout as [Hpo Hall]. exists order. split; [reflexivity|].
    split; [|split; [exact Hall|]].
    + rewrite <- (reverse_Permutation order).
      now apply (postOrdered_NoDup g).
    + intros parent child Hedge.
      rewrite <- (reverse_involutive order). apply precedes_reverse.
      apply (postOrdered_precedes g _ _ _ Hpo Hedge).
      apply elem_of_reverse, Hall. now apply (edge_key g parent child).
  - exfalso. apply circularError_cyclic in Hout as [x Hx]. now apply (Hacyc x).
Qed.

Lemma topologicalSort_parents_first_witness :
  exists order,
    topologicalSort 4 (Some false) cartGraph = Ret order
    /\ NoDup order
    /\ (forall k, k ∈ order <-> k ∈ keys cartGraph)
    /\ forall parent child,
         edge cartGraph parent child -> precedes order parent child.
Proof.
  apply (topologicalSort_parents_first (Some false) cartGraph 4).
  - now apply closed_check.
  - now apply plainChildren_check.
  - now apply (ranked_acyclic cartRank).
  - simpl. lia.
Defined.

(** On the states [Cart], [CartSaved] and [CartSavedItems], named
    [cart], [saved] and [items], [buildGraph] returns
    [{cart: ['saved'], saved: ['items'], items: []}]. *)
Example buildGraph_cart :
  buildGraph None heapStates [1; 2; 3]
  = Ret [("cart", [Some "saved"]); ("saved", [Some "items"]); ("items", [])].
Proof. vm_compute. reflexivity. Qed.

(** A child named [constructor] reads as already visited in the plain
    object [visited]: its cycle with [a] goes unseen, development checks
    or not. *)
Example topologicalSort_inherited_name :
  cyclic constructorGraph
  /\ topologicalSort 3 None constructorGraph = Ret ["constructor"; "a"].
Proof.
  split; [|vm_compute; reflexivity].
  exists "a". apply tc_l with "constructor"; [|apply tc_once].
  - exists ["constructor"]. split; [reflexivity|now left].
  - exists ["a"]. split; [reflexivity|now left].
Qed.

(** * More on the accessors *)

Section AccessorComposition.

Variable boxGet : value -> string -> value.

(** The accessor of a path in two parts: the accessor of the first part
    returns a value; when that value is falsy it is what the accessor of
    the whole path returns, whatever segments follow; when it is truthy
    the accessor of the whole path returns what the accessor of the
    remaining segments returns on it. *)
Theorem compliant_composes (prefix rest : list string) (root : value) :
  exists v,
    call boxGet (compliantPropGetter prefix) root = Ret v
    /\ call boxGet (compliantPropGetter (prefix ++ rest)) root
       = (if truthy v then call boxGet (compliantPropGetter rest) v
          else Ret v).
Proof.
  exists (walk boxGet prefix root). split; [apply call_compliant|].
  rewrite (call_compliant boxGet (prefix ++ rest)), walk_app.
  destruct (truthy (walk boxGet prefix root)) eqn:E.
  - now rewrite call_compliant.
  - reflexivity.
Qed.

Lemma andChain_throws (rest : list string) :
  forall (lhs chain : jsexpr) (root : value) (e : JsError),
    eval boxGet lhs root = Throw e ->
    eval boxGet (andChain lhs chain rest) root = Throw e.
Proof.
  induction rest as [|s rest IH]; intros lhs chain root e Hlhs; [exact Hlhs|].
  simpl. apply IH. simpl. now rewrite Hlhs.
Qed.

Lemma andChain_walks (rest : list string) :
  forall (lhs chain : jsexpr) (root a : value),
    eval boxGet lhs root = Ret a ->
    (truthy a = true -> eval boxGet chain root = Ret a) ->
    eval boxGet (andChain lhs chain rest) root = Ret (walk boxGet rest a).
Proof.
  induction rest as [|s rest IH]; intros lhs chain root a Hlhs Hchain;
    [exact Hlhs|].
  simpl andChain. destruct (truthy a) eqn:E.
  - rewrite (IH _ _ root (read boxGet a s)).
    + simpl. now rewrite E.
    + simpl. rewrite Hlhs. simpl. rewrite (js_and_truthy _ _ E).
      rewrite (Hchain eq_refl). simpl. now apply getProp_truthy.
    + intros _. simpl. rewrite (Hchain eq_refl). simpl.
      now apply getProp_truthy.
  - rewrite (IH _ _ root a).
    + simpl. now rewrite E, (walk_falsy boxGet rest a E).
    + simpl. rewrite Hlhs. simpl. now rewrite (js_and_falsy _ _ E).
    + intros H. rewrite E in H. discriminate.
Qed.

End AccessorComposition.

(** The loop of [fastPropGetter], followed to the expression that
    [new Function] parses. *)
Lemma fastLoop_body (rest : list string) :
  forall (seg expr w : string) (tseg texpr : list token)
         (lhs : option jsexpr) (c : jsexpr),
    Forall (fun s => identifierName s = true) rest ->
    identifierName w = true ->
    lexes "" seg tseg w ->
    lexes "" expr texpr w ->
    (forall l cur ts,
        parse_and "store" PStart l cur (tseg ++ TId w :: ts)
        = parse_and "store" PName l (EMember c w) ts) ->
    (forall ts,
        parse_and "store" PStart None EParam (texpr ++ TId w :: ts)
        = parse_and "store" PName lhs (EMember c w) ts) ->
    newFunction "store" ("return " +:+ fastLoop rest seg expr +:+ ";")
    = Some (Compiled (andChain (conj lhs (EMember c w)) (EMember c w) rest)).
Proof.
  induction rest as [|s rest IH];
    intros seg expr w tseg texpr lhs c Hrest Hw Hseg Hexpr Pseg Pexpr.
  - simpl fastLoop. rewrite (newFunction_return _ _ _ _ Hw Hexpr).
    now rewrite Pexpr.
  - apply Forall_cons in Hrest as [Hs Hrest]. simpl fastLoop.
    assert (Hseg' : lexes "" (seg +:+ "." +:+ s) (tseg ++ [TId w; TDot]) s)
      by now apply lexes_member.
    assert (Pseg' : forall l cur ts,
               parse_and "store" PStart l cur
                 ((tseg ++ [TId w; TDot]) ++ TId s :: ts)
               = parse_and "store" PName l (EMember (EMember c w) s) ts).
    { intros l cur ts. rewrite <- app_assoc. simpl. now rewrite Pseg. }
    rewrite (IH (seg +:+ "." +:+ s) (expr +:+ " && " +:+ seg +:+ "." +:+ s) s
               (tseg ++ [TId w; TDot])
               (texpr ++ [TId w; TAnd] ++ tseg ++ [TId w; TDot])
               (Some (conj lhs (EMember c w))) (EMember c w));
      try assumption; [reflexivity| |].
    + apply (lexes_app _ _ _ w s); [exact Hexpr|].
      apply (lexes_app _ _ _ "" s); [now apply lexes_and | exact Hseg'].
    + intros ts. rewrite <- (app_assoc texpr). simpl. rewrite Pexpr. simpl.
      apply (Pseg' _ EParam).
Qed.

(** The function that [fastPropGetter] makes for identifier names. *)
Lemma fastPropGetter_fastBody (paths : list string) :
  paths <> [] ->
  Forall (fun s => identifierName s = true) paths ->
  fastPropGetter paths = Some (Compiled (fastBody paths)).
Proof.
  destruct paths as [|p0 rest]; [congruence|]. intros _ Hall.
  apply Forall_cons in Hall as [Hp0 Hrest].
  unfold fastPropGetter. simpl nth. simpl tail.
  assert (Hseg : lexes "" ("store." +:+ p0) [TId "store"; TDot] p0).
  { change [TId "store"; TDot] with ([TId "store"; TDot] ++ []).
    apply (lexes_app _ _ _ "" p0); [apply lexes_store_dot|].
    apply (lexes_ident p0 ""). now apply identifierName_all. }
  now rewrite (fastLoop_body rest _ _ p0 [TId "store"; TDot]
                 [TId "store"; TDot] None EParam).
Qed.

(** The compiled accessor on every root: it reads the first segment
    whatever the root is, so that it throws on [null] and [undefined]
    where the interpreted accessor returns the root, and from the value
    read it walks the remaining segments as the interpreted one does. *)
Theorem fastPropGetter_reads_first (boxGet : value -> string -> value)
    (p0 : string) (rest : list string) (root : value) :
  Forall (fun s => identifierName s = true) (p0 :: rest) ->
  exists fn,
    fastPropGetter (p0 :: rest) = Some fn
    /\ call boxGet fn root
       = (v ← getProp boxGet root p0;
          call boxGet (compliantPropGetter rest) v)
    /\ ((root = VNull \/ root = VUndefined) ->
        call boxGet fn root = Throw TypeError
        /\ call boxGet (compliantPropGetter (p0 :: rest)) root = Ret root).
Proof.
  intros Hids. exists (Compiled (fastBody (p0 :: rest))).
  split; [now apply fastPropGetter_fastBody|].
  assert (Hcall : call boxGet (Compiled (fastBody (p0 :: rest))) root
                  = (v ← getProp boxGet root p0;
                     call boxGet (compliantPropGetter rest) v)).
  { change (call boxGet (Compiled (fastBody (p0 :: rest))) root)
      with (eval boxGet (fastBody (p0 :: rest)) root).
    unfold fastBody.
    destruct (getProp boxGet root p0) as [v|e] eqn:Hget.
    - transitivity (call boxGet (compliantPropGetter rest) v); [|reflexivity].
      rewrite call_compliant. apply andChain_walks; simpl; now rewrite Hget.
    - transitivity (@Throw value e); [|reflexivity].
      apply andChain_throws. simpl. now rewrite Hget. }
  split; [exact Hcall|].
  intros [-> | ->];
    (split; [now rewrite Hcall|rewrite call_compliant; reflexivity]).
Qed.

Lemma fastPropGetter_reads_first_witness :
  exists fn,
    fastPropGetter ["a"; "b"] = Some fn
    /\ call noBox fn VNull = Throw TypeError
    /\ call noBox (compliantPropGetter ["a"; "b"]) VNull = Ret VNull.
Proof.
  destruct (fastPropGetter_reads_first noBox "a" ["b"] VNull)
    as (fn & Hfn & _ & Hnull); [repeat constructor|].
  exists fn. split; [exact Hfn|]. apply Hnull. now left.
Defined.

(** C8 (amended): [propGetter] returns the interpreted accessor exactly
    when the configuration carries a true strict-content-security-policy
    flag, whatever the segments are; otherwise it returns what
    [fastPropGetter] returns, which is never the interpreted accessor,
    and is the compiled accessor, the function whose body is
    [store.s1 && store.s1.s2 && ...], for every sequence of segments that
    are identifier names (the empty sequence gives [store.undefined]). *)
Theorem propGetter_selects (paths : list string) (config : option NgxsConfig) :
  (propGetter paths config = Some (compliantPropGetter paths)
   <-> exists c k, config = Some c /\ compatibility c = Some k
                   /\ strictContentSecurityPolicy k = true)
  /\ (propGetter paths config = fastPropGetter paths
      <-> strictCsp config = false)
  /\ (forall paths',
        (propGetter paths config = Some (compliantPropGetter paths))
        <-> (propGetter paths' config = Some (compliantPropGetter paths')))
  /\ (strictCsp config = false ->
      Forall (fun s => identifierName s = true) paths ->
      propGetter paths config = Some (Compiled (fastBody paths))).
Proof.
  assert (Hflag : strictCsp config = true
                  <-> exists c k, config = Some c /\ compatibility c = Some k
                                  /\ strictContentSecurityPolicy k = true).
  { unfold strictCsp. split.
    - destruct config as [c|]; [|discriminate].
      destruct (compatibility c) as [k|] eqn:Ek; [|discriminate].
      intros H. now exists c, k.
    - intros (c & k & -> & Hk & Hs). now rewrite Hk. }
  assert (Hsel : forall p,
             propGetter p config = Some (compliantPropGetter p)
             <-> strictCsp config = true).
  { intros p. unfold propGetter. destruct (strictCsp config); split; try done.
    intros H. now apply fastPropGetter_compiled in H. }
  split; [|split; [|split]].
  - now rewrite Hsel.
  - unfold propGetter. destruct (strictCsp config); split; try done.
    intros H. symmetry in H. now apply fastPropGetter_compiled in H.
  - intros paths'. now rewrite !Hsel.
  - intros Hoff Hids. unfold propGetter. rewrite Hoff.
    destruct paths as [|p0 rest]; [reflexivity|].
    now apply fastPropGetter_fastBody.
Qed.

(** On the segment [""] the source generated is [return store.;], which
    is no function body: [new Function] throws, and no accessor is
    returned, compiled or other. *)
Lemma propGetter_empty_segment :
  strictCsp None = false
  /\ propGetter [""] None = None
  /\ propGetter [""] None <> Some (Compiled (fastBody [""])).
Proof.
  assert (Hnone : propGetter [""] None = None) by (vm_compute; reflexivity).
  split; [reflexivity|]. split; [exact Hnone|]. rewrite Hnone. discriminate.
Qed.

Lemma propGetter_selects_witness :
  propGetter ["a"; "b"] None = Some (Compiled (fastBody ["a"; "b"]))
  /\ propGetter [] None = Some (Compiled (fastBody [])).
Proof.
  split.
  - apply (propGetter_selects ["a"; "b"] None); [reflexivity|].
    repeat constructor.
  - apply (propGetter_selects [] None); [reflexivity|constructor].
Defined.

(** * More on [buildGraph] *)

Lemma obj_set_proto {A : Type} (o : PlainObjectOf A) (v : A) :
  obj_set o "__proto__" v = o.
Proof. reflexivity. Qed.

Lemma keys_obj_get {A : Type} (o : PlainObjectOf A) (k : string) :
  k ∈ keys o <-> is_Some (obj_get o k).
Proof.
  split; [apply obj_get_is_Some|]. intros [v Hv]. now apply obj_get_key in Hv.
Qed.

Section AssignAll.

Context {A B : Type}.
Variable key : A -> string.
Variable val : A -> B.

Lemma assignAll_snoc (l : list A) (x : A) (acc : PlainObjectOf B) :
  assignAll key val (l ++ [x]) acc
  = obj_set (assignAll key val l acc) (key x) (val x).
Proof. unfold assignAll. now rewrite fold_left_app. Qed.

(** A key that no element carries is left as it was; so is [__proto__],
    which an assignment never creates. *)
Lemma assignAll_absent (l : list A) (acc : PlainObjectOf B) (k : string) :
  (k = "__proto__" \/ forall y, y ∈ l -> key y <> k) ->
  obj_get (assignAll key val l acc) k = obj_get acc k.
Proof.
  intros Hk. revert acc. induction l as [|x l IH]; intros acc; [reflexivity|].
  simpl. rewrite IH.
  - destruct (String.eqb_spec (key x) "__proto__") as [Heq|Hne].
    + now rewrite Heq, obj_set_proto.
    + apply obj_set_other. destruct Hk as [->|Hk]; [congruence|].
      apply not_eq_sym, Hk. now left.
  - destruct Hk as [->|Hk]; [now left|]. right. intros y Hy. apply Hk.
    now right.
Qed.

(** The last assignment to a key is the one that is read. *)
Lemma assignAll_last (l : list A) (acc : PlainObjectOf B) (k : string) (x : A) :
  k <> "__proto__" -> lastWith key l k x ->
  obj_get (assignAll key val l acc) k = Some (val x).
Proof.
  intros Hk (l1 & l2 & -> & Hx & Hl2).
  unfold assignAll. rewrite fold_left_app. simpl.
  fold (assignAll key val l2
          (obj_set (fold_left (fun r x => obj_set r (key x) (val x)) l1 acc)
             (key x) (val x))).
  rewrite assignAll_absent by now right.
  rewrite Hx. now apply obj_set_same.
Qed.

Lemma lastWith_exists (l : list A) (k : string) :
  (exists x, x ∈ l /\ key x = k) -> exists x, lastWith key l k x.
Proof.
  induction l as [|x0 l IH]; intros (x & Hin & Hx).
  - now apply elem_of_nil in Hin.
  - destruct (decide (Exists (fun y => key y = k) l)) as [Hex|Hno].
    + apply Exists_exists in Hex. destruct (IH Hex) as (x' & l1 & l2 & -> & Hx' & Hl2).
      exists x', (x0 :: l1), l2. now repeat split.
    + assert (Hnone : forall y, y ∈ l -> key y <> k).
      { intros y Hy Hk. apply Hno, Exists_exists. now exists y. }
      apply elem_of_cons in Hin as [->|Hin]; [|now apply Hnone in Hin].
      exists x0, [], l. now repeat split.
Qed.

Lemma lastWith_elem (l : list A) (k : string) (x : A) :
  lastWith key l k x -> x ∈ l /\ key x = k.
Proof.
  intros (l1 & l2 & -> & Hx & _). split; [|exact Hx].
  apply elem_of_app. right. now left.
Qed.

(** What is read from the object after all the assignments. *)
Lemma assignAll_get (l : list A) (k : string) (v : B) :
  obj_get (assignAll key val l []) k = Some v ->
  k <> "__proto__" /\ exists x, lastWith key l k x /\ v = val x.
Proof.
  intros Hget.
  destruct (decide (k = "__proto__")) as [->|Hk].
  { rewrite assignAll_absent in Hget by now left. discriminate. }
  split; [exact Hk|].
  destruct (decide (Exists (fun y => key y = k) l)) as [Hex|Hno].
  - apply Exists_exists in Hex. destruct (lastWith_exists l k Hex) as [x Hx].
    exists x. split; [exact Hx|].
    rewrite (assignAll_last l [] k x Hk Hx) in Hget. congruence.
  - rewrite assignAll_absent in Hget; [discriminate|].
    right. intros y Hy Hky. apply Hno, Exists_exists. now exists y.
Qed.

Lemma assignAll_keys (l : list A) (k : string) :
  k ∈ keys (assignAll key val l []) <->
  k <> "__proto__" /\ exists x, x ∈ l /\ key x = k.
Proof.
  rewrite keys_obj_get. split.
  - intros [v Hv]. apply assignAll_get in Hv as (Hk & x & Hx & _).
    split; [exact Hk|]. exists x. now apply lastWith_elem.
  - intros (Hk & Hex). destruct (lastWith_exists l k Hex) as [x Hx].
    exists (val x). now apply assignAll_last.
Qed.

End AssignAll.

Section GraphOfStates.

Variable ngDevMode : option bool.
Variable h : Heap.
Variable stateClasses : list cref.

Lemma findName_ret (child : cref) (n : option string) :
  findName ngDevMode h stateClasses child = Ret n ->
  child ∈ stateClasses /\ is_Some (metaOf h child) /\ n = nameOf h child.
Proof.
  unfold findName.
  destruct (find (fun g => Nat.eqb g child) stateClasses) as [g|] eqn:Hfind.
  - apply find_some in Hfind as [Hin Heq]. apply Nat.eqb_eq in Heq. subst g.
    rewrite bool_decide_eq_true_2 by eauto. rewrite andb_false_r.
    unfold nameOf. destruct (metaOf h child) as [md|]; [|discriminate].
    intros [= <-]. split; [now apply list_elem_of_In|]. split; [eauto|reflexivity].
  - now destruct (devChecks ngDevMode && _).
Qed.

Lemma findName_ok (child : cref) :
  child ∈ stateClasses -> is_Some (metaOf h child) ->
  findName ngDevMode h stateClasses child = Ret (nameOf h child).
Proof.
  intros Hin [md Hmd]. unfold findName, nameOf.
  rewrite (find_listed stateClasses child Hin), Hmd.
  rewrite bool_decide_eq_true_2 by eauto. now rewrite andb_false_r.
Qed.

Lemma mapE_findName_ret (kids : list cref) (names : list (option string)) :
  mapE (findName ngDevMode h stateClasses) kids = Ret names ->
  Forall (fun c => c ∈ stateClasses) kids /\ names = nameOf h <$> kids.
Proof.
  revert names. induction kids as [|c kids IH]; intros names.
  - intros [= <-]. now split.
  - simpl.
    destruct (findName ngDevMode h stateClasses c) as [n|e] eqn:Hn;
      [|discriminate].
    destruct (mapE (findName ngDevMode h stateClasses) kids) as [ns|e] eqn:Hns;
      [|discriminate].
    intros [= <-]. apply findName_ret in Hn as (Hin & _ & ->).
    destruct (IH ns eq_refl) as [Hall ->]. split; [now constructor|reflexivity].
Qed.

Lemma mapE_findName_ok (kids : list cref) :
  Forall (fun c => c ∈ stateClasses /\ is_Some (metaOf h c)) kids ->
  mapE (findName ngDevMode h stateClasses) kids = Ret (nameOf h <$> kids).
Proof.
  induction 1 as [|c kids [Hin Hmd] _ IH]; [reflexivity|].
  simpl. now rewrite (findName_ok c Hin Hmd), IH.
Qed.

(** The loop of [buildGraph], when it returns. *)
Lemma buildGraph_reduce_ret (l : list cref)
    (acc graph : PlainObjectOf (list (option string))) :
  reduce
    (fun result stateClass =>
       match metaOf h stateClass with
       | None => Throw TypeError
       | Some md =>
           names ← mapE (findName ngDevMode h stateClasses)
                     (default [] (children md));
           Ret (obj_set result (propertyKey (name md)) names)
       end) l acc = Ret graph ->
  allRegistered h l
  /\ (forall parent md child,
        parent ∈ l -> metaOf h parent = Some md ->
        child ∈ default [] (children md) -> child ∈ stateClasses)
  /\ graph = assignAll (keyOf h) (childNames h) l acc.
Proof.
  revert acc. induction l as [|c l IH]; intros acc.
  - intros [= <-]. split; [|split; [|reflexivity]].
    + intros c Hc. now apply elem_of_nil in Hc.
    + intros p md c Hp. now apply elem_of_nil in Hp.
  - simpl. destruct (metaOf h c) as [md|] eqn:Hmd; [|discriminate].
    destruct (mapE (findName ngDevMode h stateClasses) (default [] (children md)))
      as [names|e] eqn:Hnames; [|discriminate].
    simpl. intros Hred. apply IH in Hred as (Hreg & Hlisted & ->).
    apply mapE_findName_ret in Hnames as [Hall ->].
    split; [|split].
    + intros c' Hc'. apply elem_of_cons in Hc' as [->|Hc']; [eauto|now apply Hreg].
    + intros p md' child Hp Hmd' Hchild.
      apply elem_of_cons in Hp as [->|Hp]; [|now apply (Hlisted p md')].
      rewrite Hmd in Hmd'. injection Hmd' as <-.
      rewrite Forall_forall in Hall. now apply Hall.
    + unfold keyOf, childNames, nameOf. now rewrite Hmd.
Qed.

(** The loop of [buildGraph], when every module carries metadata and
    every declared child is listed. *)
Lemma buildGraph_reduce_ok (l : list cref)
    (acc : PlainObjectOf (list (option string))) :
  allRegistered h stateClasses ->
  allRegistered h l ->
  (forall parent md child,
      parent ∈ l -> metaOf h parent = Some md ->
      child ∈ default [] (children md) -> child ∈ stateClasses) ->
  reduce
    (fun result stateClass =>
       match metaOf h stateClass with
       | None => Throw TypeError
       | Some md =>
           names ← mapE (findName ngDevMode h stateClasses)
                     (default [] (children md));
           Ret (obj_set result (propertyKey (name md)) names)
       end) l acc
  = Ret (assignAll (keyOf h) (childNames h) l acc).
Proof.
  intros Hall. revert acc. induction l as [|c l IH]; intros acc Hreg Hlisted;
    [reflexivity|].
  simpl. destruct (Hreg c) as [md Hmd]; [now left|]. rewrite Hmd.
  rewrite mapE_findName_ok.
  - simpl. rewrite IH.
    + unfold keyOf, childNames, nameOf. now rewrite Hmd.
    + intros c' Hc'. apply Hreg. now right.
    + intros p md' child Hp. apply Hlisted. now right.
  - apply Forall_forall. intros child Hchild.
    assert (Hin : child ∈ stateClasses) by (apply (Hlisted c md); [now left|easy..]).
    split; [exact Hin|now apply Hall].
Qed.

Lemma buildGraph_ret (graph : PlainObjectOf (list (option string))) :
  buildGraph ngDevMode h stateClasses = Ret graph ->
  allRegistered h stateClasses /\ allListed h stateClasses
  /\ graph = assignAll (keyOf h) (childNames h) stateClasses [].
Proof. apply buildGraph_reduce_ret. Qed.

Lemma buildGraph_ok :
  allRegistered h stateClasses -> allListed h stateClasses ->
  buildGraph ngDevMode h stateClasses
  = Ret (assignAll (keyOf h) (childNames h) stateClasses []).
Proof. intros Hreg Hlisted. now apply buildGraph_reduce_ok. Qed.

(** [buildGraph] returns a graph exactly when every module of the list
    carries metadata and every child that a module declares is in the
    list; whether it returns does not depend on [ngDevMode]. *)
Theorem buildGraph_returns_iff :
  (exists graph, buildGraph ngDevMode h stateClasses = Ret graph)
  <-> allRegistered h stateClasses /\ allListed h stateClasses.
Proof.
  split.
  - intros [graph Hret]. apply buildGraph_ret in Hret as (Hreg & Hlisted & _).
    now split.
  - intros [Hreg Hlisted]. eexists. now apply buildGraph_ok.
Qed.

(** The graph that [buildGraph] returns: its keys are the names of the
    listed modules ([__proto__] apart, which the assignment does not
    create); a name holds the names of the children of the last module of
    the list with that name; and every name in a child list is a key of
    the graph, unless it is [null] or [__proto__]. *)
Theorem buildGraph_graph (graph : PlainObjectOf (list (option string))) :
  buildGraph ngDevMode h stateClasses = Ret graph ->
  (forall k, k ∈ keys graph
             <-> k <> "__proto__" /\ exists c, c ∈ stateClasses /\ keyOf h c = k)
  /\ (forall k c, k <> "__proto__" -> lastWith (keyOf h) stateClasses k c ->
                  obj_get graph k = Some (childNames h c))
  /\ (forall k kids n, obj_get graph k = Some kids -> Some n ∈ kids ->
                       n <> "__proto__" -> n ∈ keys graph).
Proof.
  intros Hret. apply buildGraph_ret in Hret as (Hreg & Hlisted & ->).
  split; [|split].
  - apply assignAll_keys.
  - intros k c Hk Hlast. now apply assignAll_last.
  - intros k kids n Hget Hn Hproto.
    apply assignAll_get in Hget as (_ & c & Hlast & ->).
    apply lastWith_elem in Hlast as [Hc _].
    unfold childNames in Hn. destruct (Hreg c Hc) as [md Hmd]. rewrite Hmd in Hn.
    apply list_elem_of_fmap in Hn as (child & Hname & Hchild).
    apply assignAll_keys. split; [exact Hproto|].
    exists child. split; [now apply (Hlisted c md)|].
    unfold keyOf. now rewrite <- Hname.
Qed.

End GraphOfStates.

(** * From [buildGraph] to [topologicalSort] *)

Lemma obj_replace_keys {A : Type} (o : PlainObjectOf A) (key : string) (v : A) :
  keys (obj_replace o key v) = keys o.
Proof.
  induction o as [|[k w] o IH]; [reflexivity|].
  simpl. destruct (String.eqb k key); [reflexivity|].
  change (keys ((k, w) :: obj_replace o key v))
    with (k :: keys (obj_replace o key v)).
  now rewrite IH.
Qed.

Lemma obj_insert_index_keys {A : Type} (o : PlainObjectOf A) (i : N)
    (key : string) (v : A) :
  keys (obj_insert_index o i key v) ≡ₚ key :: keys o.
Proof.
  induction o as [|[k w] o IH]; [reflexivity|].
  simpl. destruct (array_index k) as [j|]; [|reflexivity].
  destruct (j <? i)%N; [|reflexivity].
  change (keys ((k, w) :: obj_insert_index o i key v))
    with (k :: keys (obj_insert_index o i key v)).
  rewrite IH. apply Permutation_swap.
Qed.

(** An assignment adds at most its own key, and no key twice. *)
Lemma obj_set_keys {A : Type} (o : PlainObjectOf A) (key : string) (v : A) :
  (keys (obj_set o key v) ≡ₚ keys o)
  \/ ((key ∉ keys o) /\ (keys (obj_set o key v) ≡ₚ key :: keys o)).
Proof.
  unfold obj_set. destruct (String.eqb key "__proto__"); [now left|].
  case_bool_decide as Hin; [left; now rewrite obj_replace_keys|].
  right. split; [exact Hin|].
  destruct (array_index key) as [i|]; [apply obj_insert_index_keys|].
  unfold keys. rewrite fmap_app. simpl.
  symmetry. apply Permutation_cons_append.
Qed.

Lemma obj_set_NoDup {A : Type} (o : PlainObjectOf A) (key : string) (v : A) :
  NoDup (keys o) -> NoDup (keys (obj_set o key v)).
Proof.
  intros Hnd. destruct (obj_set_keys o key v) as [Hp|[Hin Hp]]; rewrite Hp;
    [exact Hnd|now constructor].
Qed.

Lemma obj_set_length {A : Type} (o : PlainObjectOf A) (key : string) (v : A) :
  length (obj_set o key v) <= S (length o).
Proof.
  assert (Hlen : forall o' : PlainObjectOf A, length (keys o') = length o')
    by (intros o'; apply length_fmap).
  destruct (obj_set_keys o key v) as [Hp|[_ Hp]];
    apply Permutation_length in Hp; simpl in Hp; rewrite !Hlen in Hp; lia.
Qed.

Lemma assignAll_NoDup {A B : Type} (key : A -> string) (val : A -> B)
    (l : list A) (acc : PlainObjectOf B) :
  NoDup (keys acc) -> NoDup (keys (assignAll key val l acc)).
Proof.
  revert acc. induction l as [|x l IH]; intros acc Hnd; [exact Hnd|].
  simpl. now apply IH, obj_set_NoDup.
Qed.

Lemma assignAll_length {A B : Type} (key : A -> string) (val : A -> B)
    (l : list A) (acc : PlainObjectOf B) :
  length (assignAll key val l acc) <= length l + length acc.
Proof.
  revert acc. induction l as [|x l IH]; intros acc; [simpl; lia|].
  pose proof (IH (obj_set acc (key x) (val x))) as H1.
  pose proof (obj_set_length acc (key x) (val x)) as H2.
  change (assignAll key val (x :: l) acc)
    with (assignAll key val l (obj_set acc (key x) (val x))).
  simpl. lia.
Qed.

Lemma namedGraph_keys (graph : PlainObjectOf (list (option string)))
    (g : StateKeyGraph) :
  namedGraph graph g -> keys graph = keys g.
Proof.
  intros ->. unfold keys. rewrite <- list_fmap_compose. reflexivity.
Qed.

Lemma namedGraph_get (graph : PlainObjectOf (list (option string)))
    (g : StateKeyGraph) (k : string) :
  namedGraph graph g ->
  obj_get graph k = (fun kids : list string => Some <$> kids) <$> obj_get g k.
Proof.
  intros ->. induction g as [|[k0 kids] g IH]; [reflexivity|].
  simpl. now destruct (String.eqb k0 k).
Qed.

Lemma namedGraph_length (graph : PlainObjectOf (list (option string)))
    (g : StateKeyGraph) :
  namedGraph graph g -> length graph = length g.
Proof. intros ->. apply length_fmap. Qed.

Section GraphPipeline.

Variable ngDevMode : option bool.
Variable h : Heap.
Variable stateClasses : list cref.
Variable graph : PlainObjectOf (list (option string)).
Variable g : StateKeyGraph.

Hypothesis built : buildGraph ngDevMode h stateClasses = Ret graph.
Hypothesis named : namedGraph graph g.

Lemma built_keys (k : string) :
  k ∈ keys g
  <-> k <> "__proto__" /\ exists c, c ∈ stateClasses /\ keyOf h c = k.
Proof.
  rewrite <- (namedGraph_keys graph g named).
  destruct (buildGraph_ret _ _ _ _ built) as (_ & _ & ->).
  apply assignAll_keys.
Qed.

Lemma built_NoDup : NoDup (keys g).
Proof.
  rewrite <- (namedGraph_keys graph g named).
  destruct (buildGraph_ret _ _ _ _ built) as (_ & _ & ->).
  apply assignAll_NoDup. constructor.
Qed.

Lemma built_length : length g <= length stateClasses.
Proof.
  rewrite <- (namedGraph_length graph g named).
  destruct (buildGraph_ret _ _ _ _ built) as (_ & _ & ->).
  pose proof (assignAll_length (keyOf h) (childNames h) stateClasses []) as H.
  simpl in H. lia.
Qed.

Lemma built_edge (parent child : string) :
  edge g parent child ->
  exists p c, p ∈ stateClasses /\ keyOf h p = parent
              /\ c ∈ stateClasses /\ nameOf h c = Some child
              /\ exists md, metaOf h p = Some md /\ c ∈ default [] (children md).
Proof.
  intros (kids & Hget & Hchild).
  pose proof (namedGraph_get graph g parent named) as Hg. rewrite Hget in Hg.
  destruct (buildGraph_ret _ _ _ _ built) as (Hreg & Hlisted & Heq).
  rewrite Heq in Hg. simpl in Hg.
  apply assignAll_get in Hg as (_ & p & Hlast & Hkids).
  apply lastWith_elem in Hlast as [Hp Hkey].
  destruct (Hreg p Hp) as [md Hmd].
  assert (Hin : Some child ∈ childNames h p).
  { rewrite <- Hkids. apply list_elem_of_fmap. now exists child. }
  unfold childNames in Hin. rewrite Hmd in Hin.
  apply list_elem_of_fmap in Hin as (c & Hname & Hc).
  exists p, c. split; [exact Hp|]. split; [exact Hkey|].
  split; [now apply (Hlisted p md)|]. split; [now symmetry|].
  now exists md.
Qed.

Lemma built_closed :
  forall parent child, edge g parent child -> child <> "__proto__" ->
                       child ∈ keys g.
Proof.
  intros parent child Hedge Hproto.
  apply built_edge in Hedge as (p & c & _ & _ & Hc & Hname & _).
  apply built_keys. split; [exact Hproto|]. exists c. split; [exact Hc|].
  unfold keyOf. now rewrite Hname.
Qed.

End GraphPipeline.



(** * [nameToState] *)

Lemma reduce_app {A B : Type} (f : B -> A -> result B) (l1 l2 : list A)
    (init : B) :
  reduce f (l1 ++ l2) init = acc ← reduce f l1 init; reduce f l2 acc.
Proof.
  revert init. induction l1 as [|x l1 IH]; intros init; [reflexivity|].
  simpl. destruct (f init x) as [acc|e]; [apply IH|reflexivity].
Qed.

Lemma keyOf_registered (h : Heap) (c : cref) (md : MetaDataModel) :
  metaOf h c = Some md -> propertyKey (name md) = keyOf h c.
Proof. intros Hmd. unfold keyOf, nameOf. now rewrite Hmd. Qed.

Lemma keyOf_unregistered (h : Heap) (c : cref) :
  metaOf h c = None -> keyOf h c = "null".
Proof. intros Hmd. unfold keyOf, nameOf. now rewrite Hmd. Qed.

Lemma obj_set_key_in {A : Type} (o : PlainObjectOf A) (key k : string) (v : A) :
  k ∈ keys (obj_set o key v) -> k ∈ keys o \/ (k = key /\ key <> "__proto__").
Proof.
  intros Hk. destruct (decide (key = "__proto__")) as [->|Hne]; [now left|].
  destruct (obj_set_keys o key v) as [Hp|[_ Hp]]; rewrite Hp in Hk; [now left|].
  apply elem_of_cons in Hk as [->|Hk]; [now right|now left].
Qed.

Section NamesOfStates.

Variable frozen : cref -> string -> bool.
Variable h : Heap.

(** An assignment returns, or throws a [TypeError]. *)
Lemma assignState_outcome (byName : StatesByName) (key : string) (c : cref) :
  (exists r, assignState frozen byName key c = Ret r)
  \/ assignState frozen byName key c = Throw TypeError.
Proof.
  unfold assignState. destruct (String.eqb key "__proto__"); [left; now eexists|].
  destruct (negb _ && _); [now right|left; now eexists].
Qed.

(** On an object whose prototype is [Object.prototype] it writes the
    property. *)
Lemma assignState_plain (byName : StatesByName) (key : string) (c : cref) :
  key <> "__proto__" -> prototypeOf byName = None ->
  assignState frozen byName key c
  = Ret {| prototypeOf := None;
           ownStates := obj_set (ownStates byName) key c |}.
Proof.
  intros Hkey Hproto. unfold assignState.
  apply String.eqb_neq in Hkey. rewrite Hkey, Hproto.
  now rewrite andb_false_r.
Qed.

Lemma assignState_ret (byName r : StatesByName) (key : string) (c : cref) :
  assignState frozen byName key c = Ret r ->
  (key = "__proto__" /\ prototypeOf r = Some c
   /\ ownStates r = ownStates byName)
  \/ (key <> "__proto__" /\ prototypeOf r = prototypeOf byName
      /\ ownStates r = obj_set (ownStates byName) key c).
Proof.
  unfold assignState. destruct (String.eqb_spec key "__proto__") as [->|Hne].
  - intros [= <-]. now left.
  - destruct (negb _ && _); [discriminate|]. intros [= <-]. now right.
Qed.

(** Through a class it throws on a property that is read-only there. *)
Lemma assignState_readOnly (byName : StatesByName) (key : string) (c p : cref) :
  prototypeOf byName = Some p -> key ∈ functionReadOnly ->
  key ∉ keys (ownStates byName) ->
  assignState frozen byName key c = Throw TypeError.
Proof.
  intros Hproto Hro Hown. unfold assignState.
  assert (Hkey : String.eqb key "__proto__" = false).
  { apply String.eqb_neq. intros ->. revert Hro.
    apply (bool_decide_unpack _). by vm_compute. }
  rewrite Hkey, Hproto, (bool_decide_eq_false_2 _ Hown).
  unfold readOnlyThrough. now rewrite (bool_decide_eq_true_2 _ Hro).
Qed.

(** The loop of [nameToState], when no module is named [__proto__]. *)
Lemma names_loop_ok (l : list cref) (acc : StatesByName) :
  allRegistered h l ->
  (forall c, c ∈ l -> keyOf h c <> "__proto__") ->
  prototypeOf acc = None ->
  reduce
    (fun result stateClass =>
       match metaOf h stateClass with
       | None => Throw TypeError
       | Some meta =>
           assignState frozen result (propertyKey (name meta)) stateClass
       end) l acc
  = Ret {| prototypeOf := None;
           ownStates := assignAll (keyOf h) id l (ownStates acc) |}.
Proof.
  revert acc. induction l as [|c l IH]; intros acc Hreg Hnames Hproto.
  - simpl. destruct acc as [p o]. simpl in Hproto. now subst p.
  - simpl. destruct (Hreg c) as [md Hmd]; [now left|]. rewrite Hmd.
    rewrite (keyOf_registered h c md Hmd).
    rewrite assignState_plain; [|apply Hnames; now left|exact Hproto].
    simpl. rewrite IH; [reflexivity| | |reflexivity].
    + intros c' Hc'. apply Hreg. now right.
    + intros c' Hc'. apply Hnames. now right.
Qed.

(** The loop returns, or throws a [TypeError]. *)
Lemma names_loop_outcome (l : list cref) (acc : StatesByName) :
  (exists r,
      reduce
        (fun result stateClass =>
           match metaOf h stateClass with
           | None => Throw TypeError
           | Some meta =>
               assignState frozen result (propertyKey (name meta)) stateClass
           end) l acc = Ret r)
  \/ reduce
       (fun result stateClass =>
          match metaOf h stateClass with
          | None => Throw TypeError
          | Some meta =>
              assignState frozen result (propertyKey (name meta)) stateClass
          end) l acc = Throw TypeError.
Proof.
  revert acc. induction l as [|c l IH]; intros acc; [left; now eexists|].
  simpl. destruct (metaOf h c) as [md|]; [|now right].
  destruct (assignState_outcome acc (propertyKey (name md)) c) as [[r Hr]|Hr];
    rewrite Hr; [apply IH|now right].
Qed.

Lemma names_loop_unregistered (l : list cref) (acc : StatesByName) (c : cref) :
  c ∈ l -> metaOf h c = None ->
  reduce
    (fun result stateClass =>
       match metaOf h stateClass with
       | None => Throw TypeError
       | Some meta =>
           assignState frozen result (propertyKey (name meta)) stateClass
       end) l acc
  = Throw TypeError.
Proof.
  revert acc. induction l as [|c0 l IH]; intros acc Hin Hnone.
  - now apply elem_of_nil in Hin.
  - simpl. destruct (metaOf h c0) as [md|] eqn:Hmd; [|reflexivity].
    destruct (assignState_outcome acc (propertyKey (name md)) c0)
      as [[r Hr]|Hr]; rewrite Hr; [|reflexivity].
    simpl. apply IH; [|exact Hnone].
    apply elem_of_cons in Hin as [->|Hin]; [congruence|exact Hin].
Qed.

(** What the loop has done when it returns: the prototype is the last
    module named [__proto__], if there is one, and each own key is the
    name of a module. *)
Lemma names_loop_ret (l : list cref) (acc r : StatesByName) :
  reduce
    (fun result stateClass =>
       match metaOf h stateClass with
       | None => Throw TypeError
       | Some meta =>
           assignState frozen result (propertyKey (name meta)) stateClass
       end) l acc = Ret r ->
  ((prototypeOf r = prototypeOf acc
    /\ forall c, c ∈ l -> keyOf h c <> "__proto__")
   \/ exists c, c ∈ l /\ keyOf h c = "__proto__" /\ prototypeOf r = Some c)
  /\ (forall k, k ∈ keys (ownStates r) ->
        k ∈ keys (ownStates acc)
        \/ (k <> "__proto__" /\ exists c, c ∈ l /\ keyOf h c = k)).
Proof.
  revert acc. induction l as [|c l IH]; intros acc.
  - intros [= <-]. split; [left; split; [reflexivity|]|now left].
    intros c Hc. now apply elem_of_nil in Hc.
  - simpl. destruct (metaOf h c) as [md|] eqn:Hmd; [|discriminate].
    rewrite (keyOf_registered h c md Hmd).
    destruct (assignState frozen acc (keyOf h c) c) as [st|e] eqn:Hst;
      [|discriminate].
    simpl. intros Hred. apply IH in Hred as [Hproto Hkeys].
    apply assignState_ret in Hst as [(Hkey & Hp & Ho)|(Hkey & Hp & Ho)].
    + split.
      * right. destruct Hproto as [[Hsame _]|(c' & Hc' & Hk' & Hr)].
        -- exists c. split; [now left|]. split; [exact Hkey|]. congruence.
        -- exists c'. split; [now right|]. now split.
      * intros k Hk. destruct (Hkeys k Hk) as [Hacc|(Hne & c' & Hc' & Hk')].
        -- left. now rewrite <- Ho.
        -- right. split; [exact Hne|]. exists c'. split; [now right|exact Hk'].
    + split.
      * destruct Hproto as [[Hsame Hnone]|(c' & Hc' & Hk' & Hr)].
        -- left. split; [congruence|].
           intros c' Hc'. apply elem_of_cons in Hc' as [->|Hc'];
             [exact Hkey|now apply Hnone].
        -- right. exists c'. split; [now right|]. now split.
      * intros k Hk. destruct (Hkeys k Hk) as [Hst|(Hne & c' & Hc' & Hk')].
        -- rewrite Ho in Hst. apply obj_set_key_in in Hst as [Hacc|[-> Hne]];
             [now left|].
           right. split; [exact Hne|]. exists c. split; [now left|reflexivity].
        -- right. split; [exact Hne|]. exists c'. split; [now right|exact Hk'].
Qed.

(** [nameToState] on a list whose modules all carry metadata and none of
    which is named [__proto__]: the object returned still has
    [Object.prototype] as its prototype, its keys are the names of the
    modules, a name holds the last module of the list with that name, and
    whatever a name holds is a module of the list with that name. *)
Theorem nameToState_lookup (stateClasses : list cref) :
  allRegistered h stateClasses ->
  (forall c, c ∈ stateClasses -> keyOf h c <> "__proto__") ->
  exists byName,
    nameToState frozen h stateClasses
    = Ret {| prototypeOf := None; ownStates := byName |}
    /\ (forall k, k ∈ keys byName
                  <-> exists c, c ∈ stateClasses /\ keyOf h c = k)
    /\ (forall k c, lastWith (keyOf h) stateClasses k c ->
                    obj_get byName k = Some c)
    /\ (forall k c, obj_get byName k = Some c ->
                    c ∈ stateClasses /\ keyOf h c = k).
Proof.
  intros Hreg Hnames. exists (assignAll (keyOf h) id stateClasses []).
  split; [now apply names_loop_ok|]. split; [|split].
  - intros k. rewrite assignAll_keys. split; [now intros [_ Hex]|].
    intros (c & Hc & Hk). split; [|now exists c].
    rewrite <- Hk. now apply Hnames.
  - intros k c Hlast. apply (assignAll_last (keyOf h) id); [|exact Hlast].
    destruct (lastWith_elem _ _ _ _ Hlast) as [Hc <-]. now apply Hnames.
  - intros k c Hget. apply assignAll_get in Hget as (_ & c' & Hlast & ->).
    now apply lastWith_elem in Hlast.
Qed.

(** A module without metadata in the list makes [nameToState] throw the
    [TypeError] of reading [name] of [undefined], wherever it stands. *)
Theorem nameToState_unregistered (stateClasses : list cref) (c : cref) :
  c ∈ stateClasses -> metaOf h c = None ->
  nameToState frozen h stateClasses = Throw TypeError.
Proof. apply names_loop_unregistered. Qed.

(** Whenever [buildGraph] returns a graph on a list none of whose
    modules is named [__proto__], [nameToState] returns a map on the same
    list, with the same keys as the graph; the module found under a key
    is the one whose children the graph lists under that key. *)
Theorem buildGraph_nameToState (ngDevMode : option bool)
    (stateClasses : list cref) (graph : PlainObjectOf (list (option string))) :
  buildGraph ngDevMode h stateClasses = Ret graph ->
  (forall c, c ∈ stateClasses -> keyOf h c <> "__proto__") ->
  exists byName,
    nameToState frozen h stateClasses
    = Ret {| prototypeOf := None; ownStates := byName |}
    /\ (forall k, k ∈ keys graph <-> k ∈ keys byName)
    /\ (forall k kids, obj_get graph k = Some kids ->
          exists c, obj_get byName k = Some c /\ kids = childNames h c).
Proof.
  intros Hret Hnames. apply buildGraph_ret in Hret as (Hreg & _ & ->).
  exists (assignAll (keyOf h) id stateClasses []).
  split; [now apply names_loop_ok|]. split.
  - intros k. now rewrite !assignAll_keys.
  - intros k kids Hget. apply assignAll_get in Hget as (Hk & c & Hlast & ->).
    exists c. split; [|reflexivity]. now apply (assignAll_last (keyOf h) id).
Qed.

(** A module named [__proto__] becomes the prototype of the object that
    [nameToState] fills, and no key of it: when the function returns, the
    prototype of the object is the last module of that name.  A later
    module named [length], [name], [prototype], [caller] or [arguments],
    the first of its name, makes the function throw a [TypeError]: the
    property is read-only through a class. *)
Theorem nameToState_prototype (stateClasses : list cref) (p : cref) :
  p ∈ stateClasses -> keyOf h p = "__proto__" ->
  (forall r, nameToState frozen h stateClasses = Ret r ->
     ("__proto__" ∉ keys (ownStates r))
     /\ exists c, c ∈ stateClasses /\ keyOf h c = "__proto__"
                  /\ prototypeOf r = Some c)
  /\ (forall before mid n rest,
        stateClasses = before ++ p :: mid ++ n :: rest ->
        keyOf h n ∈ functionReadOnly ->
        (forall c, c ∈ before ++ p :: mid -> keyOf h c <> keyOf h n) ->
        nameToState frozen h stateClasses = Throw TypeError).
Proof.
  intros Hp Hkey. split.
  - intros r Hret. apply names_loop_ret in Hret as [Hproto Hkeys]. split.
    + intros Hin. destruct (Hkeys _ Hin) as [Hacc|[Hne _]]; [|done].
      simpl in Hacc. now apply elem_of_nil in Hacc.
    + destruct Hproto as [[_ Hnone]|Hsome]; [|exact Hsome].
      now apply Hnone in Hp.
  - intros before mid n rest -> Hro Hfresh. unfold nameToState.
    replace (before ++ p :: mid ++ n :: rest)
      with ((before ++ p :: mid) ++ n :: rest)
      by (now rewrite <- app_assoc).
    rewrite reduce_app.
    destruct (names_loop_outcome (before ++ p :: mid)
                {| prototypeOf := None; ownStates := [] |}) as [[st Hst]|Hst];
      rewrite Hst; [|reflexivity].
    simpl. apply names_loop_ret in Hst as [Hproto Hkeys].
    assert (Hmeta : exists md, metaOf h n = Some md).
    { destruct (metaOf h n) as [md|] eqn:Hmd; [now exists md|].
      rewrite (keyOf_unregistered h n Hmd) in Hro. revert Hro.
      apply (bool_decide_unpack _). by vm_compute. }
    destruct Hmeta as [md Hmd]. rewrite Hmd, (keyOf_registered h n md Hmd).
    assert (Hst : exists c, prototypeOf st = Some c).
    { destruct Hproto as [[_ Hnone]|(c & _ & _ & Hc)]; [|now exists c].
      exfalso. apply (Hnone p); [|exact Hkey].
      apply elem_of_app. right. now left. }
    destruct Hst as [c Hc].
    rewrite (assignState_readOnly st (keyOf h n) n c Hc Hro); [reflexivity|].
    intros Hin. destruct (Hkeys _ Hin) as [Hacc|(_ & c' & Hc' & Hk')].
    + simpl in Hacc. now apply elem_of_nil in Hacc.
    + now apply (Hfresh c').
Qed.

End NamesOfStates.

(** ** The theorems on the cart states *)

(** Of two modules named [cart] the graph keeps the children of the
    second. *)
Lemma buildGraph_graph_witness :
  buildGraph None heapTwins [1; 2; 3] = Ret [("cart", []); ("items", [])]
  /\ obj_get [("cart", []); ("items", [])] "cart" = Some (childNames heapTwins 2).
Proof.
  assert (Hret : buildGraph None heapTwins [1; 2; 3]
                 = Ret [("cart", []); ("items", [])])
    by (vm_compute; reflexivity).
  split; [exact Hret|].
  destruct (buildGraph_graph None heapTwins [1; 2; 3] _ Hret) as (_ & Hlast & _).
  apply Hlast; [discriminate|].
  exists [1], [3]. split; [reflexivity|]. split; [vm_compute; reflexivity|].
  intros y Hy. apply list_elem_of_In in Hy. destruct Hy as [<-|[]].
  vm_compute. discriminate.
Defined.

Lemma nameToState_lookup_witness :
  exists byName,
    nameToState noneFrozen heapTwins [1; 2; 3]
    = Ret {| prototypeOf := None; ownStates := byName |}
    /\ obj_get byName "cart" = Some 2.
Proof.
  destruct (nameToState_lookup noneFrozen heapTwins [1; 2; 3])
    as (byName & Hret & _ & Hlast & _).
  - intros c Hc. apply list_elem_of_In in Hc.
    destruct Hc as [<-|[<-|[<-|[]]]]; vm_compute; eauto.
  - intros c Hc. apply list_elem_of_In in Hc.
    destruct Hc as [<-|[<-|[<-|[]]]]; vm_compute; discriminate.
  - exists byName. split; [exact Hret|]. apply Hlast.
    exists [1], [3]. split; [reflexivity|]. split; [vm_compute; reflexivity|].
    intros y Hy. apply list_elem_of_In in Hy. destruct Hy as [<-|[]].
    vm_compute. discriminate.
Defined.

Lemma nameToState_unregistered_witness :
  nameToState noneFrozen heapCart [1] = Throw TypeError.
Proof.
  apply (nameToState_unregistered noneFrozen heapCart [1] 1).
  - apply list_elem_of_In. now left.
  - vm_compute. reflexivity.
Defined.

Lemma buildGraph_nameToState_witness :
  exists byName,
    nameToState noneFrozen heapStates [1; 2; 3]
    = Ret {| prototypeOf := None; ownStates := byName |}
    /\ (forall k, k ∈ keys cartBuilt <-> k ∈ keys byName)
    /\ (forall k kids, obj_get cartBuilt k = Some kids ->
          exists c, obj_get byName k = Some c
                    /\ kids = childNames heapStates c).
Proof.
  apply (buildGraph_nameToState noneFrozen heapStates None [1; 2; 3] cartBuilt).
  - vm_compute. reflexivity.
  - intros c Hc. apply list_elem_of_In in Hc.
    destruct Hc as [<-|[<-|[<-|[]]]]; vm_compute; discriminate.
Defined.

(** On a state named [__proto__] followed by a state named [name],
    [buildGraph] returns a graph and [nameToState] throws. *)
Lemma nameToState_prototype_witness :
  nameToState noneFrozen heapProto [1; 2] = Throw TypeError
  /\ buildGraph None heapProto [1; 2] = Ret [("name", [])].
Proof.
  split; [|vm_compute; reflexivity].
  destruct (nameToState_prototype noneFrozen heapProto [1; 2] 1) as [_ Hthrow].
  - apply list_elem_of_In. now left.
  - vm_compute. reflexivity.
  - apply (Hthrow [] [] 2 []); [reflexivity| |].
    + apply (bool_decide_unpack _). by vm_compute.
    + intros c Hc. apply list_elem_of_In in Hc. destruct Hc as [<-|[]].
      vm_compute. discriminate.
Defined.



(** ** The order of the keys *)

(** Assignments to new keys, none of them an array index, append to the
    object in the order they are made. *)
Lemma assignAll_fresh {A B : Type} (key : A -> string) (val : A -> B)
    (l : list A) (acc : PlainObjectOf B) :
  NoDup (key <$> l) ->
  (forall x, x ∈ l ->
     key x <> "__proto__" /\ array_index (key x) = None /\ key x ∉ keys acc) ->
  assignAll key val l acc = acc ++ ((fun x => (key x, val x)) <$> l).
Proof.
  revert acc. induction l as [|x l IH]; intros acc Hnd Hfresh.
  - simpl. now rewrite app_nil_r.
  - apply NoDup_cons in Hnd as [Hx Hnd].
    destruct (Hfresh x) as (Hproto & Hidx & Hnew); [now left|].
    assert (Hset : obj_set acc (key x) (val x) = acc ++ [(key x, val x)]).
    { unfold obj_set. apply String.eqb_neq in Hproto. rewrite Hproto.
      rewrite bool_decide_eq_false_2 by exact Hnew. now rewrite Hidx. }
    change (assignAll key val (x :: l) acc)
      with (assignAll key val l (obj_set acc (key x) (val x))).
    rewrite Hset, IH.
    + rewrite <- app_assoc. reflexivity.
    + exact Hnd.
    + intros y Hy. destruct (Hfresh y) as (Hp & Hi & Hn); [now right|].
      split; [exact Hp|]. split; [exact Hi|].
      unfold keys. rewrite fmap_app. intros Hin.
      apply elem_of_app in Hin as [Hin|Hin]; [contradiction|].
      apply list_elem_of_singleton in Hin. apply Hx.
      apply list_elem_of_fmap. now exists y.
Qed.

(** When the listed modules have distinct names, none of them an array
    index or [__proto__], [buildGraph] and [nameToState] return objects
    that enumerate the names in the order of the list: the graph holds,
    for each module in turn, the names of its children, and the map the
    module itself. *)
Theorem states_in_list_order (ngDevMode : option bool) (h : Heap)
    (stateClasses : list cref) :
  allRegistered h stateClasses -> allListed h stateClasses ->
  NoDup (keyOf h <$> stateClasses) ->
  Forall (fun c => keyOf h c <> "__proto__"
                   /\ array_index (keyOf h c) = None) stateClasses ->
  buildGraph ngDevMode h stateClasses
  = Ret ((fun c => (keyOf h c, childNames h c)) <$> stateClasses)
  /\ (forall frozen,
        nameToState frozen h stateClasses
        = Ret {| prototypeOf := None;
                 ownStates := (fun c => (keyOf h c, c)) <$> stateClasses |}).
Proof.
  intros Hreg Hlisted Hnd Hnames. rewrite Forall_forall in Hnames.
  split.
  - rewrite (buildGraph_ok ngDevMode h stateClasses Hreg Hlisted).
    rewrite (assignAll_fresh (keyOf h) (childNames h) stateClasses []);
      [reflexivity|exact Hnd|].
    intros c Hc. destruct (Hnames c Hc) as [Hp Hi].
    split; [exact Hp|]. split; [exact Hi|]. apply not_elem_of_nil.
  - intros frozen. unfold nameToState.
    rewrite (names_loop_ok frozen h stateClasses _ Hreg);
      [|intros c Hc; now apply Hnames|reflexivity].
    simpl ownStates.
    rewrite (assignAll_fresh (keyOf h) id stateClasses []);
      [reflexivity|exact Hnd|].
    intros c Hc. destruct (Hnames c Hc) as [Hp Hi].
    split; [exact Hp|]. split; [exact Hi|]. apply not_elem_of_nil.
Qed.

Lemma states_in_list_order_witness :
  buildGraph None heapStates [1; 2; 3]
  = Ret ((fun c => (keyOf heapStates c, childNames heapStates c)) <$> [1; 2; 3])
  /\ (forall frozen,
        nameToState frozen heapStates [1; 2; 3]
        = Ret {| prototypeOf := None;
                 ownStates :=
                   (fun c => (keyOf heapStates c, c)) <$> [1; 2; 3] |}).
Proof.
  apply (states_in_list_order None heapStates [1; 2; 3]).
  - intros c Hc. apply list_elem_of_In in Hc.
    destruct Hc as [<-|[<-|[<-|[]]]]; vm_compute; eauto.
  - intros p md c Hp Hmd Hc. apply list_elem_of_In in Hp.
    destruct Hp as [<-|[<-|[<-|[]]]]; vm_compute in Hmd;
      injection Hmd as <-; simpl in Hc; apply list_elem_of_In in Hc;
      apply list_elem_of_In; simpl in *; tauto.
  - apply (bool_decide_unpack _). by vm_compute.
  - repeat constructor; vm_compute; congruence.
Defined.

(** * More on the metadata of state classes and selectors *)

Lemma lookupMeta_own (depth : nat) (h : Heap) (target : cref) (c : StateClass)
    (m : mref) :
  classes h !! target = Some c -> own_meta c = Some m ->
  lookupMeta (S depth) h target = Some m.
Proof. intros Hc Hm. simpl. now rewrite Hc, Hm. Qed.

Lemma size_classes_pos (h : Heap) (target : cref) (c : StateClass) :
  classes h !! target = Some c -> exists n, size (classes h) = S n.
Proof.
  intros Hc. destruct (size (classes h)) as [|n] eqn:Hsize; [|now exists n].
  apply map_size_empty_inv in Hsize. rewrite Hsize in Hc.
  now rewrite lookup_empty in Hc.
Qed.

(** A class that extends a decorated class reads the record of its
    parent until it is decorated itself; [ensureStoreMetadata] then gives
    it a record of its own, with the default fields, and leaves the
    parent with the record it had. *)
Theorem ensureStoreMetadata_subclass (target parent : cref)
    (c p : StateClass) (m0 : mref) (h : Heap) :
  classes h !! target = Some c -> own_meta c = None ->
  proto c = Some parent ->
  classes h !! parent = Some p -> own_meta p = Some m0 ->
  is_Some (records h !! m0) ->
  getStoreMetadata target h = Some m0
  /\ exists m h1,
       ensureStoreMetadata target h = Ret (Some m, h1)
       /\ m <> m0
       /\ records h1 !! m = Some (defaultMetadata m)
       /\ getStoreMetadata parent h1 = Some m0
       /\ records h1 !! m0 = records h !! m0.
Proof.
  intros Hc Hown Hproto Hp Hpown Hrec.
  assert (Hne : target <> parent) by (intros ->; congruence).
  split.
  - unfold getStoreMetadata. destruct (size_classes_pos h target c Hc) as [n ->].
    simpl. rewrite Hc, Hown, Hproto, Hp, Hpown. reflexivity.
  - set (m := alloc h).
    set (h1 := defineMeta target c m
                 {| classes := classes h;
                    records := <[m := defaultMetadata m]> (records h) |}).
    assert (Hc1 : classes h1 !! target
                  = Some {| own_meta := Some m; proto := proto c;
                            source := source c |})
      by apply lookup_insert_eq.
    assert (Hm : m <> m0).
    { intros Heq. destruct Hrec as [r Hr].
      pose proof (alloc_fresh h) as Hfresh. fold m in Hfresh.
      rewrite Heq in Hfresh. congruence. }
    exists m, h1. split; [|split; [exact Hm|split; [|split]]].
    + unfold ensureStoreMetadata. rewrite Hc, Hown. fold m. fold h1.
      now rewrite (getStoreMetadata_own _ _ m _ Hc1).
    + apply lookup_insert_eq.
    + apply (getStoreMetadata_own parent p); [|exact Hpown].
      simpl. now rewrite lookup_insert_ne.
    + simpl. now rewrite lookup_insert_ne.
Qed.

(** Two classes decorated one after the other get two records, whether
    or not one extends the other, and the second call leaves the first
    class with its record. *)
Theorem ensureStoreMetadata_distinct (a b : cref) (ca cb : StateClass)
    (h : Heap) :
  a <> b ->
  classes h !! a = Some ca -> own_meta ca = None ->
  classes h !! b = Some cb -> own_meta cb = None ->
  exists ma mb h1 h2,
    ensureStoreMetadata a h = Ret (Some ma, h1)
    /\ ensureStoreMetadata b h1 = Ret (Some mb, h2)
    /\ ma <> mb
    /\ getStoreMetadata a h2 = Some ma
    /\ getStoreMetadata b h2 = Some mb
    /\ records h2 !! ma = Some (defaultMetadata ma)
    /\ records h2 !! mb = Some (defaultMetadata mb).
Proof.
  intros Hab Ha Haown Hb Hbown.
  set (ma := alloc h).
  set (h1 := defineMeta a ca ma
               {| classes := classes h;
                  records := <[ma := defaultMetadata ma]> (records h) |}).
  assert (Ha1 : classes h1 !! a
                = Some {| own_meta := Some ma; proto := proto ca;
                          source := source ca |})
    by apply lookup_insert_eq.
  assert (Hb1 : classes h1 !! b = Some cb)
    by (simpl; now rewrite lookup_insert_ne).
  assert (Hra : records h1 !! ma = Some (defaultMetadata ma))
    by apply lookup_insert_eq.
  set (mb := alloc h1).
  set (h2 := defineMeta b cb mb
               {| classes := classes h1;
                  records := <[mb := defaultMetadata mb]> (records h1) |}).
  assert (Hb2 : classes h2 !! b
                = Some {| own_meta := Some mb; proto := proto cb;
                          source := source cb |})
    by apply lookup_insert_eq.
  assert (Ha2 : classes h2 !! a
                = Some {| own_meta := Some ma; proto := proto ca;
                          source := source ca |}).
  { unfold h2, defineMeta. cbn [classes].
    rewrite lookup_insert_ne by (now apply not_eq_sym). exact Ha1. }
  assert (Hm : ma <> mb).
  { intros Heq. pose proof (alloc_fresh h1) as Hfresh. fold mb in Hfresh.
    rewrite <- Heq in Hfresh. congruence. }
  exists ma, mb, h1, h2. split; [|split; [|split; [exact Hm|split; [|split; [|split]]]]].
  - unfold ensureStoreMetadata. rewrite Ha, Haown. fold ma. fold h1.
    now rewrite (getStoreMetadata_own _ _ ma _ Ha1).
  - unfold ensureStoreMetadata. rewrite Hb1, Hbown. fold mb. fold h2.
    now rewrite (getStoreMetadata_own _ _ mb _ Hb2).
  - now apply (getStoreMetadata_own _ _ ma _ Ha2).
  - now apply (getStoreMetadata_own _ _ mb _ Hb2).
  - unfold h2, defineMeta. cbn [records].
    rewrite lookup_insert_ne by (now apply not_eq_sym). exact Hra.
  - apply lookup_insert_eq.
Qed.

(** [ensureSelectorMetadata] on a function that has no metadata of its
    own makes a record whose fields are all [null] and whose options are
    empty, and changes nothing else; a second call, and every call on a
    function that has its own record, returns that record and leaves the
    heap as it is. *)
Theorem ensureSelectorMetadata_once (target : Selectors.fref)
    (f : Selectors.FunctionObject) (h : Selectors.Heap) :
  Selectors.functions h !! target = Some f ->
  exists m h1,
    Selectors.ensureSelectorMetadata target h = Ret (Some m, h1)
    /\ Selectors.ensureSelectorMetadata target h1 = Ret (Some m, h1)
    /\ Selectors.getSelectorMetadata target h1 = Some m
    /\ (forall m0, Selectors.own_meta f = Some m0 -> m = m0 /\ h1 = h)
    /\ (Selectors.own_meta f = None ->
        Selectors.records h !! m = None
        /\ (exists r, Selectors.records h1 !! m = Some r
              /\ Selectors.makeRootSelector r = None
              /\ Selectors.originalFn r = None
              /\ Selectors.containerClass r = None
              /\ Selectors.selectorName r = None
              /\ Selectors.getSelectorOptions r tt
                 = {| Selectors.injectContainerState := None;
                      Selectors.suppressErrors := None |})
        /\ (forall m', m' <> m ->
              Selectors.records h1 !! m' = Selectors.records h !! m')
        /\ (forall g, g <> target ->
              Selectors.functions h1 !! g = Selectors.functions h !! g)).
Proof.
  intros Hf.
  assert (Hown : forall h' f' m,
             Selectors.functions h' !! target = Some f' ->
             Selectors.own_meta f' = Some m ->
             Selectors.getSelectorMetadata target h' = Some m
             /\ Selectors.ensureSelectorMetadata target h' = Ret (Some m, h')).
  { intros h' f' m Hf' Hm.
    assert (Hget : Selectors.getSelectorMetadata target h' = Some m).
    { unfold Selectors.getSelectorMetadata. simpl. now rewrite Hf', Hm. }
    split; [exact Hget|].
    unfold Selectors.ensureSelectorMetadata. now rewrite Hf', Hm, Hget. }
  destruct (Selectors.own_meta f) as [m0|] eqn:Hmeta.
  - destruct (Hown h f m0 Hf Hmeta) as [Hget Hens].
    exists m0, h. split; [exact Hens|]. split; [exact Hens|].
    split; [exact Hget|]. split; [intros ? [= <-]; now split|discriminate].
  - set (m := Selectors.alloc h).
    set (h1 := {| Selectors.functions :=
                    <[target := {| Selectors.own_meta := Some m;
                                   Selectors.proto := Selectors.proto f |}]>
                      (Selectors.functions h);
                  Selectors.records :=
                    <[m := Selectors.defaultMetadata]> (Selectors.records h) |}).
    assert (Hf1 : Selectors.functions h1 !! target
                  = Some {| Selectors.own_meta := Some m;
                            Selectors.proto := Selectors.proto f |})
      by apply lookup_insert_eq.
    destruct (Hown h1 _ m Hf1 eq_refl) as [Hget Hens].
    exists m, h1. split; [|split; [exact Hens|split; [exact Hget|]]].
    + unfold Selectors.ensureSelectorMetadata. rewrite Hf, Hmeta.
      fold m. fold h1. now rewrite Hget.
    + split; [discriminate|]. intros _. split; [|split; [|split]].
      * apply not_elem_of_dom. unfold m, Selectors.alloc. apply is_fresh.
      * exists Selectors.defaultMetadata. split; [apply lookup_insert_eq|].
        now repeat split.
      * intros m' Hm'. simpl. now rewrite lookup_insert_ne.
      * intros g Hg. simpl. now rewrite lookup_insert_ne.
Qed.

Lemma ensureStoreMetadata_subclass_witness :
  getStoreMetadata 2 heapSub = Some 1
  /\ exists m h1,
       ensureStoreMetadata 2 heapSub = Ret (Some m, h1)
       /\ m <> 1
       /\ records h1 !! m = Some (defaultMetadata m)
       /\ getStoreMetadata 1 h1 = Some 1
       /\ records h1 !! 1 = records heapSub !! 1.
Proof.
  apply (ensureStoreMetadata_subclass 2 1 classSub
           (stateClass 1 "class Cart {}") 1 heapSub);
    try reflexivity.
  vm_compute. eauto.
Defined.

Lemma ensureStoreMetadata_distinct_witness :
  exists ma mb h1 h2,
    ensureStoreMetadata 1 heapPair = Ret (Some ma, h1)
    /\ ensureStoreMetadata 2 h1 = Ret (Some mb, h2)
    /\ ma <> mb
    /\ getStoreMetadata 1 h2 = Some ma
    /\ getStoreMetadata 2 h2 = Some mb
    /\ records h2 !! ma = Some (defaultMetadata ma)
    /\ records h2 !! mb = Some (defaultMetadata mb).
Proof.
  apply (ensureStoreMetadata_distinct 1 2 classCart classSub heapPair);
    try reflexivity.
  lia.
Defined.

Lemma ensureSelectorMetadata_once_witness :
  exists m h1,
    Selectors.ensureSelectorMetadata 1 heapSelector = Ret (Some m, h1)
    /\ Selectors.ensureSelectorMetadata 1 h1 = Ret (Some m, h1)
    /\ Selectors.selectorName <$> Selectors.records h1 !! m = Some None.
Proof.
  destruct (ensureSelectorMetadata_once 1 selectorFn heapSelector eq_refl)
    as (m & h1 & Hfirst & Hsecond & _ & _ & Hfresh).
  exists m, h1. split; [exact Hfirst|]. split; [exact Hsecond|].
  destruct (Hfresh eq_refl) as (_ & (r & Hr & _ & _ & _ & Hname & _) & _).
  now rewrite Hr, <- Hname.
Defined.

(** * The closed form of [findFullParentPath] *)

Lemma concat_snoc (sep : string) (c : list string) (p : string) :
  c <> [] -> String.concat sep (c ++ [p]) = String.concat sep c +:+ sep +:+ p.
Proof.
  induction c as [|x c IH]; [done|]. intros _.
  destruct c as [|y c]; [reflexivity|].
  change (String.concat sep ((x :: y :: c) ++ [p]))
    with (x +:+ sep +:+ String.concat sep ((y :: c) ++ [p])).
  change (String.concat sep (x :: y :: c))
    with (x +:+ sep +:+ String.concat sep (y :: c)).
  rewrite IH by done. now rewrite !append_assoc.
Qed.

Lemma concat_dot_empty (c : list string) :
  String.concat "." c = "" -> c = [] \/ c = [""].
Proof.
  destruct c as [|x [|y c]]; [now left| |].
  - simpl. intros ->. now right.
  - change (String.concat "." (x :: y :: c))
      with (x +:+ "." +:+ String.concat "." (y :: c)).
    destruct x; discriminate.
Qed.

Section PathChain.

Variable g : StateKeyGraph.
Hypothesis distinct : NoDup (keys g).
Hypothesis plain : plainKeys g.

(** What the inner [visit] returns, when it returns. *)
Lemma visitParent_chain (n : nat) (k : string) (r : option string) :
  visitParent n g k = Ret r ->
  r = match parentChain n g k with
      | [] => None
      | c => Some (String.concat "." c)
      end
  /\ chained g (parentChain n g k ++ [k])
  /\ (forall root, head (parentChain n g k ++ [k]) = Some root ->
                   firstParent g root = None).
Proof.
  revert k r. induction n as [|n IH]; intros k r; [discriminate|].
  rewrite (visitParent_step g distinct plain). cbn [parentChain].
  destruct (firstParent g k) as [p|] eqn:Hp.
  - destruct (visitParent n g p) as [rp|e] eqn:Hrp; [|discriminate].
    intros [= <-]. destruct (IH p rp Hrp) as (Hr & Hch & Hroot).
    apply (firstParent_edge g distinct) in Hp as [_ Hedge].
    split; [|split].
    + destruct (parentChain n g p) as [|x c] eqn:Hc.
      * subst rp. reflexivity.
      * subst rp.
        change (Some (String.concat "." (x :: c) +:+ "." +:+ p)
                = Some (String.concat "." ((x :: c) ++ [p]))).
        now rewrite concat_snoc.
    + apply (chained_snoc g _ p k); [exact Hch|apply last_snoc|exact Hedge].
    + intros root Hhead. apply Hroot.
      destruct (parentChain n g p); exact Hhead.
  - intros [= <-]. split; [reflexivity|]. split; [exact I|].
    simpl. now intros root [= <-].
Qed.

(** What the outer loop writes from it. *)
Lemma outer_dottedPath (n : nat) (k : string) (r : option string) :
  visitParent n g k = Ret r ->
  match r with
  | Some p => if nonEmpty p then p +:+ "." +:+ k else k
  | None => k
  end = dottedPath n g k.
Proof.
  intros Hr. apply visitParent_chain in Hr as (-> & _ & _).
  unfold dottedPath. destruct (parentChain n g k) as [|x c] eqn:Hc.
  - rewrite decide_False by done. reflexivity.
  - unfold nonEmpty.
    destruct (String.eqb_spec (String.concat "." (x :: c)) "") as [Hempty|Hne].
    + apply concat_dot_empty in Hempty as [Hnil|Hone]; [done|].
      now rewrite decide_True.
    + rewrite decide_False by (intros Heq; now rewrite Heq in Hne).
      simpl negb. cbv iota. now rewrite concat_snoc.
Qed.

(** A first parent lists its child. *)
Lemma firstParentOf_edge (x p : string) :
  firstParentOf g x p -> p ∈ keys g /\ edge g p x.
Proof. apply (firstParent_edge g distinct). Qed.

Lemma firstParentOf_up (x y : string) :
  tc (firstParentOf g) x y -> tc (edge g) y x.
Proof.
  induction 1 as [x y Hxy|x y z Hxy _ IH].
  - apply tc_once. now apply firstParentOf_edge in Hxy.
  - eapply tc_r; [exact IH|]. now apply firstParentOf_edge in Hxy.
Qed.

(** A cycle along first parents is a cycle of the map. *)
Lemma acyclic_noParentCycle : acyclic g -> noParentCycle g.
Proof. intros Hacyc x Hx. apply (Hacyc x). now apply firstParentOf_up. Qed.

(** The inner [visit] returns, or exhausts the call stack. *)
Lemma visitParent_outcome (n : nat) (k : string) :
  (exists r, visitParent n g k = Ret r)
  \/ visitParent n g k = Throw RangeError.
Proof.
  revert k. induction n as [|n IH]; intros k; [now right|].
  rewrite (visitParent_step g distinct plain).
  destruct (firstParent g k) as [p|]; [|left; now eexists].
  destruct (IH p) as [[r Hr]|Hr]; rewrite Hr; [left; now eexists|now right].
Qed.

(** On a key that is its own ancestor along first parents it exhausts
    every call stack. *)
Lemma visitParent_overflow (n : nat) :
  forall x, tc (firstParentOf g) x x -> visitParent n g x = Throw RangeError.
Proof.
  induction n as [|n IH]; intros x Hx; [reflexivity|].
  rewrite (visitParent_step g distinct plain).
  assert (Hnext : exists p, firstParentOf g x p /\ tc (firstParentOf g) p p).
  { inversion Hx as [? ? Hxx|? p ? Hxp Hpx]; subst.
    - exists x. now split.
    - exists p. split; [exact Hxp|]. eapply tc_r; [exact Hpx|exact Hxp]. }
  destruct Hnext as (p & Hp & Hcyc). unfold firstParentOf in Hp. rewrite Hp.
  now rewrite (IH p Hcyc).
Qed.

(** Without such a key the walk towards the root meets no key twice, so
    it ends within as many calls as there are keys. *)
Lemma visitParent_returns_up (n : nat) :
  noParentCycle g ->
  forall (k : string) (seen : list string),
    NoDup seen ->
    (forall x, x ∈ seen -> x ∈ keys g) ->
    (forall x, x ∈ seen -> rtc (firstParentOf g) x k) ->
    length (keys g) < n + length seen ->
    exists r, visitParent n g k = Ret r.
Proof.
  intros Hwf. induction n as [|n IH]; intros k seen Hnd Hkeys Hreach Hlen.
  - exfalso. apply NoDup_submseteq in Hkeys; [|exact Hnd].
    apply submseteq_length in Hkeys. simpl in Hlen. lia.
  - rewrite (visitParent_step g distinct plain).
    destruct (firstParent g k) as [p|] eqn:Hp; [|now exists None].
    assert (Hfresh : p ∉ seen).
    { intros Hin. apply (Hwf p).
      eapply tc_rtc_l; [apply (Hreach _ Hin)|]. now apply tc_once. }
    destruct (IH p (p :: seen)) as [rp Hrp].
    + now constructor.
    + intros x Hx. apply elem_of_cons in Hx as [->|Hx]; [|auto].
      now apply (firstParentOf_edge k).
    + intros x Hx. apply elem_of_cons in Hx as [->|Hx]; [reflexivity|].
      eapply rtc_r; [now apply Hreach|exact Hp].
    + simpl. lia.
    + rewrite Hrp. now eexists.
Qed.

Lemma visitParent_total_up (stack : nat) (k : string) :
  noParentCycle g -> length g < stack ->
  exists r, visitParent stack g k = Ret r.
Proof.
  intros Hwf Hlen. apply (visitParent_returns_up stack Hwf k []).
  - constructor.
  - intros x Hx. now apply elem_of_nil in Hx.
  - intros x Hx. now apply elem_of_nil in Hx.
  - simpl. unfold keys. rewrite length_fmap. lia.
Qed.

(** The outer loop throws what the inner [visit] throws. *)
Lemma outer_loop_overflow (stack : nat) (l : list string) :
  (forall k, k ∈ l -> k ∈ keys g) ->
  (exists k, k ∈ l /\ visitParent stack g k = Throw RangeError) ->
  forall newObj : PlainObjectOf string,
    reduce
      (fun (newObj : PlainObjectOf string) (key : string) =>
         own ← hasOwnProperty g key;
         if own : bool then
           parent ← visitParent stack g key;
           Ret (obj_set newObj key
                  (match parent with
                   | Some p => if nonEmpty p then p +:+ "." +:+ key else key
                   | None => key
                   end))
         else Ret newObj)
      l newObj = Throw RangeError.
Proof.
  induction l as [|key l IH]; intros Hsub (k & Hk & Hthrow) newObj.
  - now apply elem_of_nil in Hk.
  - assert (Hkey : key ∈ keys g) by (apply Hsub; now left).
    simpl reduce.
    rewrite (hasOwnProperty_plain g plain), (bool_decide_eq_true_2 _ Hkey).
    simpl.
    destruct (visitParent_outcome stack key) as [[r Hr]|Hr]; rewrite Hr;
      [|reflexivity].
    simpl. apply IH.
    + intros k' Hk'. apply Hsub. now right.
    + apply elem_of_cons in Hk as [->|Hk]; [|now exists k].
      destruct (visitParent_outcome stack key) as [[r' Hr']|Hr'];
        congruence.
Qed.

Lemma parentCycle_key (x : string) :
  tc (firstParentOf g) x x -> x ∈ keys g.
Proof.
  intros Hx.
  assert (Hlast : forall a b, tc (firstParentOf g) a b ->
                              exists y, firstParentOf g y b).
  { induction 1 as [a b Hab|a b c _ _ IH]; [now exists a|exact IH]. }
  destruct (Hlast x x Hx) as [y Hy]. now apply (firstParentOf_edge y).
Qed.

End PathChain.

(** [findFullParentPath] in closed form, on every map in which no key is
    its own ancestor along first parents (so on every map without a
    cycle), whose keys are neither [hasOwnProperty] nor [__proto__], and
    for every object [newObj] handed in: each key of the map gets the
    names of its chain of first parents, from a root down to itself,
    joined by dots (below a root whose name is empty: its own name alone,
    the test [parent ?] of the outer loop dropping the dot); the chain
    runs along edges and starts at a key that no child list holds; and
    every other property of [newObj] is left as it was. *)
Theorem findFullParentPath_closed_form (g : StateKeyGraph) (stack : nat)
    (newObj : PlainObjectOf string) :
  NoDup (keys g) -> plainKeys g -> noParentCycle g -> length g < stack ->
  exists paths,
    findFullParentPath stack g newObj = Ret paths
    /\ (forall k, k ∈ keys g ->
          obj_get paths k = Some (dottedPath stack g k)
          /\ chained g (parentChain stack g k ++ [k])
          /\ exists root, head (parentChain stack g k ++ [k]) = Some root
                          /\ firstParent g root = None)
    /\ (forall k, k ∉ keys g -> obj_get paths k = obj_get newObj k).
Proof.
  intros Hnd Hplain Hacyc Hlen.
  destruct (findFullParentPath_loop g Hplain stack (keys g)
              (fun k _ => visitParent_total_up g Hnd Hplain stack k Hacyc Hlen)
              (fun k Hk => Hk) newObj) as (paths & Hred & Hin & Hout).
  exists paths. split; [exact Hred|]. split; [|exact Hout].
  intros k Hk. destruct (Hin k Hk) as (r & Hr & Hget).
  split; [|split].
  - rewrite Hget. f_equal. now apply outer_dottedPath.
  - now apply (visitParent_chain g Hnd Hplain stack k r).
  - destruct (visitParent_chain g Hnd Hplain stack k r Hr) as (_ & _ & Hroot).
    destruct (head (parentChain stack g k ++ [k])) as [root|] eqn:Hhead.
    + exists root. split; [reflexivity|]. now apply Hroot.
    + destruct (parentChain stack g k); discriminate.
Qed.

Lemma emptyRootGraph_plain : plainKeys emptyRootGraph.
Proof. now apply plainKeys_check. Qed.

Lemma emptyRootGraph_distinct : NoDup (keys emptyRootGraph).
Proof. apply (bool_decide_unpack _). by vm_compute. Qed.

Lemma findFullParentPath_closed_form_witness :
  exists paths,
    findFullParentPath 4 emptyRootGraph [("x", "kept")] = Ret paths
    /\ obj_get paths "a" = Some "a"
    /\ obj_get paths "b" = Some ".a.b"
    /\ obj_get paths "x" = Some "kept".
Proof.
  destruct (findFullParentPath_closed_form emptyRootGraph 4 [("x", "kept")])
    as (paths & Hret & Hin & Hout).
  - exact emptyRootGraph_distinct.
  - exact emptyRootGraph_plain.
  - apply (acyclic_noParentCycle _ emptyRootGraph_distinct).
    now apply (ranked_acyclic emptyRootRank).
  - simpl. lia.
  - exists paths. split; [exact Hret|]. split; [|split].
    + apply (Hin "a"). apply list_elem_of_In. simpl. tauto.
    + apply (Hin "b"). apply list_elem_of_In. simpl. tauto.
    + rewrite (Hout "x"); [reflexivity|]. now apply not_in_keys.
Defined.

Lemma parentRanked_noParentCycle (rk : string -> nat) (g : StateKeyGraph) :
  parentRanked rk g = true -> noParentCycle g.
Proof.
  intros Hrk x Hx.
  assert (Hstep : forall a b, firstParentOf g a b -> rk b < rk a).
  { intros a b Hab. pose proof Hab as Hfind. unfold firstParentOf, firstParent in Hfind.
    destruct (find _ g) as [[p kids]|] eqn:Hf; [|discriminate].
    injection Hfind as <-. apply find_some in Hf as [Hin Ha].
    apply bool_decide_eq_true in Ha. simpl in Ha.
    unfold parentRanked in Hrk. rewrite forallb_forall in Hrk.
    specialize (Hrk _ Hin). simpl in Hrk. rewrite forallb_forall in Hrk.
    apply list_elem_of_In in Ha. specialize (Hrk _ Ha).
    unfold firstParentOf in Hab. rewrite Hab in Hrk. now apply Nat.ltb_lt in Hrk. }
  assert (Hlt : forall a b, tc (firstParentOf g) a b -> rk b < rk a).
  { induction 1 as [a b Hab|a b c Hab _ IH]; [now apply Hstep|].
    apply Hstep in Hab. lia. }
  specialize (Hlt _ _ Hx). lia.
Qed.

(** [findFullParentPath] returns a map exactly when no key is its own
    ancestor along first parents: then it returns for every call stack
    deeper than the map is long, and otherwise it exhausts every call
    stack.  A cycle that the first parents lead out of does no harm. *)
Theorem findFullParentPath_returns_iff (g : StateKeyGraph)
    (newObj : PlainObjectOf string) :
  NoDup (keys g) -> plainKeys g ->
  (noParentCycle g ->
   forall stack, length g < stack ->
     exists paths, findFullParentPath stack g newObj = Ret paths)
  /\ (parentCycle g ->
      forall stack, findFullParentPath stack g newObj = Throw RangeError).
Proof.
  intros Hnd Hplain. split.
  - intros Hwf stack Hlen.
    destruct (findFullParentPath_loop g Hplain stack (keys g)
                (fun k _ => visitParent_total_up g Hnd Hplain stack k Hwf Hlen)
                (fun k Hk => Hk) newObj) as (paths & Hred & _).
    now exists paths.
  - intros [x Hx] stack. unfold findFullParentPath.
    apply (outer_loop_overflow g Hnd Hplain stack (keys g)); [auto|].
    exists x. split; [now apply (parentCycle_key g Hnd)|].
    now apply (visitParent_overflow g Hnd Hplain).
Qed.

Lemma rootedCycleGraph_plain : plainKeys rootedCycleGraph.
Proof. now apply plainKeys_check. Qed.

Lemma rootedCycleGraph_distinct : NoDup (keys rootedCycleGraph).
Proof. apply (bool_decide_unpack _). by vm_compute. Qed.

Lemma findFullParentPath_returns_iff_witness :
  (exists x, tc (edge rootedCycleGraph) x x)
  /\ (exists paths, findFullParentPath 4 rootedCycleGraph [] = Ret paths)
  /\ findFullParentPath 4 selfGraph [] = Throw RangeError.
Proof.
  split; [|split].
  - exists "a". apply tc_l with "b".
    + exists ["b"]. split; [reflexivity|]. apply list_elem_of_In. now left.
    + apply tc_once. exists ["a"]. split; [reflexivity|].
      apply list_elem_of_In. now left.
  - destruct (findFullParentPath_returns_iff rootedCycleGraph []
                rootedCycleGraph_distinct rootedCycleGraph_plain) as [Hret _].
    apply Hret; [|simpl; lia].
    now apply (parentRanked_noParentCycle rootedCycleRank).
  - destruct (findFullParentPath_returns_iff selfGraph []
                selfGraph_distinct selfGraph_plain) as [_ Hthrow].
    apply Hthrow. exists "a". now apply tc_once.
Defined.

(** * More on [topologicalSort] *)

Lemma visit_step (ngDevMode : option bool) (g : StateKeyGraph) (n : nat)
    (name : string) (ancestors : list string) (st : SortState) :
  visit (S n) ngDevMode g name ancestors st
  = match obj_get g name with
    | None => Throw TypeError
    | Some deps =>
        st' ← forEach deps (visitDep n ngDevMode g name (ancestors ++ [name]))
                (markVisited name st);
        Ret (pushSorted name st')
    end.
Proof. reflexivity. Qed.

Lemma forEach_cons {A S : Type} (x : A) (l : list A) (f : A -> S -> result S)
    (s : S) :
  forEach (x :: l) f s = s' ← f x s; forEach l f s'.
Proof. reflexivity. Qed.

Lemma forEach_ext {A S : Type} (l : list A) (f f' : A -> S -> result S) (s : S) :
  (forall x, x ∈ l -> forall s, f x s = f' x s) ->
  forEach l f s = forEach l f' s.
Proof.
  revert s. induction l as [|x l IH]; intros s Hext; [reflexivity|].
  rewrite !forEach_cons, (Hext x) by now left.
  destruct (f' x s) as [s'|e]; [|reflexivity]. simpl.
  apply IH. intros y Hy. apply Hext. now right.
Qed.

(** A callback that returns its state on the elements that a filter
    drops may as well not be called on them. *)
Lemma forEach_filter {A S : Type} (P : A -> Prop) `{forall x, Decision (P x)}
    (l : list A) (f f' : A -> S -> result S) (s : S) :
  (forall x, x ∈ l -> P x -> forall s, f x s = f' x s) ->
  (forall x, x ∈ l -> ~ P x -> forall s, f x s = Ret s) ->
  forEach l f s = forEach (filter P l) f' s.
Proof.
  revert s. induction l as [|x l IH]; intros s Hkeep Hdrop; [reflexivity|].
  rewrite forEach_cons, filter_cons.
  assert (Hrest : forall s', forEach l f s' = forEach (filter P l) f' s').
  { intros s'. apply IH.
    - intros y Hy. apply Hkeep. now right.
    - intros y Hy. apply Hdrop. now right. }
  destruct (decide (P x)) as [HP|HP].
  - rewrite forEach_cons, (Hkeep x) by (done || now left).
    destruct (f' x s) as [s'|e]; [|reflexivity]. simpl. apply Hrest.
  - rewrite (Hdrop x) by (done || now left). simpl. apply Hrest.
Qed.

Section ModeIndependence.

Variable d d' : option bool.
Variable g : StateKeyGraph.
Hypothesis no_cycle : acyclic g.

(** Without a cycle the check of the ancestors never fires. *)
Lemma ancestors_check (name dep : string) (ancestors : list string) :
  chained g (ancestors ++ [name]) -> edge g name dep ->
  bool_decide (dep ∈ ancestors ++ [name]) = false.
Proof.
  intros Hch Hedge. apply bool_decide_eq_false. intros Hin.
  apply (no_cycle dep). eapply tc_rtc_l; [|apply tc_once, Hedge].
  apply (chained_reaches g (ancestors ++ [name])); [exact Hch| |exact Hin].
  apply last_snoc.
Qed.

Lemma visit_mode (n : nat) :
  forall (name : string) (ancestors : list string) (st : SortState),
    chained g (ancestors ++ [name]) ->
    visit n d g name ancestors st = visit n d' g name ancestors st.
Proof.
  induction n as [|n IH]; intros name ancestors st Hch; [reflexivity|].
  rewrite !visit_step. destruct (obj_get g name) as [deps|] eqn:Hget;
    [|reflexivity].
  rewrite (forEach_ext deps
             (visitDep n d g name (ancestors ++ [name]))
             (visitDep n d' g name (ancestors ++ [name]))); [reflexivity|].
  intros dep Hdep s.
  assert (Hedge : edge g name dep) by now exists deps.
  unfold visitDep. rewrite indexOf_nonneg, (ancestors_check name dep) by done.
  rewrite !andb_false_r. destruct (isVisited s dep); [reflexivity|].
  apply IH. apply (chained_snoc g _ name dep); [exact Hch|apply last_snoc|done].
Qed.

End ModeIndependence.

(** On a map without a cycle [topologicalSort] does the same whatever
    [ngDevMode] is: the same order, or the same error, for every depth of
    the call stack, whether or not the children are keys of the map. *)
Theorem topologicalSort_mode_independent (g : StateKeyGraph) (stack : nat)
    (d d' : option bool) :
  acyclic g -> topologicalSort stack d g = topologicalSort stack d' g.
Proof.
  intros Hacyc. unfold topologicalSort.
  rewrite (forEach_ext (keys g) (fun k st => visit stack d g k [] st)
             (fun k st => visit stack d' g k [] st)); [reflexivity|].
  intros k _ s. now apply visit_mode.
Qed.

Lemma topologicalSort_mode_independent_witness :
  topologicalSort 4 None cartGraph = topologicalSort 4 (Some false) cartGraph.
Proof.
  apply (topologicalSort_mode_independent cartGraph 4 None (Some false)).
  now apply (ranked_acyclic cartRank).
Defined.

(** ** Children named like an inherited property *)

Lemma ownChildren_keys (g : StateKeyGraph) : keys (ownChildren g) = keys g.
Proof.
  unfold keys, ownChildren. rewrite <- list_fmap_compose. reflexivity.
Qed.

Lemma ownChildren_get (g : StateKeyGraph) (k : string) :
  obj_get (ownChildren g) k
  = filter (fun c => c ∉ objectPrototypeKeys) <$> obj_get g k.
Proof.
  induction g as [|[k0 kids] g IH]; [reflexivity|].
  simpl. now destruct (String.eqb k0 k).
Qed.

Section InheritedNames.

Variable d : option bool.
Variable g : StateKeyGraph.

Lemma visit_ownChildren (n : nat) :
  forall (name : string) (ancestors : list string) (st : SortState),
    ownNames d (ancestors ++ [name]) ->
    visit n d g name ancestors st
    = visit n d (ownChildren g) name ancestors st.
Proof.
  induction n as [|n IH]; intros name ancestors st Hown; [reflexivity|].
  rewrite !visit_step, ownChildren_get.
  destruct (obj_get g name) as [deps|] eqn:Hget; [|reflexivity].
  simpl fmap.
  rewrite (forEach_filter (fun c => c ∉ objectPrototypeKeys) deps
             (visitDep n d g name (ancestors ++ [name]))
             (visitDep n d (ownChildren g) name (ancestors ++ [name])));
    [reflexivity| |].
  - intros dep _ Hdep s. unfold visitDep.
    destruct (devChecks d && _); [reflexivity|].
    destruct (isVisited s dep); [reflexivity|].
    apply IH. destruct Hown as [Hoff|Hall]; [now left|right].
    apply Forall_app. split; [exact Hall|]. now constructor.
  - intros dep _ Hdep s. unfold visitDep.
    assert (Hin : dep ∈ objectPrototypeKeys)
      by (destruct (decide (dep ∈ objectPrototypeKeys)); [done|contradiction]).
    assert (Hcheck : devChecks d
                     && (0 <=? indexOf (ancestors ++ [name]) dep)%Z = false).
    { destruct Hown as [->|Hall]; [reflexivity|].
      rewrite indexOf_nonneg, bool_decide_eq_false_2; [apply andb_false_r|].
      intros Hanc. rewrite Forall_forall in Hall. now apply (Hall dep). }
    rewrite Hcheck. unfold isVisited.
    now rewrite (bool_decide_eq_true_2 _ Hin), orb_true_r.
Qed.

End InheritedNames.

(** A child named like a property that plain objects inherit
    ([constructor], [toString], [valueOf], ...) is ignored by
    [topologicalSort]: [visited[dep]] is truthy before the name is ever
    marked.  When no key of the map has such a name, or when the check of
    the ancestors is off, the sort does on the map what it does on the map
    without these children. *)
Theorem topologicalSort_ignores_inherited (g : StateKeyGraph) (stack : nat)
    (d : option bool) :
  devChecks d = false \/ Forall (fun k => k ∉ objectPrototypeKeys) (keys g) ->
  topologicalSort stack d g = topologicalSort stack d (ownChildren g).
Proof.
  intros Hown. unfold topologicalSort. rewrite ownChildren_keys.
  rewrite (forEach_ext (keys g) (fun k st => visit stack d g k [] st)
             (fun k st => visit stack d (ownChildren g) k [] st));
    [reflexivity|].
  intros k Hk s. apply visit_ownChildren.
  destruct Hown as [Hoff|Hall]; [now left|right].
  rewrite Forall_forall in Hall. constructor; [now apply Hall|constructor].
Qed.

Lemma topologicalSort_ignores_inherited_witness :
  topologicalSort 3 None inheritedChildGraph
  = topologicalSort 3 None [("a", ["b"]); ("b", [])].
Proof.
  apply (topologicalSort_ignores_inherited inheritedChildGraph 3 None).
  right. apply (bool_decide_unpack _). by vm_compute.
Defined.

(** ** [topologicalSort] with the check of the ancestors off *)

Section Production.

Variable d : option bool.
Variable g : StateKeyGraph.

Hypothesis off : devChecks d = false.
Hypothesis closedness : closed g.

Lemma proceeds_refl (st : SortState) : tidy g st -> proceeds g st st.
Proof. intros Ht. repeat split; auto; apply Ht. Qed.

Lemma proceeds_trans (st1 st2 st3 : SortState) :
  proceeds g st1 st2 -> proceeds g st2 st3 -> proceeds g st1 st3.
Proof.
  intros (_ & Hs12 & Hv12) (Ht & Hs23 & Hv23).
  split; [exact Ht|]. split; [auto|]. now trans (visited st2).
Qed.

Lemma pushSorted_proceeds (name : string) (st : SortState) :
  tidy g st -> name ∈ keys g ->
  proceeds g st (pushSorted name st) /\ name ∈ sorted (pushSorted name st).
Proof.
  intros [Hnd Hkeys] Hname. unfold pushSorted. rewrite indexOf_negative.
  case_bool_decide as Hin.
  - simpl. split; [|apply elem_of_app; right; now left].
    split; [split|split].
    + simpl. apply NoDup_app. split; [exact Hnd|]. split; [|apply NoDup_singleton].
      intros x Hx Hx'. apply list_elem_of_singleton in Hx' as ->. contradiction.
    + simpl. intros x Hx. apply elem_of_app in Hx as [Hx|Hx]; [now apply Hkeys|].
      now apply list_elem_of_singleton in Hx as ->.
    + simpl. intros x Hx. apply elem_of_app. now left.
    + reflexivity.
  - split; [now apply proceeds_refl|].
    destruct (decide (name ∈ sorted st)); [done|contradiction].
Qed.

(** The [forEach] over the children of [name]. *)
Lemma forEach_deps_production (n : nat) (name : string)
    (ancestors : list string) :
  (forall name ancestors st,
      name ∈ keys g -> tidy g st -> unvisited g (markVisited name st) < n ->
      exists st', visit n d g name ancestors st = Ret st'
                  /\ proceeds g st st' /\ name ∈ sorted st') ->
  forall (deps : list string) (st : SortState),
    (forall dep, dep ∈ deps -> edge g name dep) ->
    tidy g st -> unvisited g st <= n ->
    exists st', forEach deps (visitDep n d g name ancestors) st = Ret st'
                /\ proceeds g st st'.
Proof.
  intros IH. induction deps as [|dep deps IHdeps]; intros st Hedges Ht Hfuel.
  - exists st. split; [reflexivity|now apply proceeds_refl].
  - rewrite forEach_cons.
    assert (Hdep : exists st1, visitDep n d g name ancestors dep st = Ret st1
                               /\ proceeds g st st1).
    { unfold visitDep. rewrite off. cbn [andb].
      destruct (isVisited st dep) eqn:Evis.
      - exists st. split; [reflexivity|now apply proceeds_refl].
      - unfold isVisited in Evis. apply orb_false_elim in Evis as [Hv _].
        apply bool_decide_eq_false in Hv.
        assert (Hkey : dep ∈ keys g).
        { apply (closedness name). apply Hedges. now left. }
        pose proof (unvisited_mark g st dep Hkey Hv) as Hlt.
        destruct (IH dep ancestors st Hkey Ht ltac:(lia)) as (st1 & Hret & Hp & _).
        now exists st1. }
    destruct Hdep as (st1 & -> & Hp1). simpl.
    pose proof Hp1 as (Ht1 & _ & Hv1).
    destruct (IHdeps st1) as (st' & Hret & Hp').
    + intros dep' Hdep'. apply Hedges. now right.
    + exact Ht1.
    + pose proof (unvisited_mono g st st1 Hv1). lia.
    + exists st'. split; [exact Hret|]. now apply (proceeds_trans st st1 st').
Qed.

(** [visit] returns, whatever the edges are, when the call stack is
    deeper than the number of unmarked keys. *)
Lemma visit_production (n : nat) :
  forall (name : string) (ancestors : list string) (st : SortState),
    name ∈ keys g -> tidy g st -> unvisited g (markVisited name st) < n ->
    exists st', visit n d g name ancestors st = Ret st'
                /\ proceeds g st st' /\ name ∈ sorted st'.
Proof.
  induction n as [|n IH]; intros name ancestors st Hkey Ht Hfuel; [lia|].
  rewrite visit_step.
  destruct (obj_get_is_Some _ _ Hkey) as [kids Hget]. rewrite Hget.
  destruct (forEach_deps_production n name (ancestors ++ [name]) IH kids
              (markVisited name st)) as (st1 & -> & Ht1 & Hs1 & Hv1).
  - intros dep Hdep. now exists kids.
  - exact Ht.
  - lia.
  - simpl. destruct (pushSorted_proceeds name st1 Ht1 Hkey)
      as [(Ht2 & Hs2 & Hv2) Hname].
    eexists. split; [reflexivity|]. split; [|exact Hname].
    split; [exact Ht2|]. split.
    + intros x Hx. apply Hs2, Hs1. exact Hx.
    + trans (visited st1); [|exact Hv2].
      trans (visited (markVisited name st)); [|exact Hv1].
      simpl. apply union_subseteq_r.
Qed.

(** The [forEach] over the keys of the graph. *)
Lemma forEach_keys_production (stack : nat) :
  length g < stack ->
  forall (l : list string) (st : SortState),
    (forall k, k ∈ l -> k ∈ keys g) ->
    tidy g st ->
    exists st', forEach l (fun k st => visit stack d g k [] st) st = Ret st'
                /\ proceeds g st st' /\ forall k, k ∈ l -> k ∈ sorted st'.
Proof.
  intros Hstack. induction l as [|k l IH]; intros st Hsub Ht.
  - exists st. split; [reflexivity|]. split; [now apply proceeds_refl|].
    intros k Hk. now apply elem_of_nil in Hk.
  - rewrite forEach_cons.
    destruct (visit_production stack k [] st) as (st1 & -> & Hp1 & Hk1).
    + apply Hsub. now left.
    + exact Ht.
    + unfold unvisited.
      pose proof (length_filter (fun x => x ∉ visited (markVisited k st))
                    (keys g)) as Hle.
      unfold keys in Hle |- *. rewrite length_fmap in Hle. lia.
    + simpl. destruct (IH st1) as (st' & Hret & Hp' & Hall).
      * intros x Hx. apply Hsub. now right.
      * apply Hp1.
      * exists st'. split; [exact Hret|].
        split; [now apply (proceeds_trans st st1 st')|].
        intros x Hx. apply elem_of_cons in Hx as [->|Hx]; [|now apply Hall].
        now apply Hp'.
Qed.

End Production.

(** With [ngDevMode] falsy, [topologicalSort] throws nothing on a map
    whose children are all keys, cycle or not: it returns every key of the
    map, each exactly once. *)
Theorem topologicalSort_production (g : StateKeyGraph) (stack : nat)
    (d : option bool) :
  devChecks d = false -> closed g -> length g < stack ->
  exists order,
    topologicalSort stack d g = Ret order
    /\ NoDup order
    /\ forall k, k ∈ order <-> k ∈ keys g.
Proof.
  intros Hoff Hclosed Hstack. unfold topologicalSort.
  destruct (forEach_keys_production d g Hoff Hclosed stack Hstack (keys g)
              {| sorted := []; visited := ∅ |}) as (st & -> & Hp & Hall).
  - auto.
  - split; [constructor|]. intros x Hx. now apply elem_of_nil in Hx.
  - destruct Hp as ([Hnd Hkeys] & _ & _).
    exists (reverse (sorted st)). split; [reflexivity|]. split.
    + now rewrite reverse_Permutation.
    + intros k. rewrite elem_of_reverse. split; [apply Hkeys|apply Hall].
Qed.

Lemma topologicalSort_production_witness :
  exists order,
    topologicalSort 3 (Some false) mutualGraph = Ret order
    /\ NoDup order
    /\ forall k, k ∈ order <-> k ∈ keys mutualGraph.
Proof.
  apply (topologicalSort_production mutualGraph 3 (Some false)).
  - reflexivity.
  - now apply closed_check.
  - simpl. lia.
Defined.

(** ** [topologicalSort] on a map with a child that is no key *)

Lemma obj_get_not_key {A : Type} (o : PlainObjectOf A) (k : string) :
  k ∉ keys o -> obj_get o k = None.
Proof.
  intros Hk. destruct (obj_get o k) as [v|] eqn:Hget; [|reflexivity].
  now apply obj_get_key in Hget.
Qed.

Lemma postOrdered_child (g : StateKeyGraph) (l : list string) (x c : string) :
  postOrdered g l -> x ∈ l -> edge g x c -> c ∈ l.
Proof.
  intros Hpo Hx Hedge. apply (postOrdered_reach g l Hpo x c Hx).
  now apply tc_once.
Qed.

Section OpenGraph.

Variable d : option bool.
Variable g : StateKeyGraph.

Hypothesis plain : plainChildren g.
Hypothesis mode : devChecks d = true \/ acyclic g.

Lemma advances_same (st : SortState) (ancestors : list string) :
  postOrdered g (sorted st) -> settled st ancestors ->
  advances g st st ancestors.
Proof. intros Hpo Hset. repeat split; auto. Qed.

Lemma advances_then (st1 st2 st3 : SortState) (ancestors : list string) :
  advances g st1 st2 ancestors -> advances g st2 st3 ancestors ->
  advances g st1 st3 ancestors.
Proof.
  intros (_ & _ & Hs12 & Hv12) (Hpo & Hset & Hs23 & Hv23).
  repeat split; auto. now trans (visited st2).
Qed.

(** The [forEach] over the children of [name]. *)
Lemma forEach_deps_open (n : nat) (name : string) (ancestors kids : list string) :
  (forall name ancestors st,
      name ∈ keys g -> postOrdered g (sorted st) -> settled st ancestors ->
      chained g (ancestors ++ [name]) ->
      unvisited g (markVisited name st) + 1 < n ->
      visitOutcome g st ancestors name (visit n d g name ancestors st)) ->
  obj_get g name = Some kids ->
  last ancestors = Some name ->
  chained g ancestors ->
  forall (deps : list string) (st : SortState),
    (forall c, c ∈ deps -> c ∈ kids) ->
    postOrdered g (sorted st) ->
    settled st ancestors ->
    unvisited g st < n ->
    match forEach deps (visitDep n d g name ancestors) st with
    | Ret st' =>
        advances g st st' ancestors /\ forall c, c ∈ deps -> c ∈ sorted st'
    | Throw e => circularError g e \/ e = TypeError
    end.
Proof.
  intros IH Hget Hlast Hch.
  induction deps as [|dep deps IHdeps]; intros st Hsub Hpo Hset Hfuel.
  - simpl. split; [now apply advances_same|].
    intros c Hc. now apply elem_of_nil in Hc.
  - assert (Hedge : edge g name dep).
    { exists kids. split; [exact Hget|]. apply Hsub. now left. }
    assert (Hdep : match visitDep n d g name ancestors dep st with
                   | Ret st1 => advances g st st1 ancestors /\ dep ∈ sorted st1
                   | Throw e => circularError g e \/ e = TypeError
                   end).
    { unfold visitDep. rewrite indexOf_nonneg.
      destruct (devChecks d && bool_decide (dep ∈ ancestors)) eqn:Echeck.
      { apply andb_prop in Echeck as [_ Hin].
        apply bool_decide_eq_true in Hin.
        left. now exists dep, name, ancestors. }
      assert (Hnotanc : dep ∉ ancestors).
      { intros Hin. destruct mode as [Hdev|Hacyc].
        - now rewrite Hdev, (bool_decide_eq_true_2 _ Hin) in Echeck.
        - apply (Hacyc dep). eapply tc_rtc_l; [|apply tc_once, Hedge].
          now apply (chained_reaches g ancestors). }
      destruct (isVisited st dep) eqn:Evis.
      - split; [now apply advances_same|].
        unfold isVisited in Evis. apply orb_prop in Evis as [Hv|Hproto].
        + apply bool_decide_eq_true in Hv.
          destruct (Hset _ Hv) as [Hs|Ha]; [exact Hs|contradiction].
        + apply bool_decide_eq_true in Hproto.
          now apply (plain _ _ Hedge) in Hproto.
      - unfold isVisited in Evis. apply orb_false_elim in Evis as [Hv _].
        apply bool_decide_eq_false in Hv.
        destruct (decide (dep ∈ keys g)) as [Hkey|Hnokey].
        + pose proof (unvisited_mark g st dep Hkey Hv) as Hlt.
          apply (IH dep ancestors st Hkey Hpo Hset
                   (chained_snoc _ _ _ _ Hch Hlast Hedge)). lia.
        + destruct n as [|n]; [lia|].
          rewrite visit_step, (obj_get_not_key g dep Hnokey). now right. }
    rewrite forEach_cons.
    destruct (visitDep n d g name ancestors dep st) as [st1|e]; [|exact Hdep].
    simpl. destruct Hdep as [Hadv Hdep].
    pose proof Hadv as (Hpo1 & Hset1 & Hs1 & Hv1).
    specialize (IHdeps st1 (fun c Hc => Hsub c (list_elem_of_further _ _ _ Hc))
                  Hpo1 Hset1).
    pose proof (unvisited_mono g st st1 Hv1) as Hmono.
    destruct (forEach deps _ st1) as [st'|e]; [|apply IHdeps; lia].
    destruct IHdeps as [Hadv' Hall]; [lia|].
    split; [now apply (advances_then st st1 st')|].
    intros c Hc. apply elem_of_cons in Hc as [->|Hc]; [|now apply Hall].
    now apply Hadv'.
Qed.

Lemma visit_open (n : nat) :
  forall (name : string) (ancestors : list string) (st : SortState),
    name ∈ keys g -> postOrdered g (sorted st) -> settled st ancestors ->
    chained g (ancestors ++ [name]) ->
    unvisited g (markVisited name st) + 1 < n ->
    visitOutcome g st ancestors name (visit n d g name ancestors st).
Proof.
  induction n as [|n IH]; intros name ancestors st Hkey Hpo Hset Hch Hfuel;
    [lia|].
  rewrite visit_step.
  destruct (obj_get_is_Some _ _ Hkey) as [kids Hget]. rewrite Hget.
  assert (Hset0 : settled (markVisited name st) (ancestors ++ [name])).
  { intros x Hx. simpl in Hx. apply elem_of_union in Hx as [Hx|Hx].
    - apply elem_of_singleton in Hx as ->. right.
      apply elem_of_app. right. now left.
    - destruct (Hset _ Hx) as [Hs|Ha]; [now left|].
      right. apply elem_of_app. now left. }
  pose proof (forEach_deps_open n name (ancestors ++ [name]) kids IH Hget
                (last_snoc _ _) Hch kids (markVisited name st)
                (fun c Hc => Hc) Hpo Hset0 ltac:(lia)) as Hloop.
  destruct (forEach kids _ (markVisited name st)) as [st1|e]; [|exact Hloop].
  destruct Hloop as [(Hpo1 & Hset1 & Hs1 & Hv1) Hall].
  simpl. unfold pushSorted. rewrite indexOf_negative.
  assert (Hv : visited st ⊆ visited st1).
  { simpl in Hv1. trans ({[name]} ∪ visited st); [apply union_subseteq_r|exact Hv1]. }
  case_bool_decide as Hin.
  - simpl. split; [|apply elem_of_app; right; now left].
    split; [now apply (postOrdered_push g _ _ kids)|].
    split; [|split; [|exact Hv]].
    + intros x Hx. simpl in Hx. simpl.
      destruct (Hset1 _ Hx) as [Hs|Ha].
      * left. apply elem_of_app. now left.
      * apply elem_of_app in Ha as [Ha|Ha]; [now right|].
        apply list_elem_of_singleton in Ha as ->.
        left. apply elem_of_app. right. now left.
    + intros x Hx. simpl. apply elem_of_app. left. now apply Hs1.
  - assert (Hname : name ∈ sorted st1)
      by (destruct (decide (name ∈ sorted st1)); [done|contradiction]).
    split; [|exact Hname].
    split; [exact Hpo1|]. split; [|split; [exact Hs1|exact Hv]].
    intros x Hx. destruct (Hset1 _ Hx) as [Hs|Ha]; [now left|].
    apply elem_of_app in Ha as [Ha|Ha]; [now right|].
    apply list_elem_of_singleton in Ha as ->. now left.
Qed.

(** The [forEach] over the keys of the graph. *)
Lemma forEach_keys_open (stack : nat) :
  S (length g) < stack ->
  forall (l : list string) (st : SortState),
    (forall k, k ∈ l -> k ∈ keys g) ->
    postOrdered g (sorted st) ->
    settled st [] ->
    match forEach l (fun k st => visit stack d g k [] st) st with
    | Ret st' =>
        postOrdered g (sorted st')
        /\ (forall x, x ∈ sorted st -> x ∈ sorted st')
        /\ (forall k, k ∈ l -> k ∈ sorted st')
    | Throw e => circularError g e \/ e = TypeError
    end.
Proof.
  intros Hstack. induction l as [|k l IH]; intros st Hsub Hpo Hset.
  - simpl. repeat split; auto. intros k Hk. now apply elem_of_nil in Hk.
  - rewrite forEach_cons.
    assert (Hkey : k ∈ keys g) by (apply Hsub; now left).
    assert (Hfuel : unvisited g (markVisited k st) + 1 < stack).
    { unfold unvisited.
      pose proof (length_filter (fun x => x ∉ visited (markVisited k st))
                    (keys g)) as Hle.
      unfold keys in Hle |- *. rewrite length_fmap in Hle. lia. }
    pose proof (visit_open stack k [] st Hkey Hpo Hset I Hfuel) as Hvisit.
    destruct (visit stack d g k [] st) as [st1|e]; [|exact Hvisit].
    destruct Hvisit as [(Hpo1 & Hset1 & Hs1 & Hv1) Hk1]. simpl.
    specialize (IH st1 (fun x Hx => Hsub x (list_elem_of_further _ _ _ Hx))
                  Hpo1 Hset1).
    destruct (forEach l _ st1) as [st'|e]; [|exact IH].
    destruct IH as (Hpo' & Hs' & Hall).
    repeat split; auto.
    intros x Hx. apply elem_of_cons in Hx as [->|Hx]; auto.
Qed.

End OpenGraph.

(** A child that is no key of the map (and is not named like an inherited
    property) makes [topologicalSort] throw: it returns no order.  On a
    map without a cycle the error is the [TypeError] of
    [graph[name].forEach] on [undefined], whatever [ngDevMode] is; under
    the development checks a cycle may be reported first. *)
Theorem topologicalSort_dangling_child (g : StateKeyGraph) (stack : nat)
    (d : option bool) (parent child : string) :
  plainChildren g ->
  devChecks d = true \/ acyclic g ->
  edge g parent child -> child ∉ keys g ->
  S (length g) < stack ->
  exists e,
    topologicalSort stack d g = Throw e
    /\ (e = TypeError \/ (cyclic g /\ circularError g e))
    /\ (acyclic g -> e = TypeError).
Proof.
  intros Hplain Hmode Hedge Hchild Hstack. unfold topologicalSort.
  pose proof (forEach_keys_open d g Hplain Hmode stack Hstack (keys g)
                {| sorted := []; visited := ∅ |} (fun k Hk => Hk)
                (postOrdered_nil g)) as Hloop.
  destruct (forEach (keys g) _ _) as [st|e].
  - exfalso. destruct Hloop as (Hpo & _ & Hall).
    { intros x Hx. simpl in Hx. now apply elem_of_empty in Hx. }
    apply Hchild, (postOrdered_keys g (sorted st) Hpo).
    apply (postOrdered_child g (sorted st) parent child Hpo); [|exact Hedge].
    apply Hall. now apply (edge_key g parent child).
  - exists e. split; [reflexivity|].
    destruct Hloop as [Hcirc|Htype].
    { intros x Hx. simpl in Hx. now apply elem_of_empty in Hx. }
    + pose proof (circularError_cyclic g e Hcirc) as Hcyc.
      split; [right; now split|].
      intros Hacyc. destruct Hcyc as [x Hx]. now apply Hacyc in Hx.
    + split; [now left|now intros _].
Qed.

Lemma topologicalSort_dangling_child_witness :
  topologicalSort 3 (Some false) danglingGraph = Throw TypeError
  /\ topologicalSort 3 None danglingGraph = Throw TypeError.
Proof.
  assert (Hedge : edge danglingGraph "a" "b").
  { exists ["b"]. split; [reflexivity|]. apply list_elem_of_In. now left. }
  assert (Hacyc : acyclic danglingGraph)
    by now apply (ranked_acyclic danglingRank).
  split.
  - destruct (topologicalSort_dangling_child danglingGraph 3 (Some false)
                "a" "b") as (e & Hthrow & _ & He).
    + now apply plainChildren_check.
    + now right.
    + exact Hedge.
    + now apply not_in_keys.
    + simpl. lia.
    + now rewrite Hthrow, (He Hacyc).
  - destruct (topologicalSort_dangling_child danglingGraph 3 None
                "a" "b") as (e & Hthrow & _ & He).
    + now apply plainChildren_check.
    + now left.
    + exact Hedge.
    + now apply not_in_keys.
    + simpl. lia.
    + now rewrite Hthrow, (He Hacyc).
Defined.
